(** * The audio processing service of AI Ensemble Composer

    A shallow embedding of [backend/services/audio_processing.py]
    (class [AudioProcessingService]) and the properties of its mixing,
    resampling, normalisation, trimming, fade, analysis and effects code,
    together with the parts of [backend/services/export_service.py] that
    call it: the mix-down export, the volume and pan step of the stem export
    and the file name sanitiser.

    Conventions of the embedding:
    - Python [float] samples and gains are real numbers ([R]); rounding of
      binary floating point is not modelled.
    - Quantities that the code feeds to [int(...)] (durations in seconds,
      resampling ratios, delay times) are exact rationals ([Q]), so that frame
      counts are computable integers.
    - lengths, indices and sample rates are [Z] (Python [int]).
    - a raised exception is the [Raise] case of [result].
    - a 1-D numpy array is [Mono], an [(N, 2)] array is [Stereo]. *)

From Stdlib Require Import Ascii String NArith ZArith QArith Qround Reals Qreals.
From Stdlib Require Import List Permutation Bool Lia Lra Psatz.
Import ListNotations.

Local Open Scope Z_scope.

(* ------------------------------------------------------------------ *)
(** ** Python values, exceptions *)

Module Py.

Inductive exn : Type :=
| ValueError (msg : string)
| ZeroDivisionError (msg : string)
| LibsndfileError (msg : string).

Inductive result (A : Type) : Type :=
| Ok (a : A)
| Raise (e : exn).
Arguments Ok {A} a.
Arguments Raise {A} e.

Definition bind {A B : Type} (c : result A) (k : A -> result B) : result B :=
  match c with
  | Ok a => k a
  | Raise e => Raise e
  end.

(** [int(x)] of a float: truncation toward zero. *)
Definition int (q : Q) : Z := Z.quot (Qnum q) (Z.pos (Qden q)).

(** [a / b] on two Python ints (true division). *)
Definition truediv (a b : Z) : result Q :=
  if b =? 0 then Raise (ZeroDivisionError "division by zero")
  else Ok (inject_Z a / inject_Z b)%Q.

(** [max(a, b)]: the first argument unless the second is larger. *)
Definition maxZ (a b : Z) : Z := if a <? b then b else a.
Definition maxQ (a b : Q) : Q := if Qlt_le_dec a b then b else a.


End Py.
Import Py.

Declare Scope py_scope.
Delimit Scope py_scope with py.
Notation "x <- c ;; k" := (bind c (fun x => k))
  (at level 61, c at next level, right associativity) : py_scope.
Notation "' pat <- c ;; k" := (bind c (fun x => match x with pat => k end))
  (at level 61, pat pattern, c at next level, right associativity) : py_scope.
Local Open Scope py_scope.

(* ------------------------------------------------------------------ *)
(** ** The numpy operations the service uses *)

Module Np.

(** A sample buffer: shape [(N,)] or shape [(N, 2)]. *)
Inductive ndarray : Type :=
| Mono (s : list R)
| Stereo (s : list (R * R)).

(** [len(a)], that is [a.shape[0]]. *)
Definition len (a : ndarray) : nat :=
  match a with
  | Mono s => length s
  | Stereo s => length s
  end.

(** [np.arange(n)] as floats. *)
Definition arange (n : nat) : list R := map INR (seq 0 n).

(** [np.linspace(start, stop, num)]. *)
Definition linspace (start stop : R) (num : Z) : result (list R) :=
  if num <? 0 then Raise (ValueError "Number of samples must be non-negative.")
  else
    let step := ((stop - start) / IZR (num - 1))%R in
    Ok (map (fun i => if num =? 1 then start else (start + INR i * step)%R)
            (seq 0 (Z.to_nat num))).

(** One segment search of [np.interp]: [xp] increasing, [x] above [xp[0]]. *)
Fixpoint interp_seg (x : R) (xp fp : list R) : R :=
  match xp, fp with
  | x0 :: ((x1 :: _) as xp'), y0 :: ((y1 :: _) as fp') =>
      if Rlt_dec x x1
      then ((y1 - y0) / (x1 - x0) * (x - x0) + y0)%R
      else interp_seg x xp' fp'
  | _, y0 :: _ => y0
  | _, [] => 0%R
  end.

Definition interp1 (x : R) (xp fp : list R) : R :=
  match xp, fp with
  | x0 :: _, y0 :: _ => if Rle_dec x x0 then y0 else interp_seg x xp fp
  | _, _ => 0%R
  end.

(** [np.interp(x, xp, fp)]. *)
Definition interp (x xp fp : list R) : result (list R) :=
  match xp with
  | [] => Raise (ValueError "array of sample points is empty")
  | _ => if (length fp =? length xp)%nat
         then Ok (map (fun xi => interp1 xi xp fp) x)
         else Raise (ValueError "fp and xp are not of the same length.")
  end.

(** [np.max(a)] of a flattened array. *)
Definition amax (l : list R) : result R :=
  match l with
  | [] => Raise (ValueError "zero-size array to reduction operation maximum which has no identity")
  | x :: l' => Ok (fold_left Rmax l' x)
  end.

(** [np.zeros((n, 2))]. *)
Definition zeros2 (n : Z) : result (list (R * R)) :=
  if n <? 0 then Raise (ValueError "negative dimensions are not allowed")
  else Ok (repeat (0%R, 0%R) (Z.to_nat n)).

(** Elementwise combination of two arrays of one shape. *)
Fixpoint zip_with (f : R -> R -> R) (a b : list R) : list R :=
  match a, b with
  | x :: a', y :: b' => f x y :: zip_with f a' b'
  | _, _ => []
  end.

(** A binary ufunc on 1-D arrays, with numpy's broadcasting of length 1. *)
Definition broadcast2 (f : R -> R -> R) (a b : list R) : result (list R) :=
  if (length a =? length b)%nat then Ok (zip_with f a b)
  else if (length a =? 1)%nat then Ok (map (f (hd 0%R a)) b)
  else if (length b =? 1)%nat then Ok (map (fun x => f x (hd 0%R b)) a)
  else Raise (ValueError "operands could not be broadcast together").

(** In-place [target *= operand]: the operand must broadcast to the shape of
    the target. *)
Definition imul (target operand : list R) : result (list R) :=
  if (length operand =? length target)%nat then Ok (zip_with Rmult target operand)
  else if (length operand =? 1)%nat
       then Ok (map (fun x => (x * hd 0 operand)%R) target)
       else Raise (ValueError "operands could not be broadcast together").

(** [column[:] = value]: the value must broadcast to the column. *)
Definition assign_column (column value : list R) : result (list R) :=
  if (length value =? length column)%nat then Ok value
  else if (length value =? 1)%nat then Ok (map (fun _ => hd 0%R value) column)
  else Raise (ValueError "could not broadcast input array").

(** Sum of two coefficient lists, the longer one giving the length. *)
Fixpoint padd (a b : list R) : list R :=
  match a, b with
  | [], _ => b
  | _, [] => a
  | x :: a', y :: b' => (x + y)%R :: padd a' b'
  end.

Fixpoint conv_full (a v : list R) : list R :=
  match a with
  | [] => []
  | x :: a' => padd (map (Rmult x) v) (0%R :: conv_full a' v)
  end.

(** [np.convolve(a, v, mode='full')]; numpy names the longer operand [a]
    before it checks for empty ones. *)
Definition convolve_full (a v : list R) : result (list R) :=
  match a, v with
  | [], [] => Raise (ValueError "a cannot be empty")
  | [], _ :: _ | _ :: _, [] => Raise (ValueError "v cannot be empty")
  | _ :: _, _ :: _ => Ok (conv_full a v)
  end.

(** [np.convolve(a, v, mode='same')]: the centred [max(M, N)] values. *)
Definition convolve_same (a v : list R) : result (list R) :=
  full <- convolve_full a v ;;
  let n := Nat.min (length a) (length v) in
  Ok (firstn (Nat.max (length a) (length v)) (skipn ((n - 1) / 2) full)).

(** [np.random.random(n)]: [noise i] is the i-th number drawn by the call. *)
Definition random_random (noise : nat -> R) (n : Z) : result (list R) :=
  if n <? 0 then Raise (ValueError "negative dimensions are not allowed")
  else Ok (map noise (seq 0 (Z.to_nat n))).

(** Apply a 1-D operation to every channel, keeping the shape. *)
Definition on_channels (f : list R -> result (list R)) (a : ndarray)
  : result ndarray :=
  match a with
  | Mono s => s' <- f s ;; Ok (Mono s')
  | Stereo s =>
      c0 <- f (map fst s) ;;
      c1 <- f (map snd s) ;;
      Ok (Stereo (combine c0 c1))
  end.

(** [a[start:stop]] for Python ints: a negative index counts from the end,
    and both ends are clamped to the array. *)
Definition slice_index (n : nat) (i : Z) : nat :=
  if i <? 0 then Z.to_nat (Z.max 0 (i + Z.of_nat n))
  else Nat.min (Z.to_nat i) n.

Definition slice {A : Type} (l : list A) (start stop : Z) : list A :=
  let s := slice_index (length l) start in
  let e := slice_index (length l) stop in
  firstn (e - s) (skipn s l).

(** [np.mean(a, axis=1)] for a 2-D array, the array itself for a 1-D one. *)
Definition mono_mean (a : ndarray) : list R :=
  match a with
  | Mono s => s
  | Stereo s => map (fun p => ((fst p + snd p) / 2)%R) s
  end.

(** [np.mean(a)] of a 1-D array. *)
Definition mean (l : list R) : R :=
  (fold_right Rplus 0 l / INR (length l))%R.

(** [np.argmax(a)]: the first index of the largest value. *)
Fixpoint argmax_from (l : list R) (i best_i : nat) (best : R) : nat :=
  match l with
  | [] => best_i
  | x :: l' =>
      if Rlt_dec best x then argmax_from l' (S i) i x
      else argmax_from l' (S i) best_i best
  end.

Definition argmax (l : list R) : nat :=
  match l with
  | [] => 0%nat
  | x :: l' => argmax_from l' 1 0 x
  end.

(** [np.abs(np.fft.rfft(x))]: the magnitudes of the first [n/2 + 1] bins of
    the discrete Fourier transform. *)
Definition dft_sum (f : R -> R) (x : list R) (k : nat) : R :=
  fold_right Rplus 0%R
    (map (fun p => (snd p * f (2 * PI * INR k * INR (fst p)
                               / INR (length x)))%R)
         (combine (seq 0 (length x)) x)).

Definition rfft_abs (x : list R) : list R :=
  map (fun k => sqrt (Rsqr (dft_sum cos x k) + Rsqr (dft_sum sin x k)))
      (seq 0 (length x / 2 + 1)).

(** [np.fft.rfftfreq(n, d)] *)
Definition rfftfreq (n : nat) (d : R) : list R :=
  map (fun k => (INR k * (1 / (INR n * d)))%R) (seq 0 (n / 2 + 1)).

End Np.
Import Np.

(* ------------------------------------------------------------------ *)
(** ** [AudioProcessingService] *)

Module AudioProcessingService.

(** One channel of [resample_audio]: the index grid and the interpolation. *)
Definition resample_channel (channel_data : list R) (new_length : Z)
  : result (list R) :=
  let x_original := arange (length channel_data) in
  x_resampled <- linspace 0 (INR (length channel_data) - 1) new_length ;;
  interp x_resampled x_original channel_data.

Definition resample_audio (audio_data : ndarray)
           (original_sample_rate target_sample_rate : Z) : result ndarray :=
  if original_sample_rate =? target_sample_rate then Ok audio_data
  else
    ratio <- truediv target_sample_rate original_sample_rate ;;
    let new_length := int (inject_Z (Z.of_nat (len audio_data)) * ratio) in
    match audio_data with
    | Stereo s =>
        _ <- zeros2 new_length ;;
        ch0 <- resample_channel (map fst s) new_length ;;
        ch1 <- resample_channel (map snd s) new_length ;;
        Ok (Stereo (combine ch0 ch1))
    | Mono s =>
        resampled <- resample_channel s new_length ;;
        Ok (Mono resampled)
    end.

(** *** [normalize_audio] *)

(** The elements of an array in storage order. *)
Definition samples (a : ndarray) : list R :=
  match a with
  | Mono s => s
  | Stereo s => flat_map (fun p => [fst p; snd p]) s
  end.

(** [audio_data * gain] with a scalar gain. *)
Definition scale (a : ndarray) (gain : R) : ndarray :=
  match a with
  | Mono s => Mono (map (fun x => x * gain)%R s)
  | Stereo s => Stereo (map (fun p => (fst p * gain, snd p * gain)%R) s)
  end.

(** [np.max(np.abs(audio_data))]. *)
Definition abs_peak (a : ndarray) : result R := amax (map Rabs (samples a)).

Definition normalize_audio (audio_data : ndarray) (target_db : R)
  : result ndarray :=
  peak <- abs_peak audio_data ;;
  if Req_dec_T peak 0 then Ok audio_data
  else
    let target_linear := Rpower 10 (target_db / 20) in
    let gain := (target_linear / peak)%R in
    Ok (scale audio_data gain).

(** The default [target_db] of [normalize_audio]. *)
Definition default_target_db : R := (-3)%R.

(** *** [mix_tracks] *)

(** A track dictionary as the caller passes it; an absent key is [None]. *)
Record track : Type := mk_track {
  muted : bool;
  file_path : option string;
  volume : option R;
  pan : option R;
  solo : bool
}.

(** What [os.path.exists] and [soundfile.read] answer. *)
Record filesystem : Type := mk_filesystem {
  path_exists : string -> bool;
  sf_read : string -> result (ndarray * Z)
}.

(** An entry of [track_audio_data]. *)
Record track_data : Type := mk_track_data {
  td_audio : ndarray;
  td_sample_rate : Z;
  td_volume : R;
  td_pan : R;
  td_solo : bool
}.

Definition read_audio_file (fs : filesystem) (path : string)
  : result (ndarray * Z) := sf_read fs path.

(** State of the first loop of [mix_tracks]. *)
Record pass1 : Type := mk_pass1 {
  max_sample_rate : Z;
  max_length : Q;
  track_audio_data : list track_data
}.

Definition pass1_init : pass1 := mk_pass1 0 0 [].

(** First pass: skip muted and missing tracks, read the others, track the
    maximum sample rate and the maximum duration in seconds. *)
Fixpoint first_pass (fs : filesystem) (tracks : list track) (st : pass1)
  : result pass1 :=
  match tracks with
  | [] => Ok st
  | t :: rest =>
      if muted t then first_pass fs rest st
      else
        match file_path t with
        | None => first_pass fs rest st
        | Some path =>
            if (path =? "")%string || negb (path_exists fs path)
            then first_pass fs rest st
            else
              '(audio, sample_rate) <- read_audio_file fs path ;;
              let msr := maxZ (max_sample_rate st) sample_rate in
              seconds <- truediv (Z.of_nat (len audio)) sample_rate ;;
              let ml := maxQ (max_length st) seconds in
              let entry :=
                mk_track_data audio sample_rate
                  (match volume t with Some v => v | None => 100 end / 100)%R
                  (match pan t with Some p => p | None => 0 end)%R
                  (solo t) in
              first_pass fs rest (mk_pass1 msr ml (track_audio_data st ++ [entry]))
        end
  end.

(** [np.column_stack((audio, audio))] for a 1-D array. *)
Definition to_stereo (a : ndarray) : list (R * R) :=
  match a with
  | Mono s => map (fun x => (x, x)) s
  | Stereo s => s
  end.

(** The equal power pan law of the mixer. *)
Definition pan_left (pan : R) : R := cos ((pan + 1) * PI / 4).
Definition pan_right (pan : R) : R := sin ((pan + 1) * PI / 4).

Definition apply_pan_gains (pan : R) (audio : list (R * R)) : list (R * R) :=
  map (fun p => (fst p * pan_left pan, snd p * pan_right pan)%R) audio.

(** The panning step of the second loop: skipped when [pan == 0]. *)
Definition pan_stage (pan : R) (audio : list (R * R)) : list (R * R) :=
  if Req_dec_T pan 0 then audio else apply_pan_gains pan audio.

Definition apply_volume (vol : R) (audio : list (R * R)) : list (R * R) :=
  map (fun p => (fst p * vol, snd p * vol)%R) audio.

(** Zero padding or truncation to [output_length] frames. *)
Definition fit_length (output_length : nat) (audio : list (R * R))
  : list (R * R) :=
  let track_length := length audio in
  if (track_length <? output_length)%nat
  then audio ++ repeat (0, 0)%R (output_length - track_length)
  else if (output_length <? track_length)%nat
       then firstn output_length audio
       else audio.

(** [mixed_audio += audio] for two arrays of the same shape. *)
Fixpoint add_frames (mixed audio : list (R * R)) : list (R * R) :=
  match mixed, audio with
  | (l, r) :: m', (l', r') :: a' => ((l + l')%R, (r + r')%R) :: add_frames m' a'
  | _, _ => mixed
  end.

(** What one track adds to the mix, after resampling, stereo expansion,
    panning, volume and length reconciliation. *)
Definition track_contribution (max_sr : Z) (output_length : nat)
           (td : track_data) : result (list (R * R)) :=
  let pan := (td_pan td / 100)%R in
  audio <- (if td_sample_rate td =? max_sr then Ok (td_audio td)
            else resample_audio (td_audio td) (td_sample_rate td) max_sr) ;;
  let audio := to_stereo audio in
  let audio := pan_stage pan audio in
  let audio := apply_volume (td_volume td) audio in
  Ok (fit_length output_length audio).

(** Second pass: accumulate the contributing tracks. *)
Fixpoint second_pass (solo_active : bool) (max_sr : Z) (output_length : nat)
         (tds : list track_data) (mixed_audio : list (R * R))
  : result (list (R * R)) :=
  match tds with
  | [] => Ok mixed_audio
  | td :: rest =>
      if solo_active && negb (td_solo td)
      then second_pass solo_active max_sr output_length rest mixed_audio
      else
        audio <- track_contribution max_sr output_length td ;;
        second_pass solo_active max_sr output_length rest
                    (add_frames mixed_audio audio)
  end.

Definition no_tracks_provided : exn := ValueError "No tracks provided for mixing".
Definition no_valid_tracks : exn := ValueError "No valid tracks to mix".

(** The accumulated buffer before the final normalisation, and the rate. *)
Definition mix_accumulate (fs : filesystem) (tracks : list track)
  : result (list (R * R) * Z) :=
  match tracks with
  | [] => Raise no_tracks_provided
  | _ =>
      st <- first_pass fs tracks pass1_init ;;
      match track_audio_data st with
      | [] => Raise no_valid_tracks
      | _ =>
          let solo_active := existsb td_solo (track_audio_data st) in
          let output_length :=
            int (max_length st * inject_Z (max_sample_rate st)) in
          mixed_audio <- zeros2 output_length ;;
          mixed_audio <- second_pass solo_active (max_sample_rate st)
                           (Z.to_nat output_length) (track_audio_data st)
                           mixed_audio ;;
          Ok (mixed_audio, max_sample_rate st)
      end
  end.

(** [mix_tracks] without an [output_path]. *)
Definition mix_tracks (fs : filesystem) (tracks : list track)
  : result (ndarray * Z) :=
  '(mixed_audio, rate) <- mix_accumulate fs tracks ;;
  mixed_audio <- normalize_audio (Stereo mixed_audio) default_target_db ;;
  Ok (mixed_audio, rate).

(** *** [apply_fade] *)

(** [result[:k] *= curve] *)
Definition fade_in_1d (k : nat) (curve : list R) (result : list R)
  : Py.result (list R) :=
  faded <- imul (firstn k result) curve ;;
  Ok (faded ++ skipn k result).

(** [result[-k:] *= curve], with [k > 0] *)
Definition fade_out_1d (k : nat) (curve : list R) (result : list R)
  : Py.result (list R) :=
  let start := (length result - k)%nat in
  faded <- imul (skipn start result) curve ;;
  Ok (firstn start result ++ faded).

Definition apply_fade (audio_data : ndarray)
           (fade_in_duration fade_out_duration : Q) (sample_rate : Z)
  : result ndarray :=
  let fade_in_samples := int (fade_in_duration * inject_Z sample_rate) in
  let fade_out_samples := int (fade_out_duration * inject_Z sample_rate) in
  let result := audio_data in
  result <- (if 0 <? fade_in_samples
             then
               fade_in_curve <- linspace 0 1 fade_in_samples ;;
               on_channels (fade_in_1d (Z.to_nat fade_in_samples) fade_in_curve)
                           result
             else Ok result) ;;
  result <- (if 0 <? fade_out_samples
             then
               fade_out_curve <- linspace 1 0 fade_out_samples ;;
               on_channels (fade_out_1d (Z.to_nat fade_out_samples) fade_out_curve)
                           result
             else Ok result) ;;
  Ok result.

(** *** [apply_simple_effects] *)

Record eq_config : Type := mk_eq {
  eq_low : option R;
  eq_mid : option R;
  eq_high : option R
}.

Record reverb_config : Type := mk_reverb {
  reverb_decay : option Q;
  reverb_wet : option R
}.

Record delay_config : Type := mk_delay {
  delay_time : option Q;
  delay_feedback : option R;
  delay_wet : option R
}.

(** The [effects] dictionary; an absent key is [None]. *)
Record effects_config : Type := mk_effects {
  fx_eq : option eq_config;
  fx_reverb : option reverb_config;
  fx_delay : option delay_config;
  fx_normalize : option bool
}.

(** [10 ** (db / 20)] *)
Definition db_to_gain (db : R) : R := Rpower 10 (db / 20).

(** [np.ones(n) / d * m] *)
Definition window (n : nat) (weight : R) : list R := repeat weight n.

Definition _apply_low_shelf (audio : list R) (gain : R) : result (list R) :=
  let window_size := 10%nat in
  low <- convolve_same audio (window window_size (1 / 10)) ;;
  broadcast2 Rplus audio (map (fun x => x * (gain - 1))%R low).

Definition _apply_mid_band (audio : list R) (gain : R) : result (list R) :=
  let window_size := 5%nat in
  low <- convolve_same audio (window window_size (1 / 5)) ;;
  wide <- convolve_same audio (window (window_size * 2) (1 / 5 * 2)) ;;
  high <- broadcast2 Rminus audio wide ;;
  mid0 <- broadcast2 Rminus audio low ;;
  mid <- broadcast2 Rminus mid0 high ;;
  broadcast2 Rplus audio (map (fun x => x * (gain - 1))%R mid).

Definition _apply_high_shelf (audio : list R) (gain : R) : result (list R) :=
  let window_size := 10%nat in
  low <- convolve_same audio (window window_size (1 / 10)) ;;
  high <- broadcast2 Rminus audio low ;;
  broadcast2 Rplus audio (map (fun x => x * (gain - 1))%R high).

(** One band of the EQ, when its key is present; [store] is the assignment
    that receives the filtered channel. *)
Definition eq_band (band : option R)
           (filter : list R -> R -> result (list R))
           (store : list R -> list R -> result (list R))
           (channel : list R) : result (list R) :=
  match band with
  | Some db =>
      filtered <- filter channel (db_to_gain db) ;;
      store channel filtered
  | None => Ok channel
  end.

Definition eq_channel (eq : eq_config)
           (store : list R -> list R -> result (list R))
           (channel : list R) : result (list R) :=
  channel <- eq_band (eq_low eq) _apply_low_shelf store channel ;;
  channel <- eq_band (eq_mid eq) _apply_mid_band store channel ;;
  eq_band (eq_high eq) _apply_high_shelf store channel.

(** The EQ stage: in place per column for 2-D input, rebinding for 1-D. *)
Definition apply_eq (eq : eq_config) (result : ndarray) : Py.result ndarray :=
  match result with
  | Stereo _ => on_channels (eq_channel eq assign_column) result
  | Mono _ => on_channels (eq_channel eq (fun _ v => Ok v)) result
  end.

Definition _apply_simple_reverb (noise : nat -> R) (audio : ndarray)
           (decay : Q) (wet : R) : result ndarray :=
  let impulse_length := int (decay * 48000) in
  drawn <- random_random noise impulse_length ;;
  grid <- linspace 0 10 impulse_length ;;
  let impulse := zip_with Rmult drawn (map (fun x => exp (- x)) grid) in
  let total := fold_right Rplus 0%R impulse in
  let impulse := map (fun x => x / total)%R impulse in
  on_channels
    (fun channel =>
       full <- convolve_full channel impulse ;;
       let reverb_data := firstn (len audio) full in
       broadcast2 Rplus (map (Rmult (1 - wet)) channel)
                  (map (Rmult wet) reverb_data))
    audio.

(** The delay time in samples: the rate is the constant 44100. *)
Definition delay_sample_rate : Z := 44100.

Definition delay_samples (time_ms : Q) : Z :=
  int (time_ms * inject_Z delay_sample_rate / 1000).

(** [delayed[idx:] += amount * audio[:-idx]] *)
Definition add_echo (idx : nat) (amount : R) (audio delayed : list R)
  : list R :=
  firstn idx delayed
  ++ zip_with Rplus (skipn idx delayed)
       (map (Rmult amount) (firstn (length audio - idx) audio)).

(** The feedback loop [for i in range(5)], from iteration [i] on. *)
Fixpoint feedback_loop (remaining i : nat) (d : nat) (feedback : R)
         (audio delayed : list R) : list R :=
  match remaining with
  | O => delayed
  | S remaining' =>
      let feedback_amount := (feedback ^ (i + 1))%R in
      if Rlt_dec feedback_amount (1 / 100) then delayed
      else
        let delay_idx := (d * (i + 2))%nat in
        let delayed :=
          if (delay_idx <? length delayed)%nat
          then add_echo delay_idx feedback_amount audio delayed
          else delayed in
        feedback_loop remaining' (S i) d feedback audio delayed
  end.

(** The delayed signal of one channel. *)
Definition delay_line (d : nat) (feedback : R) (audio : list R) : list R :=
  let n := length audio in
  let delayed := repeat 0%R (Nat.min d n) ++ firstn (n - d) audio in
  feedback_loop 5 0 d feedback audio delayed.

Definition _apply_simple_delay (audio : ndarray) (time_ms : Q)
           (feedback wet : R) : result ndarray :=
  let d := delay_samples time_ms in
  if d <=? 0 then Ok audio
  else
    on_channels
      (fun channel =>
         let delayed := delay_line (Z.to_nat d) feedback channel in
         broadcast2 Rplus (map (Rmult (1 - wet)) channel)
                    (map (Rmult wet) delayed))
      audio.

Definition reverb_stage (noise : nat -> R) (fx : effects_config)
           (result : ndarray) : Py.result ndarray :=
  match fx_reverb fx with
  | Some reverb =>
      let decay := match reverb_decay reverb with Some d => d | None => 1 # 2 end in
      let wet := match reverb_wet reverb with Some w => w | None => (3 / 10)%R end in
      if Qlt_le_dec 0 decay
      then if Rlt_dec 0 wet
           then _apply_simple_reverb noise result decay wet
           else Ok result
      else Ok result
  | None => Ok result
  end.

Definition delay_stage (fx : effects_config) (result : ndarray)
  : Py.result ndarray :=
  match fx_delay fx with
  | Some delay =>
      let time_ms := match delay_time delay with Some t => t | None => 250 # 1 end in
      let feedback := match delay_feedback delay with Some f => f | None => (3 / 10)%R end in
      let wet := match delay_wet delay with Some w => w | None => (3 / 10)%R end in
      if Qlt_le_dec 0 time_ms
      then if Rlt_dec 0 wet
           then _apply_simple_delay result time_ms feedback wet
           else Ok result
      else Ok result
  | None => Ok result
  end.

(** [noise] stands for the state of numpy's global random generator. *)
Definition apply_simple_effects (noise : nat -> R) (audio_data : ndarray)
           (effects : effects_config) : result ndarray :=
  let result := audio_data in
  result <- (match fx_eq effects with
             | Some eq => apply_eq eq result
             | None => Ok result
             end) ;;
  result <- reverb_stage noise effects result ;;
  result <- delay_stage effects result ;;
  match fx_normalize effects with
  | Some true => normalize_audio result default_target_db
  | _ => Ok result
  end.

(** *** [trim_silence] *)

(** The first index whose magnitude exceeds the threshold, counting from
    [i]. *)
Fixpoint first_above (threshold : R) (abs_audio : list R) (i : Z) : option Z :=
  match abs_audio with
  | [] => None
  | x :: rest =>
      if Rgt_dec x threshold then Some i
      else first_above threshold rest (i + 1)
  end.

(** The last such index: the backward scan of the second loop. *)
Definition last_above (threshold : R) (abs_audio : list R) : option Z :=
  match first_above threshold (rev abs_audio) 0 with
  | Some j => Some (Z.of_nat (length abs_audio) - 1 - j)
  | None => None
  end.

Definition trim_silence (audio_data : ndarray) (threshold : R)
           (min_silence_duration : Q) (sample_rate : Z) : result ndarray :=
  let mono_audio := mono_mean audio_data in
  let abs_audio := map Rabs mono_audio in
  let min_silence_samples := int (min_silence_duration * inject_Z sample_rate) in
  let n := Z.of_nat (length abs_audio) in
  let start_idx :=
    match first_above threshold abs_audio 0 with
    | Some i => Z.max 0 (i - min_silence_samples)
    | None => 0
    end in
  let end_idx :=
    match last_above threshold abs_audio with
    | Some i => Z.min n (i + min_silence_samples)
    | None => n
    end in
  match audio_data with
  | Stereo s => Ok (Stereo (slice s start_idx end_idx))
  | Mono s => Ok (Mono (slice s start_idx end_idx))
  end.

(** *** [analyze_audio] *)

(** The dictionary that [analyze_audio] returns. *)
Record analysis : Type := mk_analysis {
  an_duration : Q;
  an_peak : R;
  an_peak_db : R;
  an_rms : R;
  an_rms_db : R;
  an_crest_factor : R;
  an_crest_factor_db : R;
  an_clipped_samples : Z;
  an_clipping_percentage : R;
  an_dc_offset : R;
  an_dominant_frequency : R;
  an_sample_rate : Z;
  an_num_channels : Z;
  an_num_samples : Z
}.

(** [20 * np.log10(x) if x > 0 else floor] *)
Definition to_db (x floor : R) : R :=
  if Rgt_dec x 0 then (20 * Rlog 10 x)%R else floor.

Definition dominant_frequency (mono_audio : list R) (sample_rate : Z) : R :=
  if (1024 <? length mono_audio)%nat
  then
    let n_fft := if (length mono_audio <? 2048)%nat
                 then length mono_audio else 2048%nat in
    let fft_data := rfft_abs (firstn n_fft mono_audio) in
    let freqs := rfftfreq n_fft (1 / IZR sample_rate) in
    let max_freq_idx := argmax fft_data in
    if (max_freq_idx <? length freqs)%nat then nth max_freq_idx freqs 0%R
    else 0%R
  else 0%R.

Definition analyze_audio (audio_data : ndarray) (sample_rate : Z)
  : result analysis :=
  let mono_audio := mono_mean audio_data in
  duration <- truediv (Z.of_nat (length mono_audio)) sample_rate ;;
  peak <- amax (map Rabs mono_audio) ;;
  let rms := sqrt (mean (map Rsqr mono_audio)) in
  let peak_db := to_db peak (-100) in
  let rms_db := to_db rms (-100) in
  let crest_factor := if Rgt_dec rms 0 then (peak / rms)%R else 0%R in
  let crest_factor_db := to_db crest_factor 0 in
  let clip_threshold := (999 / 1000)%R in
  let clipped_samples :=
    length (filter (fun x => if Rge_dec (Rabs x) clip_threshold
                             then true else false) mono_audio) in
  let clipping_percentage :=
    (INR clipped_samples / INR (length mono_audio) * 100)%R in
  let dc_offset := mean mono_audio in
  Ok (mk_analysis duration peak peak_db rms rms_db crest_factor
        crest_factor_db (Z.of_nat clipped_samples) clipping_percentage
        dc_offset (dominant_frequency mono_audio sample_rate) sample_rate
        (match audio_data with Stereo _ => 2 | Mono _ => 1 end)
        (Z.of_nat (length mono_audio))).

End AudioProcessingService.
Import AudioProcessingService.

(* ------------------------------------------------------------------ *)
(** ** Vocabulary of the properties *)

(** Duration of a stored track in seconds, [len(audio) / sample_rate]. *)
Definition duration (td : track_data) : Q :=
  (inject_Z (Z.of_nat (len (td_audio td))) / inject_Z (td_sample_rate td))%Q.

(** A track the first loop passes over: muted, or without a file. *)
Definition skipped (fs : filesystem) (t : track) : Prop :=
  muted t = true
  \/ file_path t = None
  \/ exists p, file_path t = Some p
               /\ ((p =? "")%string = true \/ path_exists fs p = false).

(** A track the first loop reads, and the entry it stores for it. *)
Definition loads (fs : filesystem) (t : track) (td : track_data) : Prop :=
  muted t = false
  /\ (exists p, file_path t = Some p
                /\ (p =? "")%string = false
                /\ path_exists fs p = true
                /\ sf_read fs p = Ok (td_audio td, td_sample_rate td))
  /\ td_sample_rate td <> 0
  /\ td_volume td = (match volume t with Some v => v | None => 100 end / 100)%R
  /\ td_pan td = (match pan t with Some p => p | None => 0 end)%R
  /\ td_solo td = solo t.

(** The surviving (unmuted, readable) tracks of a track list, in order. *)
Inductive survivors (fs : filesystem) : list track -> list track_data -> Prop :=
| survivors_nil : survivors fs [] []
| survivors_skip t rest tds :
    skipped fs t -> survivors fs rest tds -> survivors fs (t :: rest) tds
| survivors_read t rest td tds :
    loads fs t td -> survivors fs rest tds ->
    survivors fs (t :: rest) (td :: tds).

(** The tracks that are left after the solo filter. *)
Definition contributing (tds : list track_data) : list track_data :=
  if existsb td_solo tds then filter td_solo tds else tds.

(** [rate] is the highest sample rate of the tracks [tds]. *)
Definition is_max_rate (rate : Z) (tds : list track_data) : Prop :=
  (forall td, In td tds -> td_sample_rate td <= rate)
  /\ exists td, In td tds /\ td_sample_rate td = rate.


(** The first [n] frames of a buffer, and what follows them. *)
Definition take (n : nat) (a : ndarray) : ndarray :=
  match a with
  | Mono s => Mono (firstn n s)
  | Stereo s => Stereo (firstn n s)
  end.

Definition drop (n : nat) (a : ndarray) : ndarray :=
  match a with
  | Mono s => Mono (skipn n s)
  | Stereo s => Stereo (skipn n s)
  end.







(** A sample between two bounds. *)
Definition within (lo hi x : R) : Prop := (lo <= x <= hi)%R.

(** Separate gains on the two channels of a stereo buffer. *)
Definition channel_gains (gl gr : R) (audio : list (R * R)) : list (R * R) :=
  map (fun p => (fst p * gl, snd p * gr)%R) audio.

(** The mixer's second loop with the pan law applied to every track, also at
    [pan == 0]: the reading of the pan step under which skipping it would be
    an optimisation only.  It differs from [track_contribution] in the pan
    step alone. *)
Definition track_contribution_always_panned (max_sr : Z) (output_length : nat)
           (td : track_data) : result (list (R * R)) :=
  let pan := (td_pan td / 100)%R in
  audio <- (if td_sample_rate td =? max_sr then Ok (td_audio td)
            else resample_audio (td_audio td) (td_sample_rate td) max_sr) ;;
  let audio := to_stereo audio in
  let audio := apply_pan_gains pan audio in
  let audio := apply_volume (td_volume td) audio in
  Ok (fit_length output_length audio).

(* ------------------------------------------------------------------ *)
(** ** Concrete sessions used in the examples *)

Module Session.

(** One second of a constant signal at 22050 Hz. *)
Definition short_audio : ndarray := Mono (repeat 1%R (Z.to_nat 22050)).

(** Two seconds of a constant signal at 44100 Hz. *)
Definition long_audio : ndarray := Mono (repeat 1%R (Z.to_nat 88200)).

(** A file system with [short.wav] and any other name holding the long file. *)
Definition disk : filesystem :=
  mk_filesystem
    (fun _ => true)
    (fun path => if (path =? "short.wav")%string
                 then Ok (short_audio, 22050)
                 else Ok (long_audio, 44100)).

Definition solo_short : track :=
  mk_track false (Some "short.wav"%string) (Some 100%R) (Some 0%R) true.

Definition plain_long : track :=
  mk_track false (Some "long.wav"%string) (Some 100%R) (Some 0%R) false.

Definition plain_short : track :=
  mk_track false (Some "short.wav"%string) (Some 100%R) (Some 0%R) false.

Definition solo_long : track :=
  mk_track false (Some "long.wav"%string) (Some 100%R) (Some 0%R) true.

Definition short_entry : track_data :=
  mk_track_data short_audio 22050 (100 / 100)%R 0%R true.

Definition long_entry : track_data :=
  mk_track_data long_audio 44100 (100 / 100)%R 0%R false.

Definition plain_short_entry : track_data :=
  mk_track_data short_audio 22050 (100 / 100)%R 0%R false.

Definition solo_long_entry : track_data :=
  mk_track_data long_audio 44100 (100 / 100)%R 0%R true.



(** Two outcomes of the random generator. *)
Definition noise_flat : nat -> R := fun _ => (1 / 2)%R.

End Session.

(* ------------------------------------------------------------------ *)
(** ** [ExportService]: the callers of the audio service *)

Module ExportService.

(** A Python [str], as its code points. *)
Definition str : Type := list N.

(** The code points of an ASCII literal. *)
Definition codes (s : string) : str :=
  map N_of_ascii (list_ascii_of_string s).

(** The characters that [_sanitize_filename] replaces:
    [<], [>], [:], the double quote, [/], [\], [|], [?] and [*]. *)
Definition invalid_chars : list N := [60; 62; 58; 34; 47; 92; 124; 63; 42]%N.

Definition underscore : N := 95%N.

(** [s.replace(old, new)] for two single characters. *)
Definition replace_char (old new : N) (s : str) : str :=
  map (fun c => if (c =? old)%N then new else c) s.

(** The characters that [str.strip()] removes: those with [str.isspace]. *)
Definition is_space (c : N) : bool :=
  ((9 <=? c) && (c <=? 13) || (28 <=? c) && (c <=? 32)
   || (c =? 133) || (c =? 160) || (c =? 5760)
   || (8192 <=? c) && (c <=? 8202)
   || (c =? 8232) || (c =? 8233) || (c =? 8239) || (c =? 8287)
   || (c =? 12288))%N.

Fixpoint lstrip (s : str) : str :=
  match s with
  | c :: s' => if is_space c then lstrip s' else s
  | [] => []
  end.

Definition strip (s : str) : str := rev (lstrip (rev (lstrip s))).

Definition _sanitize_filename (filename : str) : str :=
  let filename :=
    fold_left (fun name char => replace_char char underscore name)
              invalid_chars filename in
  let filename :=
    if (64 <? length filename)%nat
    then firstn 60 filename ++ codes "..."
    else filename in
  match strip filename with
  | [] => codes "untitled"
  | _ :: _ => filename
  end.

(** The exceptions of the export code: those of the audio service, and the
    [NameError] of a name that the module never imports. *)
Inductive error : Type :=
| AudioError (e : exn)
| NameError (msg : string).

Inductive attempt (A : Type) : Type :=
| Done (a : A)
| Failed (e : error).
Arguments Done {A} a.
Arguments Failed {A} e.

(** The pan gains of the stem export, [max(0, 1 -/+ pan) ** 0.5]. *)
Definition stem_pan_left (pan : R) : R := sqrt (Rmax 0 (1 - pan)).
Definition stem_pan_right (pan : R) : R := sqrt (Rmax 0 (1 + pan)).

(** The volume and pan step that [export_project_as_stems] applies to the
    audio of one track.  The module does not import numpy, so the branch for
    a panned mono track stops at its reference to [np]. *)
Definition stem_audio (t : track) (audio_data : ndarray) : attempt ndarray :=
  match volume t, pan t with
  | None, None => Done audio_data
  | _, _ =>
      let audio_data :=
        match volume t with
        | Some v => scale audio_data (v / 100)
        | None => audio_data
        end in
      match pan t with
      | Some p =>
          if Req_dec_T p 0 then Done audio_data
          else
            let pan := (p / 100)%R in
            match audio_data with
            | Stereo s =>
                Done (Stereo (channel_gains (stem_pan_left pan)
                                            (stem_pan_right pan) s))
            | Mono _ => Failed (NameError "name 'np' is not defined")
            end
      | None => Done audio_data
      end
  end.

(** A file that [soundfile.write] has stored. *)
Record sound_file : Type := mk_sound_file {
  sf_audio : ndarray;
  sf_rate : Z;
  sf_format : string
}.

(** The files written so far, the most recent first. *)
Definition disk : Type := list (string * sound_file).







End ExportService.

(* ------------------------------------------------------------------ *)
(** ** Vocabulary of the further properties *)

(** A track that the first loop of [mix_tracks] reads: not muted, with a
    path that is not empty and exists. *)
Definition audible (fs : filesystem) (t : track) : bool :=
  negb (muted t)
  && match file_path t with
     | Some p => negb (p =? "")%string && path_exists fs p
     | None => false
     end.

(** The track with its volume multiplied by [c]; an absent volume is 100. *)
Definition with_volume_scaled (c : R) (t : track) : track :=
  mk_track (muted t) (file_path t)
           (Some (c * match volume t with Some v => v | None => 100 end)%R)
           (pan t) (solo t).


(** The stored entry of a track whose volume was multiplied by [c]. *)
Definition entry_volume_scaled (c : R) (td : track_data) : track_data :=
  mk_track_data (td_audio td) (td_sample_rate td) (c * td_volume td)%R
                (td_pan td) (td_solo td).

(** What [mix_tracks] computes, before the final normalisation, from the
    entries that its first loop has stored. *)
Definition mix_entries (tds : list track_data) : result (list (R * R) * Z) :=
  match tds with
  | [] => Raise no_valid_tracks
  | _ :: _ =>
      let rate := fold_left maxZ (map td_sample_rate tds) 0 in
      let seconds := fold_left maxQ (map duration tds) 0%Q in
      let output_length := int (seconds * inject_Z rate) in
      mixed_audio <- zeros2 output_length ;;
      mixed_audio <- second_pass (existsb td_solo tds) rate
                       (Z.to_nat output_length) tds mixed_audio ;;
      Ok (mixed_audio, rate)
  end.

(** The level of every frame as [trim_silence] measures it,
    [np.abs(mono_audio)]. *)
Definition frame_levels (a : ndarray) : list R := map Rabs (mono_mean a).

(** Frame [i] of the buffer is above the silence threshold. *)
Definition loud (threshold : R) (a : ndarray) (i : nat) : Prop :=
  (i < len a)%nat /\ (nth i (frame_levels a) 0 > threshold)%R.

(** Sample [y] is sample [x] turned down: multiplied by a gain between 0
    and 1. *)
Definition attenuated (x y : R) : Prop :=
  exists g, (0 <= g <= 1)%R /\ y = (x * g)%R.

(** A band filter of the EQ on a channel of ten samples or more: it returns
    a channel of the same length, the channel itself at a gain of 1. *)
Definition band_sound (filter : list R -> R -> result (list R)) : Prop :=
  forall audio gain,
    (10 <= length audio)%nat ->
    exists out, filter audio gain = Ok out
                /\ length out = length audio
                /\ (gain = 1%R -> out = audio).

(** A band filter on a channel of less than ten samples, one sample apart. *)
Definition band_short (filter : list R -> R -> result (list R)) : Prop :=
  forall audio gain,
    (length audio < 10)%nat -> length audio <> 1%nat ->
    exists msg, filter audio gain = Raise (ValueError msg).

(** An assignment of the EQ that accepts a filtered channel of the length of
    the channel. *)
Definition keeps_length (store : list R -> list R -> result (list R)) : Prop :=
  forall channel filtered,
    length filtered = length channel -> store channel filtered = Ok filtered.

(** An EQ band that is absent or set to 0 dB. *)
Definition flat (band : option R) : Prop := band = None \/ band = Some 0%R.

(** The state of the first loop of [mix_tracks] when every track has its
    volume multiplied by [c]. *)
Definition pass1_volume_scaled (c : R) (st : pass1) : pass1 :=
  mk_pass1 (max_sample_rate st) (max_length st)
           (map (entry_volume_scaled c) (track_audio_data st)).

(* ------------------------------------------------------------------ *)
(** ** Arithmetic of [int] and of true division *)

Section IntArithmetic.

Lemma int_inject_Z (z : Z) : int (inject_Z z) = z.
Proof. unfold int; simpl. apply Z.quot_1_r. Qed.

(** [int(n * (t / f))] for a positive divisor is the truncated quotient. *)
Lemma int_mul_div (n t f : Z) :
  0 < f -> int (inject_Z n * (inject_Z t / inject_Z f)) = Z.quot (n * t) f.
Proof.
  intros Hf. destruct f as [|p|p]; try lia.
  unfold int, Qdiv, Qmult, Qinv, inject_Z; simpl.
  now rewrite Z.mul_1_r.
Qed.

Lemma int_mul_div_nonneg (n t f : Z) :
  0 <= n -> 0 <= t -> 0 < f ->
  int (inject_Z n * (inject_Z t / inject_Z f)) = (n * t) / f.
Proof.
  intros Hn Ht Hf. rewrite int_mul_div by assumption.
  apply Z.quot_div_nonneg; nia.
Qed.

Lemma truediv_ok (a b : Z) :
  b <> 0 -> truediv a b = Ok (inject_Z a / inject_Z b)%Q.
Proof.
  intros Hb. unfold truediv.
  destruct (Z.eqb_spec b 0); [contradiction | reflexivity].
Qed.

End IntArithmetic.

(* ------------------------------------------------------------------ *)
(** ** Resampling *)

Section Resampling.

Lemma int_mul_div_any (n t f : Z) :
  f <> 0 -> int (inject_Z n * (inject_Z t / inject_Z f)) = Z.quot (n * t) f.
Proof.
  intros Hf. destruct f as [|p|p]; try lia.
  - apply int_mul_div; lia.
  - unfold int, Qdiv, Qmult, Qinv, inject_Z; simpl.
    change (Z.neg p) with (- Z.pos p).
    rewrite Z.quot_opp_r, <- Z.quot_opp_l by lia.
    f_equal. ring.
Qed.

Lemma linspace_ok (start stop : R) (num : Z) :
  0 <= num ->
  exists l, linspace start stop num = Ok l /\ length l = Z.to_nat num.
Proof.
  intros Hn. unfold linspace.
  destruct (Z.ltb_spec num 0); [lia|].
  eexists; split; [reflexivity|].
  now rewrite length_map, length_seq.
Qed.

Lemma linspace_negative (start stop : R) (num : Z) :
  num < 0 -> exists msg, linspace start stop num = Raise (ValueError msg).
Proof.
  intros Hn. unfold linspace.
  destruct (Z.ltb_spec num 0); [|lia]. eexists; reflexivity.
Qed.

Lemma arange_length (n : nat) : length (arange n) = n.
Proof. unfold arange. now rewrite length_map, length_seq. Qed.

Lemma resample_channel_ok (channel : list R) (n : Z) :
  channel <> [] -> 0 <= n ->
  exists l, resample_channel channel n = Ok l /\ length l = Z.to_nat n.
Proof.
  intros Hne Hn. unfold resample_channel.
  destruct (linspace_ok 0 (INR (length channel) - 1) n Hn) as [g [Hg Hlen]].
  rewrite Hg; simpl. unfold interp.
  destruct channel as [|x channel]; [contradiction|].
  rewrite arange_length.
  change (length (x :: channel)) with (S (length channel)).
  rewrite Nat.eqb_refl. unfold arange. cbn [seq map].
  eexists; split; [reflexivity|]. now rewrite length_map.
Qed.

Lemma resample_channel_raises (channel : list R) (n : Z) :
  channel = [] \/ n < 0 ->
  exists msg, resample_channel channel n = Raise (ValueError msg).
Proof.
  intros H. unfold resample_channel.
  destruct (Z.ltb_spec n 0) as [Hn|Hn].
  - destruct (linspace_negative 0 (INR (length channel) - 1) n Hn) as [msg Hm].
    rewrite Hm. eexists; reflexivity.
  - destruct H as [-> | H]; [|lia].
    destruct (linspace_ok 0 (INR (@length R []) - 1) n Hn) as [g [Hg _]].
    rewrite Hg. eexists; reflexivity.
Qed.

(** The general behaviour of [resample_audio] for two different rates. *)
Lemma resample_audio_cases (a : ndarray) (f t : Z) :
  f <> 0 -> f <> t ->
  let n := Z.quot (Z.of_nat (len a) * t) f in
  if (n <? 0) || (len a =? 0)%nat
  then exists msg, resample_audio a f t = Raise (ValueError msg)
  else exists r, resample_audio a f t = Ok r
                 /\ Z.of_nat (len r) = n
                 /\ (forall s, a = Mono s -> exists s', r = Mono s')
                 /\ (forall s, a = Stereo s -> exists s', r = Stereo s').
Proof.
  intros Hf Hft n. unfold resample_audio.
  destruct (Z.eqb_spec f t); [contradiction|].
  rewrite truediv_ok by assumption. cbn [bind].
  rewrite int_mul_div_any by assumption. fold n.
  destruct (Z.ltb_spec n 0) as [Hn|Hn]; cbn [orb].
  - destruct a as [s|s].
    + destruct (resample_channel_raises s n (or_intror Hn)) as [msg Hm].
      rewrite Hm. eexists; reflexivity.
    + unfold zeros2. destruct (Z.ltb_spec n 0); [|lia]. eexists; reflexivity.
  - destruct (Nat.eqb_spec (len a) 0) as [He|He].
    + destruct a as [s|s]; simpl in He.
      * destruct (resample_channel_raises s n) as [msg Hm].
        { left. now apply length_zero_iff_nil. }
        rewrite Hm. eexists; reflexivity.
      * unfold zeros2. destruct (Z.ltb_spec n 0); [lia|]. cbn [bind].
        destruct (resample_channel_raises (map fst s) n) as [msg Hm].
        { left. apply length_zero_iff_nil. now rewrite length_map. }
        rewrite Hm. eexists; reflexivity.
    + destruct a as [s|s]; simpl in He.
      * destruct (resample_channel_ok s n) as [l [Hl Hlen]]; [|assumption|].
        { intros ->. now apply He. }
        rewrite Hl. cbn [bind]. eexists; split; [reflexivity|].
        split; [simpl; lia|]. split; intros s0 E; [eauto | discriminate].
      * unfold zeros2. destruct (Z.ltb_spec n 0); [lia|]. cbn [bind].
        destruct (resample_channel_ok (map fst s) n) as [l0 [Hl0 Hlen0]];
          [|assumption|].
        { intros E. apply He. apply (f_equal (@length R)) in E.
          now rewrite length_map in E. }
        destruct (resample_channel_ok (map snd s) n) as [l1 [Hl1 Hlen1]];
          [|assumption|].
        { intros E. apply He. apply (f_equal (@length R)) in E.
          now rewrite length_map in E. }
        rewrite Hl0, Hl1. cbn [bind]. eexists; split; [reflexivity|].
        split.
        { simpl. rewrite length_combine, Hlen0, Hlen1. lia. }
        split; intros s0 E; [discriminate | eauto].
Qed.

End Resampling.







(* ------------------------------------------------------------------ *)
(** ** Peak normalisation *)

Section Normalisation.

Lemma fold_Rmax_ge_init (l : list R) (x : R) : (x <= fold_left Rmax l x)%R.
Proof.
  revert x. induction l as [|y l IH]; intros x; simpl.
  - lra.
  - eapply Rle_trans; [apply Rmax_l | apply IH].
Qed.

Lemma fold_Rmax_upper (l : list R) (x y : R) :
  In y l -> (y <= fold_left Rmax l x)%R.
Proof.
  revert x. induction l as [|z l IH]; intros x Hin; simpl in *.
  - contradiction.
  - destruct Hin as [-> | Hin].
    + eapply Rle_trans; [apply Rmax_r | apply fold_Rmax_ge_init].
    + now apply IH.
Qed.

Lemma fold_Rmax_scale (l : list R) (x g : R) :
  (0 <= g)%R ->
  fold_left Rmax (map (fun y => y * g)%R l) (x * g)%R
  = (fold_left Rmax l x * g)%R.
Proof.
  intros Hg. revert x. induction l as [|y l IH]; intros x; simpl.
  - reflexivity.
  - rewrite <- IH. f_equal.
    rewrite (Rmult_comm x g), (Rmult_comm y g), (Rmult_comm (Rmax x y) g).
    now apply RmaxRmult.
Qed.

Lemma amax_upper (l : list R) (m y : R) :
  amax l = Ok m -> In y l -> (y <= m)%R.
Proof.
  destruct l as [|x l]; simpl; [discriminate|].
  intros [= <-] [-> | Hin].
  - apply fold_Rmax_ge_init.
  - now apply fold_Rmax_upper.
Qed.

Lemma amax_abs_nonneg (l : list R) (m : R) :
  amax (map Rabs l) = Ok m -> (0 <= m)%R.
Proof.
  destruct l as [|x l]; simpl; [discriminate|].
  intros [= <-].
  eapply Rle_trans; [apply Rabs_pos | apply fold_Rmax_ge_init].
Qed.

Lemma samples_scale (a : ndarray) (g : R) :
  samples (scale a g) = map (fun y => y * g)%R (samples a).
Proof.
  destruct a as [s|s]; simpl; [reflexivity|].
  induction s as [|[l r] s IH]; simpl; [reflexivity|].
  now rewrite IH.
Qed.

Lemma abs_peak_scale (a : ndarray) (g p : R) :
  (0 <= g)%R -> abs_peak a = Ok p -> abs_peak (scale a g) = Ok (p * g)%R.
Proof.
  intros Hg. unfold abs_peak. rewrite samples_scale, map_map.
  destruct (samples a) as [|x l]; simpl; [discriminate|].
  intros [= <-]. f_equal.
  rewrite <- fold_Rmax_scale by assumption.
  rewrite Rabs_mult, (Rabs_pos_eq g) by assumption.
  f_equal. rewrite map_map. apply map_ext.
  intros y. now rewrite Rabs_mult, (Rabs_pos_eq g).
Qed.

Lemma Rpower_10_pos (x : R) : (0 < Rpower 10 x)%R.
Proof. unfold Rpower. apply exp_pos. Qed.

Lemma len_scale (a : ndarray) (g : R) : len (scale a g) = len a.
Proof. destruct a; simpl; now rewrite length_map. Qed.

(** Normalising a non-empty buffer always returns a buffer of its length. *)
Lemma normalize_audio_total (a : ndarray) (target_db : R) :
  (0 < len a)%nat ->
  exists r, normalize_audio a target_db = Ok r /\ len r = len a
            /\ (forall s, a = Stereo s -> exists s', r = Stereo s').
Proof.
  intros Hlen. unfold normalize_audio, abs_peak.
  destruct (samples a) as [|x l] eqn:Hs.
  - destruct a as [[|y s]|[|[y z] s]]; simpl in *; try lia; discriminate.
  - cbn [map amax bind].
    destruct (Req_dec_T _ 0).
    + eexists; split; [reflexivity|]. split; [reflexivity|eauto].
    + eexists; split; [reflexivity|]. split; [apply len_scale|].
      intros s ->. simpl. eauto.
Qed.

End Normalisation.



(* ------------------------------------------------------------------ *)
(** ** The mixer: first pass *)

Section FirstPass.

Variable fs : filesystem.

Lemma first_pass_all_muted (tracks : list track) (st : pass1) :
  Forall (fun t => muted t = true) tracks ->
  first_pass fs tracks st = Ok st.
Proof.
  induction 1 as [|t rest Hm _ IH]; simpl.
  - reflexivity.
  - now rewrite Hm.
Qed.

End FirstPass.

(** C7: when every track of a non-empty list is muted, [mix_tracks] raises
    the error "No valid tracks to mix" and returns no buffer. *)
Theorem mix_tracks_all_muted (fs : filesystem) (tracks : list track) :
  tracks <> [] ->
  Forall (fun t => muted t = true) tracks ->
  mix_tracks fs tracks = Raise no_valid_tracks.
Proof.
  intros Hne Hall. unfold mix_tracks, mix_accumulate.
  destruct tracks as [|t rest]; [contradiction|].
  now rewrite (first_pass_all_muted fs (t :: rest) pass1_init Hall).
Qed.

Lemma mix_tracks_all_muted_witness :
  let fs := mk_filesystem (fun _ => true) (fun _ => Ok (Mono [1%R], 44100)) in
  let tracks := [mk_track true (Some "a.wav"%string) None None false;
                 mk_track true (Some "b.wav"%string) None None true] in
  (tracks <> [] /\ Forall (fun t => muted t = true) tracks)
  /\ mix_tracks fs tracks = Raise no_valid_tracks.
Proof.
  intros fs tracks.
  assert (Hne : tracks <> []) by discriminate.
  assert (Hall : Forall (fun t => muted t = true) tracks)
    by (repeat constructor).
  split; [split; assumption|].
  exact (mix_tracks_all_muted fs tracks Hne Hall).
Defined.

(* ------------------------------------------------------------------ *)
(** ** Running maxima of the first pass *)

Section RunningMaxima.

Lemma fold_maxZ_ge_init (l : list Z) (a : Z) : a <= fold_left maxZ l a.
Proof.
  revert a. induction l as [|x l IH]; intros a; simpl; [lia|].
  specialize (IH (maxZ a x)). unfold maxZ in *.
  destruct (Z.ltb_spec a x); lia.
Qed.

Lemma fold_maxZ_upper (l : list Z) (a x : Z) :
  In x l -> x <= fold_left maxZ l a.
Proof.
  revert a. induction l as [|y l IH]; intros a Hin; simpl in *; [contradiction|].
  destruct Hin as [-> | Hin]; [|now apply IH].
  pose proof (fold_maxZ_ge_init l (maxZ a x)) as H. unfold maxZ in *.
  destruct (Z.ltb_spec a x); lia.
Qed.

Lemma fold_maxZ_attained (l : list Z) (a : Z) :
  fold_left maxZ l a = a \/ In (fold_left maxZ l a) l.
Proof.
  revert a. induction l as [|x l IH]; intros a; simpl; [now left|].
  destruct (IH (maxZ a x)) as [H | H]; [|now right; right].
  rewrite H. unfold maxZ. destruct (a <? x); [right; now left | now left].
Qed.

Lemma maxQ_cases (a b : Q) :
  (maxQ a b = a /\ (b <= a)%Q) \/ (maxQ a b = b /\ (a < b)%Q).
Proof. unfold maxQ. destruct (Qlt_le_dec a b); [right | left]; now split. Qed.

Lemma fold_maxQ_ge_init (l : list Q) (a : Q) : (a <= fold_left maxQ l a)%Q.
Proof.
  revert a. induction l as [|x l IH]; intros a; simpl; [apply Qle_refl|].
  eapply Qle_trans; [|apply IH].
  destruct (maxQ_cases a x) as [[-> _] | [-> H]];
    [apply Qle_refl | now apply Qlt_le_weak].
Qed.

Lemma fold_maxQ_upper (l : list Q) (a x : Q) :
  In x l -> (x <= fold_left maxQ l a)%Q.
Proof.
  revert a. induction l as [|y l IH]; intros a Hin; simpl in *; [contradiction|].
  destruct Hin as [-> | Hin]; [|now apply IH].
  eapply Qle_trans; [|apply fold_maxQ_ge_init].
  destruct (maxQ_cases a x) as [[-> H] | [-> _]];
    [assumption | apply Qle_refl].
Qed.


(** On non-negative values [int] is the floor, so it respects [==]. *)
Lemma int_Qfloor (q : Q) : (0 <= q)%Q -> int q = Qfloor q.
Proof.
  destruct q as [n d]. unfold Qle, int, Qfloor; simpl.
  intros H. apply Z.quot_div_nonneg; lia.
Qed.

Lemma int_Qeq (q q' : Q) : (0 <= q)%Q -> (q == q')%Q -> int q = int q'.
Proof.
  intros H E. rewrite !int_Qfloor; [now rewrite E | now rewrite <- E | assumption].
Qed.

Lemma int_mono (q q' : Q) : (0 <= q)%Q -> (q <= q')%Q -> int q <= int q'.
Proof.
  intros H L. rewrite !int_Qfloor; [|eapply Qle_trans; eassumption|assumption].
  now apply Qfloor_resp_le.
Qed.

End RunningMaxima.

(* ------------------------------------------------------------------ *)
(** ** The mixer: both passes *)

Section Mixer.

Variable fs : filesystem.

Lemma first_pass_survivors (tracks : list track) (tds : list track_data) :
  survivors fs tracks tds ->
  forall st,
    first_pass fs tracks st
    = Ok (mk_pass1
            (fold_left maxZ (map td_sample_rate tds) (max_sample_rate st))
            (fold_left maxQ (map duration tds) (max_length st))
            (track_audio_data st ++ tds)).
Proof.
  induction 1 as [|t rest tds Hskip _ IH|t rest td tds Hload _ IH]; intros st.
  - destruct st; simpl. now rewrite app_nil_r.
  - simpl. destruct Hskip as [Hm | [Hp | [p [Hp Hq]]]].
    + now rewrite Hm.
    + rewrite Hp. now destruct (muted t).
    + rewrite Hp. destruct (muted t); [apply IH|].
      destruct Hq as [-> | ->]; [apply IH|].
      rewrite orb_true_r. apply IH.
  - destruct Hload as [Hm [[p [Hp [Hne [Hex Hrd]]]] [Hr [Hv [Hpan Hs]]]]].
    simpl. rewrite Hm, Hp, Hne, Hex. cbn [orb negb].
    unfold read_audio_file. rewrite Hrd. cbn [bind].
    rewrite truediv_ok by assumption. cbn [bind].
    rewrite IH. cbn [max_sample_rate max_length track_audio_data].
    rewrite <- app_assoc. cbn [app].
    destruct td as [a r v pn so]; simpl in *. subst v pn so.
    reflexivity.
Qed.

Lemma survivors_nonempty (tracks : list track) (tds : list track_data) :
  survivors fs tracks tds -> tds <> [] -> tracks <> [].
Proof. intros H Hne ->. inversion H; subst. now apply Hne. Qed.

Lemma add_frames_length (mixed audio : list (R * R)) :
  length (add_frames mixed audio) = length mixed.
Proof.
  revert audio. induction mixed as [|[l r] m IH]; intros [|[l' r'] a]; simpl;
    try reflexivity.
  now rewrite IH.
Qed.

Lemma fit_length_length (n : nat) (audio : list (R * R)) :
  length (fit_length n audio) = n.
Proof.
  unfold fit_length.
  destruct (Nat.ltb_spec (length audio) n).
  - rewrite length_app, repeat_length. lia.
  - destruct (Nat.ltb_spec n (length audio)).
    + rewrite length_firstn. lia.
    + lia.
Qed.

Lemma track_contribution_ok (max_sr : Z) (n : nat) (td : track_data) :
  0 < td_sample_rate td <= max_sr ->
  (0 < len (td_audio td))%nat ->
  exists c, track_contribution max_sr n td = Ok c /\ length c = n.
Proof.
  intros Hr Hlen. unfold track_contribution.
  destruct (Z.eqb_spec (td_sample_rate td) max_sr) as [E|E].
  - cbn [bind]. eexists; split; [reflexivity | apply fit_length_length].
  - pose proof (resample_audio_cases (td_audio td) (td_sample_rate td) max_sr)
      as H.
    cbv zeta in H.
    rewrite Z.quot_div_nonneg in H by nia.
    assert (0 <= Z.of_nat (len (td_audio td)) * max_sr / td_sample_rate td)
      by (apply Z.div_pos; nia).
    destruct (Z.ltb_spec
                (Z.of_nat (len (td_audio td)) * max_sr / td_sample_rate td) 0);
      [lia|].
    destruct (Nat.eqb_spec (len (td_audio td)) 0); [lia|].
    destruct H as [r [Hres _]]; [lia | assumption |].
    rewrite Hres. cbn [bind].
    eexists; split; [reflexivity | apply fit_length_length].
Qed.

(** With a solo active, the second loop sees the soloed tracks only. *)
Lemma second_pass_solo_filter (max_sr : Z) (n : nat) (tds : list track_data) :
  forall mixed,
    second_pass true max_sr n tds mixed
    = second_pass false max_sr n (filter td_solo tds) mixed.
Proof.
  induction tds as [|td tds IH]; intros mixed; simpl; [reflexivity|].
  destruct (td_solo td); simpl.
  - destruct (track_contribution max_sr n td); simpl; [apply IH | reflexivity].
  - apply IH.
Qed.

Lemma second_pass_contributing (max_sr : Z) (n : nat) (tds : list track_data)
      (mixed : list (R * R)) :
  second_pass (existsb td_solo tds) max_sr n tds mixed
  = second_pass false max_sr n (contributing tds) mixed.
Proof.
  unfold contributing. destruct (existsb td_solo tds); [|reflexivity].
  apply second_pass_solo_filter.
Qed.

Lemma second_pass_ok (max_sr : Z) (n : nat) (tds : list track_data) :
  (forall td, In td tds ->
              exists c, track_contribution max_sr n td = Ok c) ->
  forall mixed,
  exists out, second_pass false max_sr n tds mixed = Ok out
              /\ length out = length mixed.
Proof.
  induction tds as [|td tds IH]; intros Hc mixed; simpl.
  - eauto.
  - destruct (Hc td (or_introl eq_refl)) as [c Hcd]. rewrite Hcd. cbn [bind].
    destruct (IH (fun td' H => Hc td' (or_intror H)) (add_frames mixed c))
      as [out [Ho Hl]].
    exists out. split; [assumption|]. now rewrite Hl, add_frames_length.
Qed.

Lemma contributing_incl (tds : list track_data) (td : track_data) :
  In td (contributing tds) -> In td tds.
Proof.
  unfold contributing. destruct (existsb td_solo tds); [|auto].
  intros H. now apply filter_In in H.
Qed.

End Mixer.

Section MixResult.

Variable fs : filesystem.


Lemma duration_times_rate (td : track_data) :
  0 < td_sample_rate td ->
  (duration td * inject_Z (td_sample_rate td)
   == inject_Z (Z.of_nat (len (td_audio td))))%Q.
Proof.
  unfold duration. destruct (td_sample_rate td) as [|p|p]; try lia.
  intros _. unfold Qeq, Qdiv, Qmult, Qinv, inject_Z; simpl. lia.
Qed.

Lemma max_rate_is_max (tds : list track_data) :
  tds <> [] ->
  (forall td, In td tds -> 0 < td_sample_rate td) ->
  is_max_rate (fold_left maxZ (map td_sample_rate tds) 0) tds.
Proof.
  intros Hne Hpos. split.
  - intros td Hin. apply fold_maxZ_upper. now apply in_map.
  - destruct (fold_maxZ_attained (map td_sample_rate tds) 0) as [H | H].
    + destruct tds as [|td tds]; [contradiction|].
      pose proof (Hpos td (or_introl eq_refl)).
      pose proof (fold_maxZ_upper (map td_sample_rate (td :: tds)) 0
                                  (td_sample_rate td) (or_introl eq_refl)).
      lia.
    + apply in_map_iff in H. destruct H as [td [E Hin]]. eauto.
Qed.


Lemma max_duration_nonneg (l : list Q) : (0 <= fold_left maxQ l 0%Q)%Q.
Proof. apply fold_maxQ_ge_init. Qed.

(** The output has at least as many frames as a track at the output rate. *)
Lemma output_length_ge (tds : list track_data) (td : track_data) :
  In td tds ->
  0 < td_sample_rate td ->
  td_sample_rate td = fold_left maxZ (map td_sample_rate tds) 0 ->
  Z.of_nat (len (td_audio td))
  <= int (fold_left maxQ (map duration tds) 0%Q
          * inject_Z (fold_left maxZ (map td_sample_rate tds) 0)).
Proof.
  intros Hin Hpos E. rewrite <- E.
  rewrite <- (int_inject_Z (Z.of_nat (len (td_audio td)))).
  apply int_mono.
  - change 0%Q with (inject_Z 0). rewrite <- Zle_Qle. lia.
  - rewrite <- duration_times_rate by assumption.
    apply Qmult_le_compat_r.
    + apply fold_maxQ_upper. now apply in_map.
    + change 0%Q with (inject_Z 0). rewrite <- Zle_Qle. lia.
Qed.

(** What the two passes compute for a list of readable, non-empty tracks. *)
Lemma mix_accumulate_survivors (tracks : list track) (tds : list track_data) :
  survivors fs tracks tds ->
  tds <> [] ->
  (forall td, In td tds ->
              0 < td_sample_rate td /\ (0 < len (td_audio td))%nat) ->
  let rate := fold_left maxZ (map td_sample_rate tds) 0 in
  let seconds := fold_left maxQ (map duration tds) 0%Q in
  let n := Z.to_nat (int (seconds * inject_Z rate)) in
  exists out,
    mix_accumulate fs tracks = Ok (out, rate)
    /\ second_pass false rate n (contributing tds) (repeat (0, 0)%R n) = Ok out
    /\ length out = n
    /\ (0 < n)%nat.
Proof.
  intros Hs Hne Hpos rate seconds n.
  assert (Hrates : forall td, In td tds -> 0 < td_sample_rate td)
    by (intros td H; now apply Hpos).
  destruct (max_rate_is_max tds Hne Hrates) as [Hub [tdm [Hinm Hm]]].
  fold rate in Hub, Hm.
  assert (Hn : 0 < int (seconds * inject_Z rate)).
  { pose proof (output_length_ge tds tdm Hinm (Hrates _ Hinm) Hm) as H.
    destruct (Hpos tdm Hinm) as [_ Hl]. fold rate seconds in H. lia. }
  destruct (second_pass_ok rate n (contributing tds)) with
    (mixed := repeat (0, 0)%R n) as [out [Hout Hlen]].
  { intros td Hin. apply contributing_incl in Hin.
    destruct (Hpos td Hin) as [Hr Hl].
    destruct (track_contribution_ok rate n td) as [c [Hc _]];
      [split; [assumption | now apply Hub] | assumption | eauto]. }
  exists out. rewrite repeat_length in Hlen.
  split; [|split; [assumption | split; [assumption | lia]]].
  unfold mix_accumulate.
  pose proof (survivors_nonempty fs tracks tds Hs Hne) as Htr.
  destruct tracks as [|t rest]; [contradiction|].
  rewrite (first_pass_survivors fs (t :: rest) tds Hs pass1_init).
  cbn [bind pass1_init max_sample_rate max_length track_audio_data app].
  destruct tds as [|td0 tds0]; [contradiction|].
  fold rate seconds. unfold zeros2.
  destruct (Z.ltb_spec (int (seconds * inject_Z rate)) 0); [lia|].
  cbn [bind]. fold n.
  rewrite second_pass_contributing, Hout. reflexivity.
Qed.

End MixResult.

Section MixTracks.

Variable fs : filesystem.

(** [mix_tracks] on readable, non-empty tracks returns a stereo buffer. *)
Lemma mix_tracks_survivors (tracks : list track) (tds : list track_data) :
  survivors fs tracks tds ->
  tds <> [] ->
  (forall td, In td tds ->
              0 < td_sample_rate td /\ (0 < len (td_audio td))%nat) ->
  let rate := fold_left maxZ (map td_sample_rate tds) 0 in
  let seconds := fold_left maxQ (map duration tds) 0%Q in
  exists buf,
    mix_tracks fs tracks = Ok (buf, rate)
    /\ Z.of_nat (len buf) = int (seconds * inject_Z rate).
Proof.
  intros Hs Hne Hpos rate seconds.
  destruct (mix_accumulate_survivors fs tracks tds Hs Hne Hpos)
    as [out [Hacc [_ [Hlen Hn]]]].
  fold rate seconds in Hacc, Hlen, Hn.
  unfold mix_tracks. rewrite Hacc. cbn [bind].
  destruct (normalize_audio_total (Stereo out) default_target_db)
    as [r [Hr [Hl _]]].
  { simpl. lia. }
  rewrite Hr. cbn [bind]. exists r. split; [reflexivity|].
  rewrite Hl. simpl. rewrite Hlen. lia.
Qed.

End MixTracks.


(* ------------------------------------------------------------------ *)
(** ** A session with a soloed short track and a longer track *)

Section SessionFacts.

Import Session.

Lemma len_short_audio : Z.of_nat (len short_audio) = 22050.
Proof.
  unfold short_audio, len. rewrite repeat_length. now rewrite Z2Nat.id.
Qed.

Lemma len_long_audio : Z.of_nat (len long_audio) = 88200.
Proof.
  unfold long_audio, len. rewrite repeat_length. now rewrite Z2Nat.id.
Qed.

Lemma duration_short_entry :
  duration short_entry = (inject_Z 22050 / inject_Z 22050)%Q.
Proof.
  unfold duration. cbn [short_entry td_audio td_sample_rate].
  now rewrite len_short_audio.
Qed.

Lemma duration_long_entry :
  duration long_entry = (inject_Z 88200 / inject_Z 44100)%Q.
Proof.
  unfold duration. cbn [long_entry td_audio td_sample_rate].
  now rewrite len_long_audio.
Qed.

Lemma loads_solo_short : loads disk solo_short short_entry.
Proof.
  unfold loads. split; [reflexivity|]. split.
  - exists "short.wav"%string. repeat split; reflexivity.
  - repeat split; try reflexivity. discriminate.
Qed.

Lemma loads_plain_long : loads disk plain_long long_entry.
Proof.
  unfold loads. split; [reflexivity|]. split.
  - exists "long.wav"%string. repeat split; reflexivity.
  - repeat split; try reflexivity. discriminate.
Qed.

Lemma entries_sound (td : track_data) :
  In td [short_entry; long_entry; long_entry] ->
  0 < td_sample_rate td /\ (0 < len (td_audio td))%nat.
Proof.
  intros [<- | [<- | [<- | []]]];
    (split; [reflexivity|]);
    cbn [short_entry long_entry td_audio];
    [pose proof len_short_audio | pose proof len_long_audio
     | pose proof len_long_audio]; lia.
Qed.

Lemma survivors_short_long :
  survivors disk [solo_short; plain_long] [short_entry; long_entry].
Proof.
  apply survivors_read; [apply loads_solo_short|].
  apply survivors_read; [apply loads_plain_long|].
  apply survivors_nil.
Qed.

Lemma survivors_short_long_long :
  survivors disk [solo_short; plain_long; plain_long]
            [short_entry; long_entry; long_entry].
Proof.
  apply survivors_read; [apply loads_solo_short|].
  apply survivors_read; [apply loads_plain_long|].
  apply survivors_read; [apply loads_plain_long|].
  apply survivors_nil.
Qed.

Lemma survivors_short : survivors disk [solo_short] [short_entry].
Proof.
  apply survivors_read; [apply loads_solo_short | apply survivors_nil].
Qed.

(** The mix of the soloed short track and the long track: 44100 Hz, two
    seconds. *)
Lemma mix_short_long :
  exists buf, mix_tracks disk [solo_short; plain_long] = Ok (buf, 44100)
              /\ Z.of_nat (len buf) = 88200.
Proof.
  destruct (mix_tracks_survivors disk _ _ survivors_short_long)
    as [buf [Hm Hl]].
  - discriminate.
  - intros td Hin. apply entries_sound.
    destruct Hin as [<- | [<- | []]]; [left | right; left]; reflexivity.
  - exists buf. split; [exact Hm|]. rewrite Hl.
    cbn [map fold_left]. rewrite duration_short_entry, duration_long_entry.
    reflexivity.
Qed.

Lemma mix_short_long_long :
  exists buf,
    mix_tracks disk [solo_short; plain_long; plain_long] = Ok (buf, 44100)
    /\ Z.of_nat (len buf) = 88200.
Proof.
  destruct (mix_tracks_survivors disk _ _ survivors_short_long_long)
    as [buf [Hm Hl]].
  - discriminate.
  - apply entries_sound.
  - exists buf. split; [exact Hm|]. rewrite Hl.
    cbn [map fold_left]. rewrite duration_short_entry, duration_long_entry.
    reflexivity.
Qed.

(** The mix of the short track alone: 22050 Hz, one second. *)
Lemma mix_short_alone :
  exists buf, mix_tracks disk [solo_short] = Ok (buf, 22050)
              /\ Z.of_nat (len buf) = 22050.
Proof.
  destruct (mix_tracks_survivors disk _ _ survivors_short) as [buf [Hm Hl]].
  - discriminate.
  - intros td Hin. apply entries_sound.
    destruct Hin as [<- | []]. left; reflexivity.
  - exists buf. split; [exact Hm|]. rewrite Hl.
    cbn [map fold_left]. rewrite duration_short_entry.
    reflexivity.
Qed.

End SessionFacts.



(* ------------------------------------------------------------------ *)
(** ** Soloing one track *)

Section SoloOnly.

Variable fs : filesystem.

Lemma maxZ_max (a b : Z) : maxZ a b = Z.max a b.
Proof. unfold maxZ. destruct (Z.ltb_spec a b); lia. Qed.

Lemma fold_maxZ_lub (l : list Z) (a b : Z) :
  a <= b -> (forall x, In x l -> x <= b) -> fold_left maxZ l a <= b.
Proof.
  revert a. induction l as [|x l IH]; intros a Ha Hl; simpl; [assumption|].
  apply IH.
  - unfold maxZ. destruct (a <? x); [apply Hl; now left | assumption].
  - intros y Hy. apply Hl. now right.
Qed.

Lemma fold_maxQ_lub (l : list Q) (a b : Q) :
  (a <= b)%Q -> (forall x, In x l -> (x <= b)%Q) ->
  (fold_left maxQ l a <= b)%Q.
Proof.
  revert a. induction l as [|x l IH]; intros a Ha Hl; simpl; [assumption|].
  apply IH.
  - destruct (maxQ_cases a x) as [[-> _] | [-> _]];
      [assumption | apply Hl; now left].
  - intros y Hy. apply Hl. now right.
Qed.

Lemma loads_survivors (tracks : list track) (tds : list track_data) :
  Forall2 (loads fs) tracks tds -> survivors fs tracks tds.
Proof.
  induction 1; [apply survivors_nil | now apply survivors_read].
Qed.

Lemma loads_survivors_solo (tracks : list track) (tds : list track_data) :
  Forall2 (loads fs) tracks tds ->
  survivors fs (filter solo tracks) (filter td_solo tds).
Proof.
  induction 1 as [|t td tracks tds Hl _ IH]; simpl; [apply survivors_nil|].
  assert (E : td_solo td = solo t) by apply Hl.
  rewrite E. destruct (solo t); [now apply survivors_read | assumption].
Qed.

(** The output rate and length when one track dominates the others. *)
Lemma dominated_rate (tds : list track_data) (tdS : track_data) :
  In tdS tds ->
  (forall td, In td tds -> td_sample_rate td <= td_sample_rate tdS) ->
  fold_left maxZ (map td_sample_rate tds) 0 = maxZ 0 (td_sample_rate tdS).
Proof.
  intros Hin Hle. rewrite (maxZ_max 0). apply Z.le_antisymm.
  - apply fold_maxZ_lub; [lia|].
    intros x Hx. apply in_map_iff in Hx. destruct Hx as [td [<- Htd]].
    specialize (Hle td Htd). lia.
  - pose proof (fold_maxZ_ge_init (map td_sample_rate tds) 0).
    pose proof (fold_maxZ_upper (map td_sample_rate tds) 0
                  (td_sample_rate tdS) (in_map _ _ _ Hin)).
    lia.
Qed.

Lemma dominated_duration (tds : list track_data) (tdS : track_data) :
  In tdS tds ->
  (forall td, In td tds -> (duration td <= duration tdS)%Q) ->
  (fold_left maxQ (map duration tds) 0 == maxQ 0 (duration tdS))%Q.
Proof.
  intros Hin Hle. apply Qle_antisym.
  - apply fold_maxQ_lub.
    + destruct (maxQ_cases 0 (duration tdS)) as [[-> _] | [-> H]];
        [apply Qle_refl | now apply Qlt_le_weak].
    + intros x Hx. apply in_map_iff in Hx. destruct Hx as [td [<- Htd]].
      eapply Qle_trans; [apply (Hle td Htd)|].
      destruct (maxQ_cases 0 (duration tdS)) as [[-> H] | [-> _]];
        [assumption | apply Qle_refl].
  - destruct (maxQ_cases 0 (duration tdS)) as [[-> _] | [-> _]].
    + apply fold_maxQ_ge_init.
    + apply fold_maxQ_upper. now apply in_map.
Qed.

Lemma mix_accumulate_solo_only (tracks : list track) (tds : list track_data)
      (tdS : track_data) :
  Forall2 (loads fs) tracks tds ->
  filter td_solo tds = [tdS] ->
  (forall td, In td tds ->
              td_sample_rate td <= td_sample_rate tdS
              /\ (duration td <= duration tdS)%Q) ->
  mix_accumulate fs tracks = mix_accumulate fs (filter solo tracks).
Proof.
  intros Hl Hf Hdom.
  pose proof (loads_survivors tracks tds Hl) as Hs.
  pose proof (loads_survivors_solo tracks tds Hl) as Hs'. rewrite Hf in Hs'.
  assert (HinS : In tdS tds /\ td_solo tdS = true).
  { apply filter_In. rewrite Hf. now left. }
  destruct HinS as [HinS HsoloS].
  assert (Hex : existsb td_solo tds = true).
  { apply existsb_exists. eauto. }
  assert (Hne : tracks <> []).
  { apply (survivors_nonempty fs tracks tds Hs). intros ->. contradiction. }
  assert (Hne' : filter solo tracks <> []).
  { apply (survivors_nonempty fs _ [tdS] Hs'). discriminate. }
  unfold mix_accumulate.
  destruct tracks as [|t rest]; [contradiction|].
  destruct (filter solo (t :: rest)) as [|t' rest']; [contradiction|].
  rewrite (first_pass_survivors fs _ _ Hs), (first_pass_survivors fs _ _ Hs').
  cbn [bind pass1_init max_sample_rate max_length track_audio_data app].
  destruct tds as [|td0 tds0]; [contradiction|].
  rewrite Hex.
  rewrite (dominated_rate (td0 :: tds0) tdS HinS
             (fun td H => proj1 (Hdom td H))).
  cbn [map fold_left existsb]. rewrite HsoloS. cbn [orb].
  set (rate := maxZ 0 (td_sample_rate tdS)).
  assert (Hrate : 0 <= rate).
  { unfold rate. rewrite maxZ_max. lia. }
  assert (Hlen :
            int (fold_left maxQ (map duration tds0) (maxQ 0 (duration td0))
                 * inject_Z rate)
            = int (maxQ 0 (duration tdS) * inject_Z rate)).
  { apply int_Qeq.
    - apply Qmult_le_0_compat.
      + apply (fold_maxQ_ge_init (map duration (td0 :: tds0)) 0%Q).
      + change 0%Q with (inject_Z 0). now rewrite <- Zle_Qle.
    - rewrite <- (dominated_duration (td0 :: tds0) tdS HinS
                    (fun td H => proj2 (Hdom td H))).
      reflexivity. }
  rewrite Hlen.
  destruct (zeros2 (int (maxQ 0 (duration tdS) * inject_Z rate)));
    [|reflexivity].
  cbn [bind].
  rewrite (second_pass_solo_filter rate _ (td0 :: tds0)), Hf.
  rewrite (second_pass_solo_filter rate _ [tdS]).
  cbn [filter]. rewrite HsoloS. reflexivity.
Qed.

End SoloOnly.

(** C3, as amended: for three unmuted, readable tracks of which exactly one
    is soloed, when the soloed track has the highest sample rate and the
    longest duration of the three, [mix_tracks] on the three tracks returns
    what [mix_tracks] returns on the soloed track alone: the same buffer
    (before the final normalisation and after it), the same sample rate and
    the same frame count. *)
Theorem mix_tracks_single_solo
        (fs : filesystem) (t1 t2 t3 : track) (td1 td2 td3 tdS : track_data) :
  loads fs t1 td1 -> loads fs t2 td2 -> loads fs t3 td3 ->
  filter td_solo [td1; td2; td3] = [tdS] ->
  (forall td, In td [td1; td2; td3] ->
              td_sample_rate td <= td_sample_rate tdS
              /\ (duration td <= duration tdS)%Q) ->
  exists s,
    filter solo [t1; t2; t3] = [s]
    /\ mix_accumulate fs [t1; t2; t3] = mix_accumulate fs [s]
    /\ mix_tracks fs [t1; t2; t3] = mix_tracks fs [s].
Proof.
  intros H1 H2 H3 Hf Hdom.
  assert (Hl : Forall2 (loads fs) [t1; t2; t3] [td1; td2; td3])
    by (repeat (apply Forall2_cons; [assumption|]); apply Forall2_nil).
  pose proof (mix_accumulate_solo_only fs _ _ tdS Hl Hf Hdom) as Hacc.
  assert (E1 : td_solo td1 = solo t1) by apply H1.
  assert (E2 : td_solo td2 = solo t2) by apply H2.
  assert (E3 : td_solo td3 = solo t3) by apply H3.
  assert (Hs : exists s, filter solo [t1; t2; t3] = [s]).
  { cbn [filter] in Hf |- *. rewrite E1, E2, E3 in Hf.
    destruct (solo t1), (solo t2), (solo t3); try discriminate; eauto. }
  destruct Hs as [s Hs]. exists s. split; [exact Hs|].
  rewrite Hs in Hacc. split; [exact Hacc|].
  unfold mix_tracks. now rewrite Hacc.
Qed.

Lemma mix_tracks_single_solo_witness :
  let t1 := Session.plain_short in
  let t2 := Session.solo_long in
  let td1 := Session.plain_short_entry in
  let td2 := Session.solo_long_entry in
  (loads Session.disk t1 td1
   /\ loads Session.disk t2 td2
   /\ filter td_solo [td1; td2; td1] = [td2]
   /\ (forall td, In td [td1; td2; td1] ->
                  td_sample_rate td <= td_sample_rate td2
                  /\ (duration td <= duration td2)%Q))
  /\ exists s,
      filter solo [t1; t2; t1] = [s]
      /\ mix_accumulate Session.disk [t1; t2; t1]
         = mix_accumulate Session.disk [s]
      /\ mix_tracks Session.disk [t1; t2; t1] = mix_tracks Session.disk [s].
Proof.
  intros t1 t2 td1 td2.
  assert (L1 : loads Session.disk t1 td1).
  { unfold loads. split; [reflexivity|]. split.
    - exists "short.wav"%string. repeat split; reflexivity.
    - repeat split; try reflexivity. intros E; inversion E. }
  assert (L2 : loads Session.disk t2 td2).
  { unfold loads. split; [reflexivity|]. split.
    - exists "long.wav"%string. repeat split; reflexivity.
    - repeat split; try reflexivity. intros E; inversion E. }
  assert (D1 : duration td1 = (inject_Z 22050 / inject_Z 22050)%Q)
    by exact duration_short_entry.
  assert (D2 : duration td2 = (inject_Z 88200 / inject_Z 44100)%Q)
    by exact duration_long_entry.
  assert (Hdom : forall td, In td [td1; td2; td1] ->
                   td_sample_rate td <= td_sample_rate td2
                   /\ (duration td <= duration td2)%Q).
  { intros td [<- | [<- | [<- | []]]]; rewrite ?D1, ?D2;
      (split; [intros E; inversion E | intros E; inversion E]). }
  split.
  - split; [exact L1|]. split; [exact L2|]. split; [reflexivity | exact Hdom].
  - exact (mix_tracks_single_solo Session.disk t1 t2 t1 td1 td2 td1 td2
             L1 L2 L1 eq_refl Hdom).
Defined.

(** C3, as stated, fails.  With a soloed one-second track at 22050 Hz and two
    unsoloed two-second tracks at 44100 Hz, the mix of the three is returned
    at 44100 Hz with 88200 frames, the mix of the soloed track alone at
    22050 Hz with 22050 frames. *)
Lemma mix_tracks_single_solo_counterexample :
  let tracks := [Session.solo_short; Session.plain_long; Session.plain_long] in
  filter solo tracks = [Session.solo_short]
  /\ (exists buf, mix_tracks Session.disk tracks = Ok (buf, 44100)
                  /\ Z.of_nat (len buf) = 88200)
  /\ (exists buf, mix_tracks Session.disk [Session.solo_short] = Ok (buf, 22050)
                  /\ Z.of_nat (len buf) = 22050)
  /\ mix_tracks Session.disk tracks
     <> mix_tracks Session.disk [Session.solo_short].
Proof.
  intros tracks.
  split; [reflexivity|].
  split; [exact mix_short_long_long|].
  split; [exact mix_short_alone|].
  destruct mix_short_long_long as [b [Hb _]].
  destruct mix_short_alone as [b' [Hb' _]].
  unfold tracks. rewrite Hb, Hb'. intros E. injection E as _ E. lia.
Qed.

(* ------------------------------------------------------------------ *)
(** ** The pan step at [pan == 0] *)

Section PanZero.

Lemma pan_zero_angle : ((0 / 100 + 1) * PI / 4 = PI / 4)%R.
Proof. field. Qed.

Lemma pan_left_zero : pan_left (0 / 100) = cos (PI / 4).
Proof. unfold pan_left. now rewrite pan_zero_angle. Qed.

Lemma pan_right_zero : pan_right (0 / 100) = sin (PI / 4).
Proof. unfold pan_right. now rewrite pan_zero_angle. Qed.

Lemma pan_stage_zero (audio : list (R * R)) : pan_stage (0 / 100) audio = audio.
Proof.
  unfold pan_stage. destruct (Req_dec_T (0 / 100) 0) as [_ | H];
    [reflexivity | exfalso; apply H; field].
Qed.

Lemma inv_sqrt2_square : (1 / sqrt 2 * (1 / sqrt 2) = 1 / 2)%R.
Proof.
  assert (H : (sqrt 2 * sqrt 2 = 2)%R) by (apply sqrt_sqrt; lra).
  assert (Hpos : (0 < sqrt 2)%R) by (apply sqrt_lt_R0; lra).
  field_simplify; [|lra]. rewrite <- H at 2.
  field. lra.
Qed.

Lemma inv_sqrt2_pos : (0 < 1 / sqrt 2)%R.
Proof.
  apply Rdiv_lt_0_compat; [lra | apply sqrt_lt_R0; lra].
Qed.

Lemma inv_sqrt2_bounds :
  (70710678 / 100000000 < 1 / sqrt 2 < 70710679 / 100000000)%R.
Proof.
  pose proof inv_sqrt2_square. pose proof inv_sqrt2_pos.
  set (x := (1 / sqrt 2)%R) in *. split; nra.
Qed.

(** Scaling the two channels commutes with the volume and with the padding
    or truncation. *)
Lemma channel_gains_fit_length (gl gr : R) (n : nat) (audio : list (R * R)) :
  fit_length n (channel_gains gl gr audio)
  = channel_gains gl gr (fit_length n audio).
Proof.
  unfold fit_length, channel_gains. rewrite length_map.
  destruct (length audio <? n)%nat.
  - rewrite map_app. f_equal. rewrite map_repeat. cbn [fst snd].
    now rewrite !Rmult_0_l.
  - destruct (n <? length audio)%nat; [|reflexivity].
    now rewrite firstn_map.
Qed.

Lemma channel_gains_volume (pan v : R) (audio : list (R * R)) :
  apply_volume v (apply_pan_gains pan audio)
  = channel_gains (pan_left pan) (pan_right pan) (apply_volume v audio).
Proof.
  unfold apply_volume, apply_pan_gains, channel_gains. rewrite !map_map.
  apply map_ext. intros [l r]. cbn [fst snd]. f_equal; ring.
Qed.

Lemma track_contribution_same_rate (max_sr : Z) (n : nat) (td : track_data) :
  td_sample_rate td = max_sr ->
  track_contribution max_sr n td
  = Ok (fit_length n
          (apply_volume (td_volume td)
             (pan_stage (td_pan td / 100) (to_stereo (td_audio td))))).
Proof.
  intros E. unfold track_contribution. now rewrite E, Z.eqb_refl.
Qed.

End PanZero.

(** C4, as amended: a track with [pan == 0] skips the pan step and enters the
    mix with unity pan gain on both channels.  This is not the equal power
    law at pan 0: that law multiplies both channels by
    [cos(pi/4) = sin(pi/4) = 1/sqrt 2], about 0.70710678, so the contribution
    with the pan-0 gains applied is the contribution the mixer accumulates
    with both channels scaled by that factor. *)
Theorem pan_zero_contribution
        (max_sr : Z) (n : nat) (td : track_data) (c : list (R * R)) :
  td_pan td = 0%R ->
  track_contribution max_sr n td = Ok c ->
  track_contribution_always_panned max_sr n td
  = Ok (channel_gains (cos (PI / 4)) (sin (PI / 4)) c)
  /\ cos (PI / 4) = sin (PI / 4)
  /\ (70710678 / 100000000 < cos (PI / 4) < 70710679 / 100000000)%R.
Proof.
  intros Hpan Hc. split; [|split].
  - unfold track_contribution in Hc.
    unfold track_contribution_always_panned.
    destruct (if td_sample_rate td =? max_sr
              then Ok (td_audio td)
              else resample_audio (td_audio td) (td_sample_rate td) max_sr)
      as [audio | e]; [|discriminate].
    cbn [bind] in Hc |- *. rewrite Hpan in Hc |- *.
    rewrite pan_stage_zero in Hc. injection Hc as <-.
    rewrite channel_gains_volume, channel_gains_fit_length.
    now rewrite pan_left_zero, pan_right_zero.
  - now rewrite cos_PI4, sin_PI4.
  - rewrite cos_PI4. exact inv_sqrt2_bounds.
Qed.

Lemma pan_zero_contribution_witness :
  let td := mk_track_data (Mono [1%R]) 44100 1%R 0%R false in
  let c := fit_length 1 (apply_volume 1 (to_stereo (Mono [1%R]))) in
  (td_pan td = 0%R /\ track_contribution 44100 1 td = Ok c)
  /\ track_contribution_always_panned 44100 1 td
     = Ok (channel_gains (cos (PI / 4)) (sin (PI / 4)) c)
  /\ cos (PI / 4) = sin (PI / 4)
  /\ (70710678 / 100000000 < cos (PI / 4) < 70710679 / 100000000)%R.
Proof.
  intros td c.
  assert (Hc : track_contribution 44100 1 td = Ok c).
  { rewrite track_contribution_same_rate by reflexivity.
    cbn [td_pan td_volume td_audio td]. now rewrite pan_stage_zero. }
  split; [split; [reflexivity | exact Hc]|].
  exact (pan_zero_contribution 44100 1 td c eq_refl Hc).
Defined.

(** C4, as stated, fails.  A one-frame mono track with the sample 1, volume 1
    and pan 0 contributes the frame [(1, 1)]; with the pan-0 gains applied it
    would contribute [(cos(pi/4), sin(pi/4))]. *)
Lemma pan_zero_skip_counterexample :
  let td := mk_track_data (Mono [1%R]) 44100 1%R 0%R false in
  td_pan td = 0%R
  /\ track_contribution 44100 1 td = Ok [((1 * 1)%R, (1 * 1)%R)]
  /\ track_contribution_always_panned 44100 1 td
     = Ok [((1 * cos (PI / 4) * 1)%R, (1 * sin (PI / 4) * 1)%R)]
  /\ track_contribution 44100 1 td
     <> track_contribution_always_panned 44100 1 td.
Proof.
  intros td.
  assert (H1 : track_contribution 44100 1 td = Ok [((1 * 1)%R, (1 * 1)%R)]).
  { rewrite track_contribution_same_rate by reflexivity.
    cbn [td_pan td_volume td_audio td]. now rewrite pan_stage_zero. }
  assert (H2 : track_contribution_always_panned 44100 1 td
               = Ok [((1 * cos (PI / 4) * 1)%R, (1 * sin (PI / 4) * 1)%R)]).
  { unfold track_contribution_always_panned.
    cbn [td_pan td_volume td_audio td_sample_rate td Z.eqb Pos.eqb bind].
    unfold apply_pan_gains. cbn [to_stereo map fst snd].
    now rewrite pan_left_zero, pan_right_zero. }
  split; [reflexivity|]. split; [exact H1|]. split; [exact H2|].
  rewrite H1, H2. intros E. injection E as E _.
  pose proof inv_sqrt2_bounds as [_ Hb]. rewrite <- cos_PI4 in Hb. lra.
Qed.

(* ------------------------------------------------------------------ *)
(** ** Fades *)

Section Fades.

Lemma zip_with_length (f : R -> R -> R) (a b : list R) :
  length (zip_with f a b) = Nat.min (length a) (length b).
Proof.
  revert b. induction a as [|x a IH]; intros [|y b]; simpl; try reflexivity.
  now rewrite IH.
Qed.

Lemma skipn_combine {A B : Type} (n : nat) (l : list A) (l' : list B) :
  skipn n (combine l l') = combine (skipn n l) (skipn n l').
Proof.
  revert l l'. induction n as [|n IH]; intros [|x l] [|y l']; simpl;
    try reflexivity.
  - now destruct (skipn n l).
  - apply IH.
Qed.

Lemma combine_fst_snd {A B : Type} (l : list (A * B)) :
  combine (map fst l) (map snd l) = l.
Proof.
  induction l as [|[x y] l IH]; simpl; [reflexivity | now rewrite IH].
Qed.








Lemma on_channels_raises (f : list R -> result (list R)) (a : ndarray) :
  (forall ch, length ch = len a -> exists msg, f ch = Raise (ValueError msg)) ->
  exists msg, on_channels f a = Raise (ValueError msg).
Proof.
  intros Hf. destruct a as [s|s]; simpl in *.
  - destruct (Hf s eq_refl) as [msg Hm]. rewrite Hm. eexists; reflexivity.
  - destruct (Hf (map fst s)) as [msg Hm]; [apply length_map|].
    rewrite Hm. eexists; reflexivity.
Qed.

Lemma take_all (a : ndarray) : take (len a) a = a.
Proof. destruct a; simpl; now rewrite firstn_all. Qed.

End Fades.

Section FadeStages.

Variable a : ndarray.





End FadeStages.




(* ------------------------------------------------------------------ *)
(** ** The delay effect *)

Section Delay.

Lemma add_echo_length (idx : nat) (amount : R) (audio delayed : list R) :
  length delayed = length audio ->
  length (add_echo idx amount audio delayed) = length audio.
Proof.
  intros E. unfold add_echo.
  rewrite length_app, zip_with_length, length_firstn, length_skipn,
    length_map, length_firstn.
  lia.
Qed.

Lemma add_echo_prefix (idx k : nat) (amount : R) (audio delayed : list R) :
  (k <= idx)%nat -> (idx < length delayed)%nat ->
  firstn k (add_echo idx amount audio delayed) = firstn k delayed.
Proof.
  intros Hk Hi. unfold add_echo.
  rewrite firstn_app, firstn_firstn, length_firstn.
  replace (Nat.min k idx) with k by lia.
  replace (k - Nat.min idx (length delayed))%nat with 0%nat by lia.
  cbn [firstn]. now rewrite app_nil_r.
Qed.

Lemma feedback_loop_spec (d : nat) (feedback : R) (audio : list R) :
  forall remaining i delayed,
    length delayed = length audio ->
    length (feedback_loop remaining i d feedback audio delayed) = length audio
    /\ firstn (2 * d) (feedback_loop remaining i d feedback audio delayed)
       = firstn (2 * d) delayed.
Proof.
  induction remaining as [|rem IH]; intros i delayed E; cbn [feedback_loop].
  - auto.
  - destruct (Rlt_dec (feedback ^ (i + 1)) (1 / 100)); [auto|].
    destruct (Nat.ltb_spec (d * (i + 2)) (length delayed)) as [Hlt|Hge].
    + destruct (IH (S i) (add_echo (d * (i + 2)) (feedback ^ (i + 1))
                                   audio delayed)) as [Hl Hp].
      { now apply add_echo_length. }
      split; [exact Hl|]. rewrite Hp.
      apply add_echo_prefix; [nia | assumption].
    + now apply IH.
Qed.

Lemma delay_line_length (d : nat) (feedback : R) (audio : list R) :
  length (delay_line d feedback audio) = length audio.
Proof.
  unfold delay_line. apply feedback_loop_spec.
  rewrite length_app, repeat_length, length_firstn. lia.
Qed.


Lemma nth_firstn_lt {A : Type} (k i : nat) (l : list A) (x : A) :
  (i < k)%nat -> nth i (firstn k l) x = nth i l x.
Proof.
  revert i l. induction k as [|k IH]; intros i l H; [lia|].
  destruct l as [|y l]; [now destruct i|].
  destruct i as [|i]; simpl; [reflexivity | apply IH; lia].
Qed.




End Delay.

Section EchoSpacing.




End EchoSpacing.




(* ------------------------------------------------------------------ *)
(** ** The effects chain and the random generator *)

Section Effects.




End Effects.




Section ReverbNoise.




End ReverbNoise.


(* ------------------------------------------------------------------ *)
(** ** File names of the exported stems *)

Section SanitizeFilename.

Import ExportService.

Lemma in_firstn {A : Type} (n : nat) (l : list A) (x : A) :
  In x (firstn n l) -> In x l.
Proof.
  intros H. rewrite <- (firstn_skipn n l). apply in_or_app. now left.
Qed.

Lemma in_skipn {A : Type} (n : nat) (l : list A) (x : A) :
  In x (skipn n l) -> In x l.
Proof.
  intros H. rewrite <- (firstn_skipn n l). apply in_or_app. now right.
Qed.

Lemma replace_char_absent (old new : N) (s : str) :
  ~ In old s -> replace_char old new s = s.
Proof.
  intros H. unfold replace_char. rewrite <- (map_id s) at 2.
  apply map_ext_in. intros c Hc.
  destruct (N.eqb_spec c old) as [-> | _]; [contradiction | reflexivity].
Qed.

Lemma replace_char_in (old new : N) (s : str) (c : N) :
  In c (replace_char old new s) -> c = new \/ (In c s /\ c <> old).
Proof.
  unfold replace_char. intros H. apply in_map_iff in H.
  destruct H as [x [E Hx]].
  destruct (N.eqb_spec x old) as [Heq | Hne].
  - left. now symmetry.
  - right. subst c. now split.
Qed.

Lemma replace_all_keeps_absent (chars : list N) (s : str) (c : N) :
  c <> underscore -> ~ In c s ->
  ~ In c (fold_left (fun name char => replace_char char underscore name)
                    chars s).
Proof.
  intros Hu. revert s. induction chars as [|ch chars IH]; intros s Hs; simpl.
  - exact Hs.
  - apply IH. intros H. apply replace_char_in in H.
    destruct H as [-> | [H _]]; [now apply Hu | now apply Hs].
Qed.

Lemma replace_all_removes (chars : list N) (s : str) (c : N) :
  c <> underscore -> In c chars ->
  ~ In c (fold_left (fun name char => replace_char char underscore name)
                    chars s).
Proof.
  intros Hu. revert s. induction chars as [|ch chars IH]; intros s Hc; simpl.
  - contradiction.
  - destruct (N.eq_dec ch c) as [-> | Hne].
    + apply replace_all_keeps_absent; [assumption|].
      intros H. apply replace_char_in in H.
      destruct H as [E | [_ E]]; [now apply Hu | now apply E].
    + apply IH. destruct Hc as [E | Hc]; [contradiction | assumption].
Qed.

Lemma replace_all_absent (chars : list N) (s : str) :
  (forall c, In c chars -> ~ In c s) ->
  fold_left (fun name char => replace_char char underscore name) chars s = s.
Proof.
  revert s. induction chars as [|ch chars IH]; intros s H; simpl.
  - reflexivity.
  - rewrite replace_char_absent by (apply H; now left).
    apply IH. intros c Hc. apply H. now right.
Qed.

Lemma replace_all_length (chars : list N) (s : str) :
  length (fold_left (fun name char => replace_char char underscore name)
                    chars s) = length s.
Proof.
  revert s. induction chars as [|ch chars IH]; intros s; simpl.
  - reflexivity.
  - rewrite IH. unfold replace_char. apply length_map.
Qed.

Lemma invalid_not_underscore (c : N) : In c invalid_chars -> c <> underscore.
Proof.
  unfold invalid_chars, underscore. simpl.
  intros H E. subst c. repeat (destruct H as [H | H]; [discriminate|]).
  exact H.
Qed.

Lemma invalid_not_in_literal (c : N) :
  In c invalid_chars ->
  ~ In c (codes "...") /\ ~ In c (codes "untitled").
Proof.
  unfold invalid_chars. simpl. intros H.
  repeat (destruct H as [<- | H];
          [split; intros E; simpl in E;
           repeat (destruct E as [E | E]; [discriminate|]); exact E|]).
  contradiction.
Qed.

Lemma lstrip_nil_iff (s : str) :
  lstrip s = [] <-> Forall (fun c => is_space c = true) s.
Proof.
  induction s as [|c s IH]; simpl.
  - split; [constructor | reflexivity].
  - destruct (is_space c) eqn:E.
    + rewrite IH. split; [now constructor | now inversion 1].
    + split; [discriminate | inversion 1; congruence].
Qed.

Lemma lstrip_in (s : str) (c : N) : In c (lstrip s) -> In c s.
Proof.
  induction s as [|x s IH]; simpl; [auto|].
  destruct (is_space x); [right; auto | auto].
Qed.

Lemma lstrip_keeps (s : str) (c : N) :
  In c s -> is_space c = false -> In c (lstrip s).
Proof.
  induction s as [|x s IH]; simpl; [auto|].
  intros [-> | H] E.
  - rewrite E. now left.
  - destruct (is_space x); [auto | right; assumption].
Qed.

(** A string strips to the empty string exactly when it is all white space. *)
Lemma strip_nil_iff (s : str) :
  strip s = [] <-> Forall (fun c => is_space c = true) s.
Proof.
  unfold strip. split.
  - intros H. apply (f_equal (@rev N)) in H. rewrite rev_involutive in H.
    simpl in H. apply lstrip_nil_iff in H.
    apply Forall_forall. intros c Hc.
    destruct (is_space c) eqn:E; [reflexivity|].
    rewrite Forall_forall in H. rewrite <- E. apply H.
    apply (proj1 (in_rev (lstrip s) c)). now apply lstrip_keeps.
  - intros H. apply lstrip_nil_iff in H. rewrite H. reflexivity.
Qed.

Lemma strip_truncated (s : str) : strip (firstn 60 s ++ codes "...") <> [].
Proof.
  intros H. apply strip_nil_iff in H. rewrite Forall_forall in H.
  specialize (H 46%N). rewrite in_app_iff in H.
  assert (E : is_space 46 = true) by (apply H; right; now left).
  discriminate.
Qed.

Lemma strip_untitled : strip (codes "untitled") <> [].
Proof. discriminate. Qed.

(** A name that is already safe is left as it is. *)
Lemma sanitize_fixpoint (s : str) :
  (forall c, In c invalid_chars -> ~ In c s) ->
  (length s <= 64)%nat ->
  strip s <> [] ->
  _sanitize_filename s = s.
Proof.
  intros Hc Hl Hs. unfold _sanitize_filename.
  rewrite replace_all_absent by assumption.
  destruct (Nat.ltb_spec 64 (length s)); [lia|].
  destruct (strip s); [contradiction | reflexivity].
Qed.

End SanitizeFilename.

Lemma sanitized_is_safe (filename : ExportService.str) :
  let name := ExportService._sanitize_filename filename in
  (forall c, In c ExportService.invalid_chars -> ~ In c name)
  /\ (length name <= 64)%nat
  /\ ExportService.strip name <> [].
Proof.
  cbv zeta. unfold ExportService._sanitize_filename.
  set (f1 := fold_left
               (fun name char =>
                  ExportService.replace_char char ExportService.underscore name)
               ExportService.invalid_chars filename).
  assert (H1 : forall c, In c ExportService.invalid_chars -> ~ In c f1).
  { intros c Hc. apply replace_all_removes; [|assumption].
    now apply invalid_not_underscore. }
  set (f2 := if (64 <? length f1)%nat
             then firstn 60 f1 ++ ExportService.codes "..." else f1).
  assert (H2 : forall c, In c ExportService.invalid_chars -> ~ In c f2).
  { intros c Hc. unfold f2. destruct (64 <? length f1)%nat; [|now apply H1].
    rewrite in_app_iff. intros [H | H].
    - apply (H1 c Hc). eapply in_firstn. exact H.
    - now apply (proj1 (invalid_not_in_literal c Hc)). }
  assert (L2 : (length f2 <= 64)%nat).
  { unfold f2. destruct (Nat.ltb_spec 64 (length f1)); [|assumption].
    rewrite length_app, length_firstn.
    change (length (ExportService.codes "...")) with 3%nat. lia. }
  destruct (ExportService.strip f2) eqn:E.
  - split; [|split].
    + intros c Hc. now apply (proj2 (invalid_not_in_literal c Hc)).
    + change (length (ExportService.codes "untitled")) with 8%nat. lia.
    + apply strip_untitled.
  - split; [exact H2|]. split; [exact L2|]. rewrite E. discriminate.
Qed.

(** X1: [_sanitize_filename] always returns a usable file name: none of the
    nine characters it replaces is left, the name has at most 64 characters
    and it is not blank. *)
Theorem sanitize_filename_safe (filename : ExportService.str) :
  let name := ExportService._sanitize_filename filename in
  (forall c, In c ExportService.invalid_chars -> ~ In c name)
  /\ (length name <= 64)%nat
  /\ ExportService.strip name <> [].
Proof. exact (sanitized_is_safe filename). Qed.

Lemma sanitize_filename_safe_witness :
  ExportService._sanitize_filename (ExportService.codes "a/b:c")
  = ExportService.codes "a_b_c"
  /\ ~ In 47%N (ExportService._sanitize_filename
                  (ExportService.codes "a/b:c")).
Proof.
  split; [reflexivity|].
  apply (proj1 (sanitize_filename_safe (ExportService.codes "a/b:c"))).
  simpl. auto 10.
Defined.

(** X2: [_sanitize_filename] is idempotent: sanitising a sanitised name
    changes nothing. *)
Theorem sanitize_filename_idempotent (filename : ExportService.str) :
  ExportService._sanitize_filename (ExportService._sanitize_filename filename)
  = ExportService._sanitize_filename filename.
Proof.
  destruct (sanitized_is_safe filename) as [Hc [Hl Hs]].
  now apply sanitize_fixpoint.
Qed.

(* ------------------------------------------------------------------ *)
(** ** More on peak normalisation *)

Section NormaliseAgain.

Lemma scale_scale (a : ndarray) (c g : R) :
  scale (scale a c) g = scale a (c * g).
Proof.
  destruct a as [s|s]; simpl; f_equal; rewrite map_map; apply map_ext.
  - intros x. ring.
  - intros [l r]. cbn [fst snd]. f_equal; ring.
Qed.

Lemma scale_one (a : ndarray) : scale a 1 = a.
Proof.
  destruct a as [s|s]; simpl; f_equal; rewrite <- (map_id s) at 2;
    apply map_ext.
  - intros x. ring.
  - intros [l r]. cbn [fst snd]. f_equal; ring.
Qed.

Lemma samples_empty_iff (a : ndarray) : samples a = [] <-> len a = 0%nat.
Proof.
  destruct a as [[|x s]|[|[l r] s]]; simpl; split; intros H;
    try reflexivity; discriminate.
Qed.

Lemma abs_peak_empty (a : ndarray) :
  len a = 0%nat ->
  abs_peak a
  = Raise (ValueError "zero-size array to reduction operation maximum which has no identity").
Proof.
  intros H. apply samples_empty_iff in H. unfold abs_peak. now rewrite H.
Qed.

Lemma abs_peak_nonempty (a : ndarray) :
  (0 < len a)%nat -> exists p, abs_peak a = Ok p /\ (0 <= p)%R.
Proof.
  intros H. unfold abs_peak.
  destruct (samples a) as [|x l] eqn:E.
  - apply samples_empty_iff in E. lia.
  - eexists; split; [reflexivity|].
    apply (amax_abs_nonneg (x :: l)). reflexivity.
Qed.

(** A buffer whose peak is zero holds zeros only. *)
Lemma silent_samples (a : ndarray) :
  abs_peak a = Ok 0%R -> forall x, In x (samples a) -> x = 0%R.
Proof.
  intros Hp x Hx.
  assert (H : (Rabs x <= 0)%R).
  { eapply amax_upper; [exact Hp | now apply in_map]. }
  pose proof (Rabs_pos x).
  destruct (Req_dec x 0) as [E | E]; [assumption|].
  pose proof (Rabs_pos_lt x E). lra.
Qed.

Lemma silent_scale (a : ndarray) (c : R) :
  abs_peak a = Ok 0%R -> scale a c = a.
Proof.
  intros Hp. pose proof (silent_samples a Hp) as Hz.
  destruct a as [s|s]; simpl in *; f_equal; rewrite <- (map_id s) at 2;
    apply map_ext_in.
  - intros x Hx. rewrite (Hz x Hx). ring.
  - intros [l r] Hx. cbn [fst snd].
    assert (Hl : l = 0%R).
    { apply Hz. apply in_flat_map. exists (l, r). split; [assumption|].
      now left. }
    assert (Hr : r = 0%R).
    { apply Hz. apply in_flat_map. exists (l, r). split; [assumption|].
      right; now left. }
    subst. f_equal; ring.
Qed.

(** Normalisation forgets a positive gain applied before it. *)
Lemma normalize_scale (a : ndarray) (c target_db : R) :
  (0 < c)%R ->
  normalize_audio (scale a c) target_db = normalize_audio a target_db.
Proof.
  intros Hc. unfold normalize_audio.
  destruct (Nat.eq_dec (len a) 0) as [He | He].
  - rewrite (abs_peak_empty a He).
    rewrite (abs_peak_empty (scale a c)) by (now rewrite len_scale).
    reflexivity.
  - destruct (abs_peak_nonempty a) as [p [Hp Hpos]]; [lia|].
    rewrite Hp, (abs_peak_scale a c p (Rlt_le _ _ Hc) Hp). cbn [bind].
    destruct (Req_dec_T p 0) as [E | E].
    + subst p. rewrite Rmult_0_l.
      destruct (Req_dec_T 0 0); [|contradiction].
      now rewrite silent_scale.
    + destruct (Req_dec_T (p * c) 0) as [E' | E'].
      { exfalso. apply Rmult_integral in E'. destruct E'; lra. }
      rewrite scale_scale. do 2 f_equal. field. split; lra.
Qed.

Lemma normalize_gain_pos (a : ndarray) (target_db : R) (r : ndarray) :
  normalize_audio a target_db = Ok r ->
  r = a \/ exists g, (0 < g)%R /\ r = scale a g.
Proof.
  unfold normalize_audio.
  destruct (abs_peak a) as [p|e] eqn:Hp; cbn [bind]; [|discriminate].
  destruct (Req_dec_T p 0) as [E | E]; intros [= <-]; [now left|].
  right. eexists; split; [|reflexivity].
  pose proof (amax_abs_nonneg _ _ Hp).
  apply Rdiv_lt_0_compat; [apply Rpower_10_pos | lra].
Qed.

End NormaliseAgain.

(** X3: [normalize_audio] fails exactly on an empty buffer, with numpy's
    [ValueError]; on every other buffer it returns a buffer with the same
    number of frames and channels. *)
Theorem normalize_audio_defined (a : ndarray) (target_db : R) :
  (len a = 0%nat ->
   exists msg, normalize_audio a target_db = Raise (ValueError msg))
  /\ ((0 < len a)%nat ->
      exists r, normalize_audio a target_db = Ok r
                /\ len r = len a
                /\ (forall s, a = Mono s -> exists s', r = Mono s')
                /\ (forall s, a = Stereo s -> exists s', r = Stereo s')).
Proof.
  split.
  - intros H. unfold normalize_audio. rewrite (abs_peak_empty a H).
    eexists; reflexivity.
  - intros H. destruct (normalize_audio_total a target_db H) as [r [Hr [Hl Hs]]].
    exists r. split; [assumption|]. split; [assumption|].
    split; [|assumption].
    intros s ->. destruct (normalize_gain_pos _ _ _ Hr) as [-> | [g [_ ->]]];
      simpl; eauto.
Qed.

Lemma normalize_audio_defined_witness :
  (exists msg, normalize_audio (Mono []) (-3) = Raise (ValueError msg))
  /\ exists r, normalize_audio (Mono [1; -1]%R) (-3) = Ok r
               /\ len r = 2%nat.
Proof.
  split.
  - apply (proj1 (normalize_audio_defined (Mono []) (-3))). reflexivity.
  - destruct (proj2 (normalize_audio_defined (Mono [1; -1]%R) (-3)))
      as (r & Hr & Hl & _); [simpl; lia|].
    exists r. split; [exact Hr | exact Hl].
Defined.

(** X4: a positive gain applied to a buffer before [normalize_audio] has no
    effect on the result. *)
Theorem normalize_audio_scale_invariant (a : ndarray) (c target_db : R) :
  (0 < c)%R ->
  normalize_audio (scale a c) target_db = normalize_audio a target_db.
Proof. exact (normalize_scale a c target_db). Qed.

Lemma normalize_audio_scale_invariant_witness :
  (0 < 2)%R
  /\ normalize_audio (scale (Mono [1; -2]%R) 2) (-3)
     = normalize_audio (Mono [1; -2]%R) (-3).
Proof.
  assert (H : (0 < 2)%R) by lra.
  split; [exact H|].
  exact (normalize_audio_scale_invariant (Mono [1; -2]%R) 2 (-3) H).
Defined.


(* ------------------------------------------------------------------ *)
(** ** What linear interpolation keeps *)

Section Interpolation.

Variables lo hi : R.

Lemma interp_seg_within (fp : list R) :
  forall (j : nat) (x : R),
    fp <> [] ->
    (INR j <= x)%R ->
    Forall (within lo hi) fp ->
    within lo hi (interp_seg x (map INR (seq j (length fp))) fp).
Proof.
  induction fp as [|y0 fp IH]; intros j x Hne Hx Hall; [contradiction|].
  destruct fp as [|y1 fp].
  - simpl. now inversion Hall.
  - change (length (y0 :: y1 :: fp)) with (S (S (length fp))).
    cbn [seq map interp_seg].
    inversion Hall as [|? ? H0 Hrest]; subst.
    destruct (Rlt_dec x (INR (S j))) as [Hlt | Hge].
    + inversion Hrest as [|? ? H1 _]; subst.
      rewrite S_INR in Hlt |- *.
      replace (INR j + 1 - INR j)%R with 1%R by ring.
      unfold within in *.
      assert (Ht : (0 <= x - INR j < 1)%R) by lra.
      set (t := (x - INR j)%R) in *.
      replace ((y1 - y0) / 1 * t + y0)%R with (y0 + t * (y1 - y0))%R
        by (field).
      split; nra.
    + apply (IH (S j) x); [discriminate | lra | assumption].
Qed.

Lemma interp1_within (fp : list R) (x : R) :
  fp <> [] -> Forall (within lo hi) fp ->
  within lo hi (interp1 x (arange (length fp)) fp).
Proof.
  intros Hne Hall. destruct fp as [|y0 fp]; [contradiction|].
  unfold interp1, arange.
  change (length (y0 :: fp)) with (S (length fp)). cbn [seq map].
  destruct (Rle_dec x (INR 0)) as [Hle | Hgt].
  - now inversion Hall.
  - apply (interp_seg_within (y0 :: fp) 0 x); [discriminate | | assumption].
    simpl in *. lra.
Qed.

Lemma resample_channel_within (channel : list R) (n : Z) (out : list R) :
  resample_channel channel n = Ok out ->
  Forall (within lo hi) channel -> Forall (within lo hi) out.
Proof.
  unfold resample_channel.
  destruct (linspace 0 (INR (length channel) - 1) n) as [g|e]; cbn [bind];
    [|discriminate].
  unfold interp.
  destruct channel as [|y0 channel]; [simpl; discriminate|].
  remember (arange (length (y0 :: channel))) as xp eqn:Exp.
  assert (Hlen : length xp = S (length channel))
    by (rewrite Exp; apply arange_length).
  destruct xp as [|x0 xp']; [discriminate Hlen|].
  rewrite Hlen. change (length (y0 :: channel)) with (S (length channel)).
  rewrite Nat.eqb_refl. intros [= <-] Hall.
  apply Forall_forall. intros y Hy. apply in_map_iff in Hy.
  destruct Hy as [x [<- _]].
  change (within lo hi (interp1 x (x0 :: xp') (y0 :: channel))).
  rewrite Exp.
  apply interp1_within; [discriminate | assumption].
Qed.

End Interpolation.

Section ResampleRange.

Lemma samples_stereo_in (s : list (R * R)) (x : R) :
  In x (samples (Stereo s)) <->
  exists p, In p s /\ (x = fst p \/ x = snd p).
Proof.
  simpl. rewrite in_flat_map. split; intros [p [Hp H]]; exists p;
    (split; [assumption|]); simpl in *; intuition.
Qed.

Lemma resample_audio_within (lo hi : R) (a r : ndarray) (f t : Z) :
  resample_audio a f t = Ok r ->
  Forall (within lo hi) (samples a) -> Forall (within lo hi) (samples r).
Proof.
  unfold resample_audio.
  destruct (f =? t); [now intros [= <-]|].
  destruct (truediv t f) as [ratio|e]; cbn [bind]; [|discriminate].
  set (n := int (inject_Z (Z.of_nat (len a)) * ratio)).
  destruct a as [s|s].
  - destruct (resample_channel s n) as [out|e] eqn:E; cbn [bind];
      [|discriminate].
    intros [= <-] Hall. simpl in *.
    eapply resample_channel_within; eassumption.
  - destruct (zeros2 n); cbn [bind]; [|discriminate].
    destruct (resample_channel (map fst s) n) as [c0|e] eqn:E0; cbn [bind];
      [|discriminate].
    destruct (resample_channel (map snd s) n) as [c1|e] eqn:E1; cbn [bind];
      [|discriminate].
    intros [= <-] Hall.
    assert (H0 : Forall (within lo hi) c0).
    { eapply resample_channel_within; [exact E0|].
      apply Forall_forall. intros x Hx. apply in_map_iff in Hx.
      destruct Hx as [p [<- Hp]].
      rewrite Forall_forall in Hall. apply Hall.
      apply samples_stereo_in. exists p. auto. }
    assert (H1 : Forall (within lo hi) c1).
    { eapply resample_channel_within; [exact E1|].
      apply Forall_forall. intros x Hx. apply in_map_iff in Hx.
      destruct Hx as [p [<- Hp]].
      rewrite Forall_forall in Hall. apply Hall.
      apply samples_stereo_in. exists p. auto. }
    apply Forall_forall. intros x Hx. apply samples_stereo_in in Hx.
    destruct Hx as [[l r'] [Hp [-> | ->]]]; cbn [fst snd].
    + apply in_combine_l in Hp. rewrite Forall_forall in H0. now apply H0.
    + apply in_combine_r in Hp. rewrite Forall_forall in H1. now apply H1.
Qed.

End ResampleRange.

(** X6: [resample_audio] never overshoots: when every sample of the input
    lies between two bounds, every sample of the resampled buffer lies
    between the same bounds. *)
Theorem resample_audio_no_overshoot
        (a r : ndarray) (from_rate to_rate : Z) (lo hi : R) :
  resample_audio a from_rate to_rate = Ok r ->
  (forall x, In x (samples a) -> (lo <= x <= hi)%R) ->
  forall y, In y (samples r) -> (lo <= y <= hi)%R.
Proof.
  intros Hr Hall.
  assert (H : Forall (within lo hi) (samples r)).
  { eapply resample_audio_within; [exact Hr|]. now apply Forall_forall. }
  rewrite Forall_forall in H. exact H.
Qed.

Lemma resample_audio_no_overshoot_witness :
  let a := Mono [0; 1]%R in
  exists r,
    (resample_audio a 22050 44100 = Ok r
     /\ (forall x, In x (samples a) -> (0 <= x <= 1)%R))
    /\ len r = 4%nat
    /\ forall y, In y (samples r) -> (0 <= y <= 1)%R.
Proof.
  intros a. eexists.
  assert (Hr : resample_audio a 22050 44100 = Ok _) by reflexivity.
  assert (Hin : forall x, In x (samples a) -> (0 <= x <= 1)%R).
  { intros x [<- | [<- | []]]; lra. }
  split; [split; [exact Hr | exact Hin]|].
  split; [reflexivity|].
  exact (resample_audio_no_overshoot a _ 22050 44100 0 1 Hr Hin).
Defined.

Section ResampleEndpoints.

Lemma interp_seg_last (fp : list R) :
  forall j, fp <> [] ->
            interp_seg (INR (j + length fp - 1))
                       (map INR (seq j (length fp))) fp
            = last fp 0%R.
Proof.
  induction fp as [|y0 fp IH]; intros j Hne; [contradiction|].
  destruct fp as [|y1 fp]; [reflexivity|].
  change (length (y0 :: y1 :: fp)) with (S (S (length fp))).
  cbn [seq map interp_seg].
  destruct (Rlt_dec (INR (j + S (S (length fp)) - 1)) (INR (S j)))
    as [Hlt | _].
  - apply INR_lt in Hlt. lia.
  - change (interp_seg (INR (j + S (S (length fp)) - 1))
                       (map INR (seq (S j) (length (y1 :: fp)))) (y1 :: fp)
            = last (y1 :: fp) 0%R).
    replace (j + S (S (length fp)) - 1)%nat
      with (S j + length (y1 :: fp) - 1)%nat by (simpl; lia).
    apply (IH (S j)). discriminate.
Qed.

Lemma interp1_last (fp : list R) :
  fp <> [] ->
  interp1 (INR (length fp - 1)) (arange (length fp)) fp = last fp 0%R.
Proof.
  intros Hne. destruct fp as [|y0 fp]; [contradiction|].
  unfold interp1, arange.
  change (length (y0 :: fp)) with (S (length fp)). cbn [seq map].
  destruct (Rle_dec (INR (S (length fp) - 1)) (INR 0)) as [Hle | Hgt].
  - apply INR_le in Hle. destruct fp; [reflexivity | simpl in Hle; lia].
  - apply (interp_seg_last (y0 :: fp) 0). discriminate.
Qed.

Lemma interp1_first (fp : list R) (x : R) :
  (x <= 0)%R -> interp1 x (arange (length fp)) fp = hd 0%R fp.
Proof.
  intros Hx. destruct fp as [|y0 fp]; [reflexivity|].
  unfold interp1, arange.
  change (length (y0 :: fp)) with (S (length fp)). cbn [seq map hd].
  destruct (Rle_dec x (INR 0)) as [_ | H]; [reflexivity|].
  simpl in H. lra.
Qed.

Lemma skipn_last {A : Type} (l : list A) (d : A) :
  l <> [] -> skipn (length l - 1) l = [last l d].
Proof.
  intros Hne. destruct (exists_last Hne) as [l' [x ->]].
  rewrite length_app, last_last. simpl.
  replace (length l' + 1 - 1)%nat with (length l') by lia.
  rewrite skipn_app, skipn_all, Nat.sub_diag. reflexivity.
Qed.

Lemma firstn_hd {A : Type} (l : list A) (d : A) :
  l <> [] -> firstn 1 l = [hd d l].
Proof. destruct l; [contradiction | reflexivity]. Qed.

(** The first and the last value that one channel is resampled to. *)
Lemma resample_channel_values (channel out : list R) (n : Z) :
  resample_channel channel n = Ok out ->
  channel <> []
  /\ 0 <= n
  /\ out = map (fun xi => interp1 xi (arange (length channel)) channel)
              (map (fun i : nat =>
                      if n =? 1 then 0%R
                      else (0 + INR i * ((INR (length channel) - 1 - 0)
                                         / IZR (n - 1)))%R)
                   (seq 0 (Z.to_nat n))).
Proof.
  unfold resample_channel, linspace.
  destruct (Z.ltb_spec n 0) as [|Hn]; cbn [bind]; [discriminate|].
  unfold interp.
  destruct channel as [|y0 channel]; [simpl; discriminate|].
  remember (arange (length (y0 :: channel))) as xp eqn:Exp.
  assert (Hlen : length xp = S (length channel))
    by (rewrite Exp; apply arange_length).
  destruct xp as [|x0 xp']; [discriminate Hlen|].
  rewrite Hlen. change (length (y0 :: channel)) with (S (length channel)).
  rewrite Nat.eqb_refl. intros H.
  split; [discriminate|]. split; [assumption|].
  injection H as <-. reflexivity.
Qed.

(** The first and the last value that one channel is resampled to. *)
Lemma resample_channel_endpoints (channel out : list R) (n : Z) :
  resample_channel channel n = Ok out ->
  ((0 < length out)%nat -> firstn 1 out = firstn 1 channel)
  /\ ((2 <= length out)%nat ->
      skipn (length out - 1) out = skipn (length channel - 1) channel).
Proof.
  intros H. apply resample_channel_values in H.
  destruct H as [Hne [Hn ->]].
  set (grid := fun i : nat =>
                 if n =? 1 then 0%R
                 else (0 + INR i * ((INR (length channel) - 1 - 0)
                                    / IZR (n - 1)))%R).
  rewrite !length_map, length_seq.
  split.
  - intros Hpos.
    destruct (Z.to_nat n) as [|k] eqn:Ek; [lia|].
    rewrite (firstn_hd channel 0%R) by assumption.
    cbn [seq map firstn]. f_equal. apply interp1_first. unfold grid.
    destruct (n =? 1); [lra|]. simpl. lra.
  - intros H2.
    destruct (Z.to_nat n) as [|k] eqn:Ek; [lia|].
    replace (S k - 1)%nat with k by lia.
    rewrite seq_S, !map_app, skipn_app, !length_map, length_seq.
    rewrite skipn_all2 by (rewrite !length_map, length_seq; lia).
    rewrite Nat.sub_diag. cbn [app map skipn Nat.add].
    rewrite (skipn_last channel 0%R) by assumption. f_equal.
    assert (Hg : grid k = INR (length channel - 1)).
    { unfold grid. destruct (Z.eqb_spec n 1) as [E|E]; [lia|].
      assert (Hk : IZR (n - 1) = INR k).
      { rewrite INR_IZR_INZ. f_equal. lia. }
      rewrite Hk.
      destruct channel as [|y0 channel]; [contradiction|].
      replace (length (y0 :: channel) - 1)%nat with (length channel)
        by (simpl; lia).
      change (length (y0 :: channel)) with (S (length channel)).
      rewrite S_INR. field. apply not_0_INR. lia. }
    rewrite Hg. now apply interp1_last.
Qed.

End ResampleEndpoints.

Lemma resample_channel_length (channel out : list R) (n : Z) :
  resample_channel channel n = Ok out -> length out = Z.to_nat n.
Proof.
  intros H. apply resample_channel_values in H. destruct H as [_ [_ ->]].
  now rewrite !length_map, length_seq.
Qed.

(** X7: [resample_audio] keeps the end points: the first frame of the result
    is the first frame of the input and, when the result has at least two
    frames, its last frame is the last frame of the input. *)
Theorem resample_audio_endpoints (a r : ndarray) (from_rate to_rate : Z) :
  resample_audio a from_rate to_rate = Ok r ->
  ((0 < len r)%nat -> take 1 r = take 1 a)
  /\ ((2 <= len r)%nat -> drop (len r - 1) r = drop (len a - 1) a).
Proof.
  unfold resample_audio.
  destruct (from_rate =? to_rate); [intros [= <-]; now split|].
  destruct (truediv to_rate from_rate) as [ratio|e]; cbn [bind];
    [|discriminate].
  set (n := int (inject_Z (Z.of_nat (len a)) * ratio)).
  destruct a as [s|s].
  - destruct (resample_channel s n) as [out|e] eqn:E; cbn [bind];
      [|discriminate].
    intros [= <-]. destruct (resample_channel_endpoints s out n E) as [H1 H2].
    cbn [take drop len]. split; intros H; f_equal; auto.
  - destruct (zeros2 n); cbn [bind]; [|discriminate].
    destruct (resample_channel (map fst s) n) as [c0|e] eqn:E0; cbn [bind];
      [|discriminate].
    destruct (resample_channel (map snd s) n) as [c1|e] eqn:E1; cbn [bind];
      [|discriminate].
    intros [= <-].
    pose proof (resample_channel_length _ _ _ E0) as L0.
    pose proof (resample_channel_length _ _ _ E1) as L1.
    destruct (resample_channel_endpoints _ _ _ E0) as [F0 G0].
    destruct (resample_channel_endpoints _ _ _ E1) as [F1 G1].
    cbn [take drop len]. rewrite length_combine, L0, L1, Nat.min_id.
    rewrite L0 in F0, G0. rewrite L1 in F1, G1.
    rewrite length_map in G0, G1.
    split; intros H; f_equal.
    + rewrite combine_firstn, F0, F1 by assumption.
      rewrite <- combine_firstn. now rewrite combine_fst_snd.
    + rewrite skipn_combine, G0, G1 by assumption.
      rewrite <- skipn_combine. now rewrite combine_fst_snd.
Qed.

Lemma resample_audio_endpoints_witness :
  exists r,
    resample_audio (Mono [0; 1]%R) 22050 44100 = Ok r
    /\ take 1 r = Mono [0%R]
    /\ drop 3 r = Mono [1%R].
Proof.
  eexists.
  assert (Hr : resample_audio (Mono [0; 1]%R) 22050 44100 = Ok _)
    by reflexivity.
  destruct (resample_audio_endpoints _ _ _ _ Hr) as [H1 H2].
  split; [exact Hr|]. split.
  - apply H1. simpl. lia.
  - apply H2. simpl. lia.
Defined.

(* ------------------------------------------------------------------ *)
(** ** The mixer: which tracks count *)

Section AudibleTracks.

Variable fs : filesystem.

Lemma first_pass_audible (tracks : list track) :
  forall st,
    first_pass fs tracks st = first_pass fs (filter (audible fs) tracks) st.
Proof.
  induction tracks as [|t tracks IH]; intros st; [reflexivity|].
  cbn [filter]. unfold audible at 1.
  cbn [first_pass].
  destruct (muted t) eqn:Hm; cbn [negb andb]; [apply IH|].
  destruct (file_path t) as [p|] eqn:Hp; [|apply IH].
  destruct ((p =? "")%string) eqn:He; cbn [negb andb orb]; [apply IH|].
  destruct (path_exists fs p) eqn:Hx; cbn [negb]; [|apply IH].
  cbn [first_pass]. rewrite Hm, Hp, He, Hx. cbn [negb orb].
  destruct (read_audio_file fs p) as [[audio rate]|e]; cbn [bind];
    [|reflexivity].
  destruct (truediv (Z.of_nat (len audio)) rate); cbn [bind];
    [apply IH | reflexivity].
Qed.

Lemma first_pass_none_audible (tracks : list track) (st : pass1) :
  filter (audible fs) tracks = [] -> first_pass fs tracks st = Ok st.
Proof. intros H. now rewrite first_pass_audible, H. Qed.

Lemma first_pass_app (l1 l2 : list track) :
  forall st,
    first_pass fs (l1 ++ l2) st
    = (st' <- first_pass fs l1 st ;; first_pass fs l2 st').
Proof.
  induction l1 as [|t l1 IH]; intros st; [reflexivity|].
  cbn [app first_pass].
  destruct (muted t); [apply IH|].
  destruct (file_path t) as [p|]; [|apply IH].
  destruct ((p =? "")%string || negb (path_exists fs p)); [apply IH|].
  destruct (read_audio_file fs p) as [[audio rate]|e]; cbn [bind];
    [|reflexivity].
  destruct (truediv (Z.of_nat (len audio)) rate); cbn [bind];
    [apply IH | reflexivity].
Qed.

End AudibleTracks.

(** X8: muted tracks and tracks without an existing file take no part in a
    mix.  When no other track is left the call raises "No valid tracks to
    mix"; otherwise it returns what it returns on the list without them. *)
Theorem mix_tracks_audible_only (fs : filesystem) (tracks : list track) :
  tracks <> [] ->
  (filter (audible fs) tracks = [] ->
   mix_tracks fs tracks = Raise no_valid_tracks)
  /\ (filter (audible fs) tracks <> [] ->
      mix_tracks fs tracks = mix_tracks fs (filter (audible fs) tracks)).
Proof.
  intros Hne. unfold mix_tracks, mix_accumulate.
  destruct tracks as [|t tracks]; [contradiction|].
  split.
  - intros H. now rewrite (first_pass_none_audible fs _ _ H).
  - intros H. rewrite first_pass_audible.
    destruct (filter (audible fs) (t :: tracks)) as [|t' rest];
      [contradiction|].
    reflexivity.
Qed.

Lemma mix_tracks_audible_only_witness :
  let muted_long :=
    mk_track true (Some "long.wav"%string) None None true in
  let tracks := [muted_long; Session.plain_short; muted_long] in
  tracks <> []
  /\ filter (audible Session.disk) tracks = [Session.plain_short]
  /\ mix_tracks Session.disk tracks
     = mix_tracks Session.disk [Session.plain_short].
Proof.
  intros muted_long tracks.
  assert (Hne : tracks <> []) by discriminate.
  split; [exact Hne|]. split; [reflexivity|].
  destruct (mix_tracks_audible_only Session.disk tracks Hne) as [_ H].
  apply H. discriminate.
Defined.

(** X9: an error of [soundfile.read] is not recovered: when a track that is
    not muted and whose file exists cannot be read, and the tracks before it
    were skipped or read, [mix_tracks] raises the error of the read, whatever
    the other tracks are. *)
Theorem mix_tracks_read_error
        (fs : filesystem) (before after : list track) (t : track)
        (tds : list track_data) (path : string) (e : exn) :
  survivors fs before tds ->
  muted t = false ->
  file_path t = Some path ->
  (path =? "")%string = false ->
  path_exists fs path = true ->
  sf_read fs path = Raise e ->
  mix_tracks fs (before ++ t :: after) = Raise e.
Proof.
  intros Hs Hm Hp Hne Hx Hr. unfold mix_tracks, mix_accumulate.
  destruct (before ++ t :: after) as [|t0 rest] eqn:E.
  - destruct before; discriminate.
  - rewrite <- E, first_pass_app.
    rewrite (first_pass_survivors fs before tds Hs). cbn [bind first_pass].
    rewrite Hm, Hp, Hne, Hx. cbn [negb orb].
    unfold read_audio_file. rewrite Hr. reflexivity.
Qed.

Lemma mix_tracks_read_error_witness :
  let fs :=
    mk_filesystem
      (fun _ => true)
      (fun path => if (path =? "broken.wav")%string
                   then Raise (LibsndfileError "Format not recognised")
                   else Ok (Mono [1%R], 44100)) in
  let good := mk_track false (Some "good.wav"%string) None None false in
  let bad := mk_track false (Some "broken.wav"%string) None None false in
  mix_tracks fs ([good] ++ bad :: [good])
  = Raise (LibsndfileError "Format not recognised").
Proof.
  intros fs good bad.
  apply (mix_tracks_read_error fs [good] [good] bad
           [mk_track_data (Mono [1%R]) 44100 (100 / 100)%R 0%R false]
           "broken.wav"); try reflexivity.
  apply survivors_read; [|apply survivors_nil].
  unfold loads. split; [reflexivity|]. split.
  - exists "good.wav"%string. repeat split; reflexivity.
  - repeat split; try reflexivity. intros E; inversion E.
Defined.

(* ------------------------------------------------------------------ *)
(** ** The mixer: level of the result *)

Section MixLevel.

Lemma ln_10_pos : (0 < ln 10)%R.
Proof. rewrite <- ln_1. apply ln_increasing; lra. Qed.


(** The peak of a normalised buffer. *)
Lemma normalize_result_peak (a r : ndarray) (target_db : R) :
  normalize_audio a target_db = Ok r ->
  abs_peak r = Ok (Rpower 10 (target_db / 20))
  \/ (r = a /\ abs_peak a = Ok 0%R).
Proof.
  unfold normalize_audio.
  destruct (abs_peak a) as [p|e] eqn:Hp; cbn [bind]; [|discriminate].
  destruct (Req_dec_T p 0) as [E | E]; intros [= <-].
  - right. subst p. now split.
  - left. pose proof (amax_abs_nonneg _ _ Hp) as Hpos.
    pose proof (Rpower_10_pos (target_db / 20)) as Ht.
    rewrite (abs_peak_scale a _ p) by
        (try assumption; apply Rlt_le, Rdiv_lt_0_compat; lra).
    f_equal. field. lra.
Qed.


End MixLevel.



(* ------------------------------------------------------------------ *)
(** ** [trim_silence]: what is cut away *)

Section TrimSilence.

Variable threshold : R.

Lemma first_above_none (l : list R) (i : Z) :
  first_above threshold l i = None <->
  forall x, In x l -> ~ (x > threshold)%R.
Proof.
  revert i. induction l as [|x l IH]; intros i; simpl.
  - split; [intros _ y [] | reflexivity].
  - destruct (Rgt_dec x threshold) as [Hx | Hx].
    + split; [discriminate | intros H; exfalso; apply (H x); auto].
    + rewrite IH. split.
      * intros H y [<- | Hy]; auto.
      * intros H y Hy. apply H. now right.
Qed.

Lemma first_above_some (l : list R) (i j : Z) :
  first_above threshold l i = Some j ->
  i <= j < i + Z.of_nat (length l)
  /\ (nth (Z.to_nat (j - i)) l 0 > threshold)%R
  /\ forall k, (k < Z.to_nat (j - i))%nat -> ~ (nth k l 0 > threshold)%R.
Proof.
  revert i. induction l as [|x l IH]; intros i; simpl; [discriminate|].
  destruct (Rgt_dec x threshold) as [Hx | Hx].
  - intros [= <-]. rewrite Z.sub_diag. simpl.
    split; [lia|]. split; [exact Hx|]. intros k Hk. lia.
  - intros H. apply IH in H. destruct H as (Hr & Hn & Hb).
    assert (E : Z.to_nat (j - i) = S (Z.to_nat (j - (i + 1)))) by lia.
    rewrite E. split; [lia|]. split; [exact Hn|].
    intros [|k] Hk; [exact Hx|]. apply Hb. lia.
Qed.

(** The backward scan finds the last frame above the threshold. *)
Lemma last_above_some (l : list R) (j : Z) :
  last_above threshold l = Some j ->
  0 <= j < Z.of_nat (length l)
  /\ (nth (Z.to_nat j) l 0 > threshold)%R
  /\ forall k, (Z.to_nat j < k < length l)%nat -> ~ (nth k l 0 > threshold)%R.
Proof.
  unfold last_above.
  destruct (first_above threshold (rev l) 0) as [j'|] eqn:E; [|discriminate].
  intros [= <-]. apply first_above_some in E.
  rewrite length_rev, Z.sub_0_r in E. destruct E as (Hr & Hn & Hb).
  repeat split; try lia.
  - rewrite rev_nth in Hn by lia.
    replace (Z.to_nat (Z.of_nat (length l) - 1 - j'))
      with (length l - S (Z.to_nat j'))%nat by lia. exact Hn.
  - intros k Hk.
    specialize (Hb (length l - S k)%nat).
    rewrite rev_nth in Hb by lia.
    replace (length l - S (length l - S k))%nat with k in Hb by lia.
    apply Hb. lia.
Qed.

Lemma last_above_none (l : list R) :
  last_above threshold l = None <->
  forall x, In x l -> ~ (x > threshold)%R.
Proof.
  unfold last_above.
  destruct (first_above threshold (rev l) 0) as [j'|] eqn:E.
  - split; [discriminate|]. intros H. exfalso.
    apply first_above_some in E. destruct E as (Hr & Hn & _).
    apply (H (nth (Z.to_nat (j' - 0)) (rev l) 0%R)); [|exact Hn].
    apply in_rev. apply nth_In. lia.
  - split; [|reflexivity]. intros _ x Hx.
    apply (proj1 (first_above_none (rev l) 0) E). now apply in_rev in Hx.
Qed.

End TrimSilence.

Section TrimResult.

Lemma frame_levels_length (a : ndarray) : length (frame_levels a) = len a.
Proof.
  unfold frame_levels. rewrite length_map.
  destruct a as [s|s]; simpl; [reflexivity | apply length_map].
Qed.

Lemma slice_firstn_skipn (A : Type) (l : list A) (s e : Z) :
  0 <= s <= Z.of_nat (length l) -> 0 <= e <= Z.of_nat (length l) ->
  slice l s e = firstn (Z.to_nat e - Z.to_nat s) (skipn (Z.to_nat s) l).
Proof.
  intros Hs He. unfold slice, slice_index.
  destruct (Z.ltb_spec s 0) as [H|_]; [lia|].
  destruct (Z.ltb_spec e 0) as [H|_]; [lia|].
  rewrite !Nat.min_l by lia. reflexivity.
Qed.

(** The frames that [trim_silence] returns, by its two indices. *)
Lemma trim_silence_slice (a : ndarray) (threshold : R)
      (min_silence_duration : Q) (sample_rate : Z) (s e : Z) :
  match first_above threshold (frame_levels a) 0 with
  | Some i => Z.max 0 (i - int (min_silence_duration * inject_Z sample_rate))
  | None => 0
  end = s ->
  match last_above threshold (frame_levels a) with
  | Some i => Z.min (Z.of_nat (len a))
                    (i + int (min_silence_duration * inject_Z sample_rate))
  | None => Z.of_nat (len a)
  end = e ->
  0 <= s <= Z.of_nat (len a) -> 0 <= e <= Z.of_nat (len a) ->
  trim_silence a threshold min_silence_duration sample_rate
  = Ok (take (Z.to_nat e - Z.to_nat s) (drop (Z.to_nat s) a)).
Proof.
  intros Es Ee Hs He. unfold trim_silence.
  fold (frame_levels a). rewrite (frame_levels_length a), Es, Ee.
  destruct a as [l|l]; cbn [take drop len] in *;
    now rewrite slice_firstn_skipn.
Qed.

Lemma loud_first (a : ndarray) (threshold : R) (i : Z) :
  first_above threshold (frame_levels a) 0 = Some i ->
  0 <= i < Z.of_nat (len a)
  /\ loud threshold a (Z.to_nat i)
  /\ forall k, (k < Z.to_nat i)%nat -> ~ loud threshold a k.
Proof.
  intros H. apply first_above_some in H.
  rewrite frame_levels_length, Z.sub_0_r in H. destruct H as (Hr & Hn & Hb).
  split; [lia|]. split.
  - split; [lia | exact Hn].
  - intros k Hk [_ Hl]. now apply (Hb k).
Qed.

Lemma loud_last (a : ndarray) (threshold : R) (j : Z) :
  last_above threshold (frame_levels a) = Some j ->
  0 <= j < Z.of_nat (len a)
  /\ loud threshold a (Z.to_nat j)
  /\ forall k, (Z.to_nat j < k)%nat -> ~ loud threshold a k.
Proof.
  intros H. apply last_above_some in H.
  rewrite frame_levels_length in H. destruct H as (Hr & Hn & Hb).
  split; [lia|]. split.
  - split; [lia | exact Hn].
  - intros k Hk [Hlen Hl]. apply (Hb k); [lia | exact Hl].
Qed.

Lemma loud_none (a : ndarray) (threshold : R) :
  (forall x, In x (frame_levels a) -> ~ (x > threshold)%R) <->
  forall i, ~ loud threshold a i.
Proof.
  split.
  - intros H i [Hlen Hl]. apply (H (nth i (frame_levels a) 0%R)); [|exact Hl].
    apply nth_In. now rewrite frame_levels_length.
  - intros H x Hx Hgt. destruct (In_nth _ _ 0%R Hx) as (i & Hi & E).
    apply (H i). split; [now rewrite <- frame_levels_length|].
    now rewrite E.
Qed.

(** Both scans find a frame as soon as one frame is loud, the first and the
    last loud frame. *)
Lemma loud_scans (a : ndarray) (threshold : R) (k : nat) :
  loud threshold a k ->
  exists i j,
    first_above threshold (frame_levels a) 0 = Some (Z.of_nat i)
    /\ last_above threshold (frame_levels a) = Some (Z.of_nat j)
    /\ (i <= k <= j)%nat /\ (j < len a)%nat
    /\ loud threshold a i /\ loud threshold a j
    /\ (forall n, (n < i)%nat -> ~ loud threshold a n)
    /\ (forall n, (j < n)%nat -> ~ loud threshold a n).
Proof.
  intros Hk.
  destruct (first_above threshold (frame_levels a) 0) as [i|] eqn:Ef.
  2:{ exfalso.
      pose proof (proj1 (first_above_none _ _ _) Ef) as Hs.
      now apply (proj1 (loud_none a threshold) Hs k). }
  destruct (last_above threshold (frame_levels a)) as [j|] eqn:El.
  2:{ exfalso.
      pose proof (proj1 (last_above_none _ _) El) as Hs.
      now apply (proj1 (loud_none a threshold) Hs k). }
  destruct (loud_first _ _ _ Ef) as (Hi & Li & Bi).
  destruct (loud_last _ _ _ El) as (Hj & Lj & Bj).
  exists (Z.to_nat i), (Z.to_nat j).
  rewrite !Z2Nat.id by lia.
  split; [reflexivity|]. split; [reflexivity|]. split.
  { split.
    - destruct (Nat.le_gt_cases (Z.to_nat i) k) as [H|H]; [exact H|].
      exfalso. now apply (Bi k).
    - destruct (Nat.le_gt_cases k (Z.to_nat j)) as [H|H]; [exact H|].
      exfalso. now apply (Bj k). }
  split; [lia|]. auto.
Qed.

End TrimResult.

Lemma trim_silence_no_loud (a : ndarray) (threshold : R)
      (min_silence_duration : Q) (sample_rate : Z) :
  (forall i, ~ loud threshold a i) ->
  trim_silence a threshold min_silence_duration sample_rate = Ok a.
Proof.
  intros H0. pose proof (proj2 (loud_none a threshold) H0) as H.
  rewrite (trim_silence_slice a threshold min_silence_duration sample_rate
             0 (Z.of_nat (len a))); try lia.
  - rewrite Nat2Z.id, Nat.sub_0_r.
    destruct a as [l|l]; cbn [take drop len skipn]; now rewrite firstn_all.
  - now rewrite (proj2 (first_above_none threshold _ 0) H).
  - now rewrite (proj2 (last_above_none threshold _) H).
Qed.

(** X11: what [trim_silence] keeps.  A buffer without a frame above the
    threshold is returned as it is, whatever the margin.  With a margin of at
    least one sample, [trim_silence] removes silence only, and only at the
    two ends: the result is the run of frames from an index [s] to an index
    [e] of the input, and every frame above the threshold lies in that
    run. *)
Theorem trim_silence_keeps_sound (a : ndarray) (threshold : R)
        (min_silence_duration : Q) (sample_rate : Z) :
  ((forall i, ~ loud threshold a i) ->
   trim_silence a threshold min_silence_duration sample_rate = Ok a)
  /\ (1 <= int (min_silence_duration * inject_Z sample_rate) ->
      exists s e,
        (s <= e <= len a)%nat
        /\ trim_silence a threshold min_silence_duration sample_rate
           = Ok (take (e - s) (drop s a))
        /\ forall i, loud threshold a i -> (s <= i < e)%nat).
Proof.
  split; [apply trim_silence_no_loud|].
  intros Hm.
  assert (Hcases : (exists k, loud threshold a k)
                   \/ forall k, ~ loud threshold a k).
  { destruct (first_above threshold (frame_levels a) 0) as [i|] eqn:Ef.
    - left. exists (Z.to_nat i). now apply loud_first.
    - right. apply loud_none. exact (proj1 (first_above_none _ _ _) Ef). }
  destruct Hcases as [[k Hk] | Hnone].
  - destruct (loud_scans a threshold k Hk)
      as (i & j & Ef & El & Hikj & Hj & _ & _ & Bi & Bj).
    set (m := int (min_silence_duration * inject_Z sample_rate)) in *.
    exists (Z.to_nat (Z.max 0 (Z.of_nat i - m))),
           (Z.to_nat (Z.min (Z.of_nat (len a)) (Z.of_nat j + m))).
    split; [lia|]. split.
    + apply trim_silence_slice; try lia.
      * now rewrite Ef.
      * now rewrite El.
    + intros n Hn.
      assert (Hin : (i <= n)%nat).
      { destruct (Nat.le_gt_cases i n) as [Hc|Hc]; [exact Hc|].
        exfalso. now apply (Bi n). }
      assert (Hnj : (n <= j)%nat).
      { destruct (Nat.le_gt_cases n j) as [Hc|Hc]; [exact Hc|].
        exfalso. now apply (Bj n). }
      lia.
  - exists 0%nat, (len a). split; [lia|]. split.
    + rewrite Nat.sub_0_r.
      replace (take (len a) (drop 0 a)) with a.
      * apply trim_silence_no_loud. exact Hnone.
      * destruct a as [l|l]; cbn [take drop len skipn]; now rewrite firstn_all.
    + intros i Hi. exfalso. now apply (Hnone i).
Qed.

Lemma trim_silence_keeps_sound_witness :
  trim_silence (Mono [0; 0; 0]%R) 1 (1 # 2) 44100 = Ok (Mono [0; 0; 0]%R)
  /\ exists s e,
       (s <= e <= 3)%nat
       /\ trim_silence (Mono [0; 1; 0]%R) (1 / 2) (1 # 1) 1
          = Ok (take (e - s) (drop s (Mono [0; 1; 0]%R)))
       /\ forall i, loud (1 / 2) (Mono [0; 1; 0]%R) i -> (s <= i < e)%nat.
Proof.
  split.
  - apply (proj1 (trim_silence_keeps_sound (Mono [0; 0; 0]%R) 1 (1 # 2) 44100)).
    intros i [Hlen Hl]. cbn [len length] in Hlen.
    destruct i as [|[|[|i]]]; cbn in Hl; try lia;
      rewrite Rabs_R0 in Hl; lra.
  - apply (proj2 (trim_silence_keeps_sound (Mono [0; 1; 0]%R) (1 / 2)
                    (1 # 1) 1)).
    vm_compute. discriminate.
Defined.

(** X12: with a margin of zero samples ([min_silence_duration * sample_rate]
    below one), [trim_silence] cuts the last frame above the threshold:
    the result runs from the first loud frame up to, but not including, the
    last loud frame. *)
Theorem trim_silence_zero_margin (a : ndarray) (threshold : R)
        (min_silence_duration : Q) (sample_rate : Z) (last : nat) :
  int (min_silence_duration * inject_Z sample_rate) = 0 ->
  loud threshold a last ->
  (forall k, (last < k)%nat -> ~ loud threshold a k) ->
  exists first,
    (first <= last)%nat
    /\ loud threshold a first
    /\ (forall k, (k < first)%nat -> ~ loud threshold a k)
    /\ trim_silence a threshold min_silence_duration sample_rate
       = Ok (take (last - first) (drop first a)).
Proof.
  intros Hm Hlast Hafter.
  destruct (loud_scans a threshold last Hlast)
    as (i & j & Ef & El & Hikj & Hj & Li & Lj & Bi & Bj).
  assert (j = last).
  { destruct (Nat.le_gt_cases j last) as [H|H]; [lia|].
    exfalso. now apply (Hafter j). }
  subst j. exists i.
  split; [lia|]. split; [exact Li|]. split; [exact Bi|].
  rewrite (trim_silence_slice a threshold min_silence_duration sample_rate
             (Z.of_nat i) (Z.of_nat last)); try lia.
  - now rewrite !Nat2Z.id.
  - rewrite Ef, Hm. lia.
  - rewrite El, Hm. lia.
Qed.

Lemma trim_silence_zero_margin_witness :
  exists first,
    (first <= 1)%nat
    /\ loud (1 / 2) (Mono [0; 1; 0]%R) first
    /\ (forall k, (k < first)%nat -> ~ loud (1 / 2) (Mono [0; 1; 0]%R) k)
    /\ trim_silence (Mono [0; 1; 0]%R) (1 / 2) 0 44100
       = Ok (take (1 - first) (drop first (Mono [0; 1; 0]%R))).
Proof.
  apply (trim_silence_zero_margin (Mono [0; 1; 0]%R) (1 / 2) 0 44100 1).
  - reflexivity.
  - split; [cbn; lia|]. cbn. rewrite Rabs_R1. lra.
  - intros k Hk [Hlen Hl]. cbn [len length] in Hlen.
    destruct k as [|[|[|k]]]; try lia.
    cbn in Hl. rewrite Rabs_R0 in Hl. lra.
Defined.

(* ------------------------------------------------------------------ *)
(** ** [apply_fade]: the gains of the two curves *)

Section FadeGains.

Lemma attenuated_refl (x : R) : attenuated x x.
Proof. exists 1%R. split; lra. Qed.

Lemma attenuated_trans (x y z : R) :
  attenuated x y -> attenuated y z -> attenuated x z.
Proof.
  intros (g & Hg & ->) (h & Hh & ->). exists (g * h)%R. split; [nra | ring].
Qed.

Lemma Forall2_attenuated_refl (l : list R) : Forall2 attenuated l l.
Proof. induction l; constructor; auto using attenuated_refl. Qed.

Lemma Forall2_attenuated_trans (l1 l2 l3 : list R) :
  Forall2 attenuated l1 l2 -> Forall2 attenuated l2 l3 ->
  Forall2 attenuated l1 l3.
Proof.
  intros H. revert l3. induction H as [|x y l1 l2 Hxy H IH]; intros l3 H3.
  - inversion H3. constructor.
  - inversion H3 as [|y' z l2' l3' Hyz H3']; subst.
    constructor; [eapply attenuated_trans; eauto | now apply IH].
Qed.

Lemma zip_with_attenuated (target curve : list R) :
  length curve = length target ->
  (forall g, In g curve -> (0 <= g <= 1)%R) ->
  Forall2 attenuated target (zip_with Rmult target curve).
Proof.
  revert curve. induction target as [|x t IH]; intros [|g c] Hl Hc;
    simpl in *; try discriminate; constructor.
  - exists g. split; [apply Hc; auto | reflexivity].
  - apply IH; [lia | intros; apply Hc; auto].
Qed.

Lemma imul_attenuated (target curve r : list R) :
  (forall g, In g curve -> (0 <= g <= 1)%R) ->
  imul target curve = Ok r -> Forall2 attenuated target r.
Proof.
  intros Hc. unfold imul.
  destruct (Nat.eqb_spec (length curve) (length target)) as [E|_].
  - intros [= <-]. now apply zip_with_attenuated.
  - destruct (Nat.eqb_spec (length curve) 1) as [E|_]; [|discriminate].
    intros [= <-]. destruct curve as [|g [|]]; try discriminate. simpl.
    clear E. induction target; simpl; constructor; auto.
    exists g. split; [apply Hc; simpl; auto | reflexivity].
Qed.

Lemma fade_in_1d_attenuated (k : nat) (curve s r : list R) :
  (forall g, In g curve -> (0 <= g <= 1)%R) ->
  fade_in_1d k curve s = Ok r -> Forall2 attenuated s r.
Proof.
  intros Hc. unfold fade_in_1d.
  destruct (imul (firstn k s) curve) as [faded|] eqn:E; [|discriminate].
  intros [= <-]. rewrite <- (firstn_skipn k s) at 1.
  apply Forall2_app; [|apply Forall2_attenuated_refl].
  eapply imul_attenuated; eauto.
Qed.

Lemma fade_out_1d_attenuated (k : nat) (curve s r : list R) :
  (forall g, In g curve -> (0 <= g <= 1)%R) ->
  fade_out_1d k curve s = Ok r -> Forall2 attenuated s r.
Proof.
  intros Hc. unfold fade_out_1d.
  destruct (imul (skipn (length s - k) s) curve) as [faded|] eqn:E;
    [|discriminate].
  intros [= <-]. rewrite <- (firstn_skipn (length s - k) s) at 1.
  apply Forall2_app; [apply Forall2_attenuated_refl|].
  eapply imul_attenuated; eauto.
Qed.

(** A relation that a per-channel operation establishes sample by sample
    holds between the samples of the two buffers. *)
Lemma on_channels_Forall2 (P : R -> R -> Prop)
      (f : list R -> result (list R)) (a r : ndarray) :
  (forall ch out, f ch = Ok out -> Forall2 P ch out) ->
  on_channels f a = Ok r -> Forall2 P (samples a) (samples r).
Proof.
  intros Hf. destruct a as [s|s]; simpl.
  - destruct (f s) as [out|] eqn:E; [|discriminate].
    intros [= <-]. simpl. now apply Hf.
  - destruct (f (map fst s)) as [c0|] eqn:E0; [|discriminate].
    destruct (f (map snd s)) as [c1|] eqn:E1; [|discriminate].
    intros [= <-]. simpl.
    apply Hf in E0. apply Hf in E1. clear Hf.
    revert c0 c1 E0 E1. induction s as [|[x y] s IH]; intros c0 c1 E0 E1;
      simpl in *.
    + inversion E0. constructor.
    + inversion E0 as [|? x' ? c0' Hx E0']; subst.
      inversion E1 as [|? y' ? c1' Hy E1']; subst.
      simpl. constructor; [exact Hx|]. constructor; [exact Hy|].
      now apply IH.
Qed.

Lemma INR_ratio_unit (i : nat) (num : Z) :
  (i < Z.to_nat num)%nat -> 1 < num ->
  (0 <= INR i * (1 / IZR (num - 1)) <= 1)%R.
Proof.
  intros Hi Hn.
  assert (Hd : (0 < IZR (num - 1))%R) by (apply IZR_lt; lia).
  assert (Hi' : (INR i <= IZR (num - 1))%R).
  { rewrite INR_IZR_INZ. apply IZR_le. lia. }
  pose proof (pos_INR i) as H0.
  replace (INR i * (1 / IZR (num - 1)))%R with (INR i / IZR (num - 1))%R
    by (field; lra).
  split.
  - apply Rmult_le_pos; [exact H0|]. left. now apply Rinv_0_lt_compat.
  - apply (Rmult_le_reg_r (IZR (num - 1))); [exact Hd|].
    replace (INR i / IZR (num - 1) * IZR (num - 1))%R with (INR i)
      by (field; lra).
    lra.
Qed.

Lemma linspace_up_unit (num : Z) (curve : list R) :
  linspace 0 1 num = Ok curve -> forall g, In g curve -> (0 <= g <= 1)%R.
Proof.
  unfold linspace. destruct (Z.ltb_spec num 0); [discriminate|].
  intros [= <-] g Hg. apply in_map_iff in Hg. destruct Hg as (i & <- & Hi).
  apply in_seq in Hi. destruct (Z.eqb_spec num 1); [lra|].
  pose proof (INR_ratio_unit i num) as Hr.
  replace (0 + INR i * ((1 - 0) / IZR (num - 1)))%R
    with (INR i * (1 / IZR (num - 1)))%R by (unfold Rdiv; ring).
  apply Hr; lia.
Qed.

Lemma linspace_down_unit (num : Z) (curve : list R) :
  linspace 1 0 num = Ok curve -> forall g, In g curve -> (0 <= g <= 1)%R.
Proof.
  unfold linspace. destruct (Z.ltb_spec num 0); [discriminate|].
  intros [= <-] g Hg. apply in_map_iff in Hg. destruct Hg as (i & <- & Hi).
  apply in_seq in Hi. destruct (Z.eqb_spec num 1); [lra|].
  pose proof (INR_ratio_unit i num) as Hr.
  replace (1 + INR i * ((0 - 1) / IZR (num - 1)))%R
    with (1 - INR i * (1 / IZR (num - 1)))%R by (unfold Rdiv; ring).
  assert (0 <= INR i * (1 / IZR (num - 1)) <= 1)%R by (apply Hr; lia).
  lra.
Qed.

End FadeGains.

(** X13: [apply_fade] only turns samples down.  When it returns, the result
    has as many samples as the input and every sample of the result is the
    sample of the input at that place times a gain between 0 and 1: no
    sample is amplified or inverted. *)
Theorem apply_fade_attenuates (a r : ndarray)
        (fade_in_duration fade_out_duration : Q) (sample_rate : Z) :
  apply_fade a fade_in_duration fade_out_duration sample_rate = Ok r ->
  Forall2 attenuated (samples a) (samples r).
Proof.
  unfold apply_fade.
  set (ki := int (fade_in_duration * inject_Z sample_rate)).
  set (ko := int (fade_out_duration * inject_Z sample_rate)).
  destruct (if 0 <? ki
            then fade_in_curve <- linspace 0 1 ki ;;
                 on_channels (fade_in_1d (Z.to_nat ki) fade_in_curve) a
            else Ok a) as [r1|] eqn:E1; [|discriminate].
  cbn [bind].
  destruct (if 0 <? ko
            then fade_out_curve <- linspace 1 0 ko ;;
                 on_channels (fade_out_1d (Z.to_nat ko) fade_out_curve) r1
            else Ok r1) as [r2|] eqn:E2; [|discriminate].
  cbn [bind]. intros [= <-].
  apply (Forall2_attenuated_trans _ (samples r1)).
  - destruct (0 <? ki).
    + destruct (linspace 0 1 ki) as [curve|] eqn:Ec; [|discriminate].
      cbn [bind] in E1.
      apply (on_channels_Forall2 attenuated _ _ _
               (fun ch out => fade_in_1d_attenuated _ curve ch out
                                (linspace_up_unit ki curve Ec)) E1).
    + injection E1 as <-. apply Forall2_attenuated_refl.
  - destruct (0 <? ko).
    + destruct (linspace 1 0 ko) as [curve|] eqn:Ec; [|discriminate].
      cbn [bind] in E2.
      apply (on_channels_Forall2 attenuated _ _ _
               (fun ch out => fade_out_1d_attenuated _ curve ch out
                                (linspace_down_unit ko curve Ec)) E2).
    + injection E2 as <-. apply Forall2_attenuated_refl.
Qed.

Lemma apply_fade_attenuates_witness :
  apply_fade (Mono [1; 1; 1; 1]%R) (1 # 2) (1 # 2) 2
  = Ok (Mono [1 * 0; 1; 1; 1 * 1]%R)
  /\ Forall2 attenuated [1; 1; 1; 1]%R [1 * 0; 1; 1; 1 * 1]%R.
Proof.
  assert (H : apply_fade (Mono [1; 1; 1; 1]%R) (1 # 2) (1 # 2) 2
              = Ok (Mono [1 * 0; 1; 1; 1 * 1]%R)) by reflexivity.
  split; [exact H|].
  exact (apply_fade_attenuates _ _ _ _ _ H).
Defined.

(* ------------------------------------------------------------------ *)
(** ** [analyze_audio]: the metrics of a report *)

Section Metrics.

Lemma amax_attained (l : list R) (m : R) : amax l = Ok m -> In m l.
Proof.
  destruct l as [|x l]; simpl; [discriminate|]. intros [= <-].
  revert x. induction l as [|y l IH]; intros x; simpl; [now left|].
  destruct (IH (Rmax x y)) as [E | Hin]; [|now right; right].
  rewrite <- E. unfold Rmax. destruct (Rle_dec x y); auto.
Qed.

Lemma sum_squares_bound (l : list R) (p : R) :
  (forall x, In x l -> (Rabs x <= p)%R) ->
  (0 <= fold_right Rplus 0 (map Rsqr l) <= INR (length l) * (p * p))%R.
Proof.
  induction l as [|x l IH]; intros H.
  - simpl. lra.
  - change (length (x :: l)) with (S (length l)). rewrite S_INR.
    cbn [map fold_right].
    assert (Hx : (Rabs x <= p)%R) by (apply H; now left).
    assert (Hl : (0 <= fold_right Rplus 0 (map Rsqr l)
                  <= INR (length l) * (p * p))%R)
      by (apply IH; intros; apply H; now right).
    assert (Hs : (0 <= Rsqr x <= p * p)%R).
    { split; [apply Rle_0_sqr|].
      rewrite (Rsqr_abs x). unfold Rsqr.
      pose proof (Rabs_pos x). nra. }
    lra.
Qed.

Lemma sum_squares_zero (l : list R) :
  fold_right Rplus 0%R (map Rsqr l) = 0%R -> forall x, In x l -> x = 0%R.
Proof.
  induction l as [|y l IH]; intros H x Hin; [contradiction|].
  cbn [map fold_right] in H.
  assert (H0 : (0 <= fold_right Rplus 0 (map Rsqr l))%R).
  { destruct (sum_squares_bound l (fold_right Rmax 0%R (map Rabs l)))
      as [Hlo _]; [|exact Hlo].
    clear. induction l as [|z l IH]; intros x Hin; [contradiction|].
    cbn [map fold_right]. destruct Hin as [<- | Hin].
    - apply Rmax_l.
    - eapply Rle_trans; [now apply IH | apply Rmax_r]. }
  pose proof (Rle_0_sqr y) as Hy.
  destruct Hin as [<- | Hin].
  - apply Rsqr_0_uniq. lra.
  - apply IH; [lra | exact Hin].
Qed.

Lemma mean_squares_bounds (l : list R) (p : R) :
  l <> [] -> (forall x, In x l -> (Rabs x <= p)%R) ->
  (0 <= mean (map Rsqr l) <= p * p)%R.
Proof.
  intros Hne H. unfold mean. rewrite length_map.
  assert (Hn : (0 < INR (length l))%R).
  { apply lt_0_INR. destruct l; [congruence | simpl; lia]. }
  destruct (sum_squares_bound l p H) as [Hlo Hhi].
  split.
  - apply Rmult_le_pos; [exact Hlo | left; now apply Rinv_0_lt_compat].
  - apply (Rmult_le_reg_r (INR (length l))); [exact Hn|].
    replace (fold_right Rplus 0 (map Rsqr l) / INR (length l)
             * INR (length l))%R
      with (fold_right Rplus 0 (map Rsqr l))%R by (field; lra).
    lra.
Qed.

(** The root mean square of a buffer lies between 0 and its peak. *)
Lemma rms_le_peak (l : list R) (peak : R) :
  amax (map Rabs l) = Ok peak ->
  (0 <= sqrt (mean (map Rsqr l)) <= peak)%R.
Proof.
  intros Hp. split; [apply sqrt_pos|].
  assert (Hne : l <> []) by (intros ->; discriminate).
  assert (H0 : (0 <= peak)%R) by (eapply amax_abs_nonneg; eauto).
  destruct (mean_squares_bounds l peak Hne) as [_ Hhi].
  { intros x Hx. apply (amax_upper _ _ _ Hp). now apply in_map. }
  rewrite <- (sqrt_square peak H0). now apply sqrt_le_1_alt.
Qed.

(** A buffer whose root mean square is zero has peak zero. *)
Lemma rms_zero_peak (l : list R) (peak : R) :
  amax (map Rabs l) = Ok peak ->
  sqrt (mean (map Rsqr l)) = 0%R -> peak = 0%R.
Proof.
  intros Hp Hr.
  assert (Hne : l <> []) by (intros ->; discriminate).
  assert (H0 : (0 <= peak)%R) by (eapply amax_abs_nonneg; eauto).
  destruct (mean_squares_bounds l peak Hne) as [Hlo _].
  { intros x Hx. apply (amax_upper _ _ _ Hp). now apply in_map. }
  apply sqrt_eq_0 in Hr; [|exact Hlo].
  unfold mean in Hr. rewrite length_map in Hr.
  assert (Hn : (0 < INR (length l))%R).
  { apply lt_0_INR. destruct l; [congruence | simpl; lia]. }
  assert (Hs : fold_right Rplus 0%R (map Rsqr l) = 0%R).
  { apply (Rmult_eq_reg_r (/ INR (length l))).
    - rewrite Rmult_0_l. exact Hr.
    - apply Rgt_not_eq. now apply Rinv_0_lt_compat. }
  apply amax_attained in Hp. apply in_map_iff in Hp.
  destruct Hp as (x & <- & Hx).
  rewrite (sum_squares_zero l Hs x Hx). apply Rabs_R0.
Qed.

Lemma Rlog_10_le (x y : R) :
  (0 < x)%R -> (x <= y)%R -> (20 * Rlog 10 x <= 20 * Rlog 10 y)%R.
Proof.
  intros Hx Hxy. unfold Rlog.
  assert (Hl : (ln x <= ln y)%R).
  { destruct Hxy as [Hlt | ->]; [left; apply ln_increasing; lra | lra]. }
  pose proof ln_10_pos as H10.
  apply Rmult_le_compat_l; [lra|].
  apply Rmult_le_compat_r; [left; now apply Rinv_0_lt_compat | exact Hl].
Qed.

Lemma Rlog_10_div (x y : R) :
  (0 < x)%R -> (0 < y)%R ->
  (20 * Rlog 10 (x / y) = 20 * Rlog 10 x - 20 * Rlog 10 y)%R.
Proof.
  intros Hx Hy. unfold Rlog.
  replace (x / y)%R with (x * / y)%R by reflexivity.
  rewrite ln_mult by (auto using Rinv_0_lt_compat).
  rewrite ln_Rinv by assumption.
  pose proof ln_10_pos as H10. field. lra.
Qed.

Lemma Rlog_10_Rpower (x : R) : (20 * Rlog 10 (Rpower 10 (x / 20)) = x)%R.
Proof.
  unfold Rlog. rewrite ln_Rpower.
  pose proof ln_10_pos as H10. field. lra.
Qed.

Lemma count_clipped_le (f : R -> bool) (l : list R) :
  (length (filter f l) <= length l)%nat.
Proof.
  induction l as [|x l IH]; simpl; [lia|]. destruct (f x); simpl; lia.
Qed.

Lemma count_positive_iff (f : R -> bool) (l : list R) :
  (0 < length (filter f l))%nat <-> exists x, In x l /\ f x = true.
Proof.
  split.
  - destruct (filter f l) as [|x l'] eqn:E; simpl; [lia|]. intros _.
    assert (Hin : In x (filter f l)) by (rewrite E; now left).
    apply filter_In in Hin. now exists x.
  - intros (x & Hin & Hf).
    assert (Hx : In x (filter f l)) by (apply filter_In; auto).
    destruct (filter f l); [contradiction | simpl; lia].
Qed.

End Metrics.

Section Report.

Lemma mono_mean_length (a : ndarray) : length (mono_mean a) = len a.
Proof. destruct a as [s|s]; simpl; [reflexivity | apply length_map]. Qed.

(** The fields of a report, from the two values that can fail. *)
Lemma analyze_audio_report (a : ndarray) (sample_rate : Z) (m : analysis) :
  analyze_audio a sample_rate = Ok m ->
  exists duration peak,
    truediv (Z.of_nat (len a)) sample_rate = Ok duration
    /\ amax (map Rabs (mono_mean a)) = Ok peak
    /\ an_duration m = duration
    /\ an_peak m = peak
    /\ an_rms m = sqrt (mean (map Rsqr (mono_mean a)))
    /\ an_peak_db m = to_db (an_peak m) (-100)
    /\ an_rms_db m = to_db (an_rms m) (-100)
    /\ an_crest_factor m
       = (if Rgt_dec (an_rms m) 0 then an_peak m / an_rms m else 0)%R
    /\ an_crest_factor_db m = to_db (an_crest_factor m) 0
    /\ an_clipped_samples m
       = Z.of_nat (length (filter (fun x => if Rge_dec (Rabs x) (999 / 1000)
                                            then true else false)
                                  (mono_mean a)))
    /\ an_clipping_percentage m
       = (INR (Z.to_nat (an_clipped_samples m)) / INR (len a) * 100)%R
    /\ an_sample_rate m = sample_rate
    /\ an_num_samples m = Z.of_nat (len a).
Proof.
  unfold analyze_audio. rewrite mono_mean_length.
  destruct (truediv (Z.of_nat (len a)) sample_rate) as [d|e]; cbn [bind];
    [|discriminate].
  destruct (amax (map Rabs (mono_mean a))) as [p|e]; cbn [bind];
    [|discriminate].
  intros [= <-]. exists d, p. cbn.
  rewrite Nat2Z.id. repeat split; reflexivity.
Qed.

End Report.

(** X14: [analyze_audio] fails in two cases only, and in this order: a
    sample rate of 0 raises [ZeroDivisionError], also on an empty buffer;
    with another rate an empty buffer raises numpy's [ValueError].  On every
    non-empty buffer with a rate other than 0 it returns a report whose
    [num_samples] is the frame count, whose [sample_rate] is the argument and
    whose [duration] is their quotient. *)
Theorem analyze_audio_defined (a : ndarray) (sample_rate : Z) :
  (sample_rate = 0 ->
   exists msg, analyze_audio a sample_rate = Raise (ZeroDivisionError msg))
  /\ (sample_rate <> 0 -> len a = 0%nat ->
      exists msg, analyze_audio a sample_rate = Raise (ValueError msg))
  /\ (sample_rate <> 0 -> (0 < len a)%nat ->
      exists m,
        analyze_audio a sample_rate = Ok m
        /\ an_num_samples m = Z.of_nat (len a)
        /\ an_sample_rate m = sample_rate
        /\ an_duration m
           = (inject_Z (Z.of_nat (len a)) / inject_Z sample_rate)%Q).
Proof.
  unfold analyze_audio, truediv. rewrite mono_mean_length.
  split; [|split].
  - intros ->. cbn. eexists; reflexivity.
  - intros Hr Hl. destruct (Z.eqb_spec sample_rate 0); [contradiction|].
    cbn [bind].
    destruct (mono_mean a) as [|x l] eqn:E.
    + cbn. eexists; reflexivity.
    + exfalso. rewrite <- mono_mean_length, E in Hl. discriminate.
  - intros Hr Hl. destruct (Z.eqb_spec sample_rate 0); [contradiction|].
    cbn [bind].
    destruct (mono_mean a) as [|x l] eqn:E.
    + exfalso. rewrite <- mono_mean_length, E in Hl. simpl in Hl. lia.
    + cbn [map amax bind]. eexists. split; [reflexivity|].
      cbn. repeat split; reflexivity.
Qed.

Lemma analyze_audio_defined_witness :
  (exists msg,
      analyze_audio (Mono [1]%R) 0 = Raise (ZeroDivisionError msg))
  /\ (exists msg, analyze_audio (Mono []) 44100 = Raise (ValueError msg))
  /\ (exists m, analyze_audio (Mono [1]%R) 44100 = Ok m
                /\ an_num_samples m = 1).
Proof.
  split; [|split].
  - apply (proj1 (analyze_audio_defined (Mono [1]%R) 0)). reflexivity.
  - apply (proj1 (proj2 (analyze_audio_defined (Mono []) 44100)));
      [discriminate | reflexivity].
  - destruct (proj2 (proj2 (analyze_audio_defined (Mono [1]%R) 44100)))
      as (m & Hm & Hn & _); [discriminate | simpl; lia |].
    exists m. split; [exact Hm | exact Hn].
Defined.

(** X15: the levels of a report are consistent.  The RMS lies between 0 and
    the peak, and [rms_db] is at most [peak_db].  For a buffer that is not
    silent the crest factor is at least 1 and [crest_factor_db] is
    [peak_db - rms_db]; for a silent buffer the peak is 0, both levels are
    -100 dB and both crest factors are 0. *)
Theorem analyze_audio_levels (a : ndarray) (sample_rate : Z) (m : analysis) :
  analyze_audio a sample_rate = Ok m ->
  (0 <= an_rms m <= an_peak m)%R
  /\ (an_rms_db m <= an_peak_db m)%R
  /\ ((0 < an_rms m)%R ->
      (1 <= an_crest_factor m)%R
      /\ an_crest_factor_db m = (an_peak_db m - an_rms_db m)%R)
  /\ (an_rms m = 0%R ->
      an_peak m = 0%R /\ an_peak_db m = (-100)%R /\ an_rms_db m = (-100)%R
      /\ an_crest_factor m = 0%R /\ an_crest_factor_db m = 0%R).
Proof.
  intros H. destruct (analyze_audio_report a sample_rate m H)
    as (d & p & _ & Hp & _ & Ep & Er & Epd & Erd & Ec & Ecd & _).
  rewrite <- Ep in Hp.
  pose proof (rms_le_peak _ _ Hp) as Hb. rewrite <- Er in Hb.
  assert (Hz : an_rms m = 0%R -> an_peak m = 0%R).
  { intros E. apply (rms_zero_peak _ _ Hp). now rewrite <- Er. }
  rewrite Epd, Erd, Ecd, Ec. unfold to_db.
  split; [exact Hb|].
  destruct (Rgt_dec (an_rms m) 0) as [Hpos | Hnpos].
  - assert (Hpp : (an_peak m > 0)%R) by lra.
    destruct (Rgt_dec (an_peak m) 0) as [_|]; [|contradiction].
    assert (Hcf : (1 <= an_peak m / an_rms m)%R).
    { apply (Rmult_le_reg_r (an_rms m)); [lra|].
      replace (an_peak m / an_rms m * an_rms m)%R with (an_peak m)
        by (field; lra).
      lra. }
    destruct (Rgt_dec (an_peak m / an_rms m) 0) as [_|Hn]; [|lra].
    split; [apply Rlog_10_le; lra|]. split.
    + intros _. split; [exact Hcf | apply Rlog_10_div; lra].
    + intros E. lra.
  - assert (E0 : an_rms m = 0%R) by lra.
    rewrite (Hz E0).
    destruct (Rgt_dec 0 0) as [Hc|_]; [lra|].
    split; [lra|]. split; [intros Hc; lra|].
    intros _. repeat split; reflexivity.
Qed.

Lemma analyze_audio_levels_witness :
  exists m, analyze_audio (Mono [1; -1]%R) 44100 = Ok m
            /\ (0 <= an_rms m <= an_peak m)%R
            /\ (an_rms_db m <= an_peak_db m)%R.
Proof.
  eexists. split; [reflexivity|].
  pose proof (analyze_audio_levels (Mono [1; -1]%R) 44100 _ eq_refl) as H.
  split; [exact (proj1 H) | exact (proj1 (proj2 H))].
Defined.

(** X16: the clipping figures of a report.  [clipped_samples] lies between 0
    and [num_samples], [clipping_percentage] between 0 and 100, and clipping
    is reported exactly when the peak reaches 0.999. *)
Theorem analyze_audio_clipping (a : ndarray) (sample_rate : Z) (m : analysis) :
  analyze_audio a sample_rate = Ok m ->
  0 <= an_clipped_samples m <= an_num_samples m
  /\ (0 <= an_clipping_percentage m <= 100)%R
  /\ (0 < an_clipped_samples m <-> (999 / 1000 <= an_peak m)%R).
Proof.
  intros H. destruct (analyze_audio_report a sample_rate m H)
    as (d & p & _ & Hp & _ & Ep & _ & _ & _ & _ & _ & Ec & Ecp & _ & En).
  rewrite <- Ep in Hp.
  set (clipped := fun x : R => if Rge_dec (Rabs x) (999 / 1000)
                               then true else false) in *.
  pose proof (count_clipped_le clipped (mono_mean a)) as Hle.
  rewrite mono_mean_length in Hle.
  assert (Hne : (0 < len a)%nat).
  { rewrite <- mono_mean_length.
    destruct (mono_mean a); [discriminate | simpl; lia]. }
  split; [lia|]. split.
  - rewrite Ecp, Ec, Nat2Z.id.
    assert (Hn : (0 < INR (len a))%R) by now apply lt_0_INR.
    assert (Hc : (0 <= INR (length (filter clipped (mono_mean a)))
                  <= INR (len a))%R)
      by (split; [apply pos_INR | now apply le_INR]).
    set (c := INR (length (filter clipped (mono_mean a)))) in *.
    assert (Hq : (0 <= c / INR (len a) <= 1)%R).
    { split.
      - apply Rmult_le_pos; [lra | left; now apply Rinv_0_lt_compat].
      - apply (Rmult_le_reg_r (INR (len a))); [exact Hn|].
        replace (c / INR (len a) * INR (len a))%R with c by (field; lra).
        lra. }
    lra.
  - rewrite Ec.
    assert (Hiff : (0 < length (filter clipped (mono_mean a)))%nat
                   <-> (999 / 1000 <= an_peak m)%R).
    { rewrite count_positive_iff. split.
      - intros (x & Hin & Hx). unfold clipped in Hx.
        destruct (Rge_dec (Rabs x) (999 / 1000)) as [Hge|]; [|discriminate].
        assert (Rabs x <= an_peak m)%R
          by (apply (amax_upper _ _ _ Hp); now apply in_map).
        lra.
      - intros Hpk. pose proof (amax_attained _ _ Hp) as Hin.
        apply in_map_iff in Hin. destruct Hin as (x & Ex & Hin).
        exists x. split; [exact Hin|]. unfold clipped.
        destruct (Rge_dec (Rabs x) (999 / 1000)) as [|Hn];
          [reflexivity | lra]. }
    rewrite <- Hiff. lia.
Qed.

Lemma analyze_audio_clipping_witness :
  exists m, analyze_audio (Mono [1; -1]%R) 44100 = Ok m
            /\ 0 <= an_clipped_samples m <= an_num_samples m
            /\ (0 <= an_clipping_percentage m <= 100)%R.
Proof.
  eexists. split; [reflexivity|].
  pose proof (analyze_audio_clipping (Mono [1; -1]%R) 44100 _ eq_refl) as H.
  split; [exact (proj1 H) | exact (proj1 (proj2 H))].
Defined.

(** X17: analysing what [normalize_audio] returns for a mono buffer that is
    not silent reports the target of the normalisation: the peak is
    [10 ** (target_db / 20)] and [peak_db] is [target_db]. *)
Theorem analyze_normalized_peak
        (s : list R) (target_db : R) (sample_rate : Z)
        (r : ndarray) (m : analysis) :
  (exists x, In x s /\ x <> 0%R) ->
  normalize_audio (Mono s) target_db = Ok r ->
  analyze_audio r sample_rate = Ok m ->
  an_peak m = Rpower 10 (target_db / 20) /\ an_peak_db m = target_db.
Proof.
  intros (x & Hin & Hx) Hn Ha.
  destruct (analyze_audio_report r sample_rate m Ha)
    as (d & p & _ & Hp & _ & Ep & _ & Epd & _).
  assert (Hr : exists s', r = Mono s').
  { destruct (normalize_gain_pos _ _ _ Hn) as [-> | (g & _ & ->)];
      simpl; eauto. }
  destruct Hr as [s' ->].
  destruct (normalize_result_peak _ _ _ Hn) as [Hpk | [_ Hsilent]].
  - unfold abs_peak in Hpk. cbn [samples mono_mean] in Hpk, Hp.
    rewrite Hpk in Hp. injection Hp as <-.
    split; [exact Ep|].
    rewrite Epd, Ep. unfold to_db.
    destruct (Rgt_dec (Rpower 10 (target_db / 20)) 0) as [_|Hc].
    + apply Rlog_10_Rpower.
    + exfalso. apply Hc. apply Rpower_10_pos.
  - exfalso. apply Hx. now apply (silent_samples _ Hsilent).
Qed.

Lemma analyze_normalized_peak_witness :
  exists r m,
    normalize_audio (Mono [1; -1]%R) (-6) = Ok r
    /\ analyze_audio r 44100 = Ok m
    /\ an_peak_db m = (-6)%R.
Proof.
  destruct (normalize_audio (Mono [1; -1]%R) (-6)) as [r|e] eqn:Hn.
  - destruct (analyze_audio r 44100) as [m|e] eqn:Ha.
    + exists r, m. split; [reflexivity|]. split; [exact Ha|].
      refine (proj2 (analyze_normalized_peak [1; -1]%R (-6) 44100 r m
                       _ Hn Ha)).
      exists 1%R. split; [now left | lra].
    + exfalso.
      destruct (normalize_gain_pos _ _ _ Hn) as [-> | (g & _ & ->)];
        discriminate Ha.
  - exfalso. unfold normalize_audio in Hn. cbn in Hn.
    destruct (Req_dec_T _ 0); discriminate.
Defined.

(* ------------------------------------------------------------------ *)
(** ** The three-band EQ *)

Section Equaliser.

Lemma padd_length (a b : list R) :
  length (padd a b) = Nat.max (length a) (length b).
Proof.
  revert b. induction a as [|x a IH]; intros [|y b]; simpl; try reflexivity.
  now rewrite IH.
Qed.

Lemma conv_full_length (a v : list R) :
  a <> [] -> v <> [] ->
  length (conv_full a v) = (length a + length v - 1)%nat.
Proof.
  intros Ha Hv. induction a as [|x a IH]; [congruence|].
  cbn [conv_full]. rewrite padd_length, length_map. cbn [length].
  destruct a as [|y a].
  - simpl. destruct v; [congruence | simpl; lia].
  - rewrite IH by discriminate. cbn [length]. lia.
Qed.

(** [mode='same'] returns as many values as the longer operand has. *)
Lemma convolve_same_length (a v : list R) :
  a <> [] -> v <> [] ->
  exists out, convolve_same a v = Ok out
              /\ length out = Nat.max (length a) (length v).
Proof.
  intros Ha Hv. unfold convolve_same, convolve_full.
  destruct a as [|x a]; [congruence|]. destruct v as [|y v]; [congruence|].
  cbn [bind]. eexists; split; [reflexivity|].
  rewrite length_firstn, length_skipn, conv_full_length by discriminate.
  set (n := Nat.min (length (x :: a)) (length (y :: v))).
  assert (Hd : ((n - 1) / 2 <= n - 1)%nat)
    by (apply Nat.Div0.div_le_upper_bound; lia).
  assert (Hn : (1 <= n)%nat) by (unfold n; simpl; lia).
  unfold n in *. lia.
Qed.

Lemma convolve_same_empty (v : list R) :
  v <> [] -> exists msg, convolve_same [] v = Raise (ValueError msg).
Proof.
  intros Hv. destruct v; [congruence|]. eexists; reflexivity.
Qed.

Lemma window_length (n : nat) (w : R) : length (window n w) = n.
Proof. apply repeat_length. Qed.

Lemma window_nonempty (n : nat) (w : R) : (0 < n)%nat -> window n w <> [].
Proof. destruct n; [lia | discriminate]. Qed.

Lemma broadcast2_same (f : R -> R -> R) (a b : list R) :
  length a = length b -> broadcast2 f a b = Ok (zip_with f a b).
Proof. intros E. unfold broadcast2. now rewrite E, Nat.eqb_refl. Qed.

Lemma broadcast2_raises (f : R -> R -> R) (a b : list R) :
  length a <> length b -> length a <> 1%nat -> length b <> 1%nat ->
  exists msg, broadcast2 f a b = Raise (ValueError msg).
Proof.
  intros H H1 H2. unfold broadcast2.
  destruct (Nat.eqb_spec (length a) (length b)); [contradiction|].
  destruct (Nat.eqb_spec (length a) 1); [contradiction|].
  destruct (Nat.eqb_spec (length b) 1); [contradiction|].
  eexists; reflexivity.
Qed.

Lemma zip_plus_nothing (audio band : list R) :
  (length audio <= length band)%nat ->
  zip_with Rplus audio (map (fun x => x * (1 - 1))%R band) = audio.
Proof.
  revert band. induction audio as [|x a IH]; intros [|y b] H; simpl in *;
    try reflexivity; try lia.
  rewrite IH by lia. f_equal. ring.
Qed.

Lemma low_shelf_sound : band_sound _apply_low_shelf.
Proof.
  intros audio gain Hn. unfold _apply_low_shelf.
  destruct (convolve_same_length audio (window 10 (1 / 10)))
    as (low & -> & Hl); [intros ->; simpl in Hn; lia | discriminate |].
  rewrite window_length, Nat.max_l in Hl by lia. cbn [bind].
  rewrite broadcast2_same by (now rewrite length_map).
  eexists; split; [reflexivity|]. split.
  - rewrite zip_with_length, length_map. lia.
  - intros ->. apply zip_plus_nothing. lia.
Qed.

Lemma high_shelf_sound : band_sound _apply_high_shelf.
Proof.
  intros audio gain Hn. unfold _apply_high_shelf.
  destruct (convolve_same_length audio (window 10 (1 / 10)))
    as (low & -> & Hl); [intros ->; simpl in Hn; lia | discriminate |].
  rewrite window_length, Nat.max_l in Hl by lia. cbn [bind].
  rewrite broadcast2_same by congruence. cbn [bind].
  assert (Hh : length (zip_with Rminus audio low) = length audio)
    by (rewrite zip_with_length; lia).
  rewrite broadcast2_same by (now rewrite length_map).
  eexists; split; [reflexivity|]. split.
  - rewrite zip_with_length, length_map. lia.
  - intros ->. apply zip_plus_nothing. lia.
Qed.

Lemma mid_band_sound : band_sound _apply_mid_band.
Proof.
  intros audio gain Hn. unfold _apply_mid_band.
  destruct (convolve_same_length audio (window 5 (1 / 5)))
    as (low & -> & Hl); [intros ->; simpl in Hn; lia | discriminate |].
  rewrite window_length, Nat.max_l in Hl by lia. cbn [bind].
  destruct (convolve_same_length audio (window (5 * 2) (1 / 5 * 2)))
    as (wide & -> & Hw); [intros ->; simpl in Hn; lia | discriminate |].
  rewrite window_length, Nat.max_l in Hw by (simpl; lia). cbn [bind].
  rewrite (broadcast2_same Rminus audio wide) by congruence. cbn [bind].
  rewrite (broadcast2_same Rminus audio low) by congruence. cbn [bind].
  assert (Hh : length (zip_with Rminus audio wide) = length audio)
    by (rewrite zip_with_length; lia).
  assert (Hm : length (zip_with Rminus audio low) = length audio)
    by (rewrite zip_with_length; lia).
  rewrite broadcast2_same by congruence. cbn [bind].
  assert (Hmid : length (zip_with Rminus (zip_with Rminus audio low)
                                  (zip_with Rminus audio wide))
                 = length audio)
    by (rewrite zip_with_length; lia).
  rewrite broadcast2_same by (now rewrite length_map).
  eexists; split; [reflexivity|]. split.
  - rewrite zip_with_length, length_map. lia.
  - intros ->. apply zip_plus_nothing. lia.
Qed.

(** Below ten samples the moving average of ten samples is longer than the
    channel, and the sum with the channel fails. *)
Lemma wide_window_short (audio : list R) (w : R) :
  (length audio < 10)%nat -> length audio <> 1%nat ->
  (exists msg, convolve_same audio (window 10 w) = Raise (ValueError msg))
  \/ exists low, convolve_same audio (window 10 w) = Ok low
                 /\ length low = 10%nat
                 /\ forall f, exists msg,
                      broadcast2 f audio low = Raise (ValueError msg).
Proof.
  intros Hn H1. destruct audio as [|x audio].
  - left. apply convolve_same_empty. discriminate.
  - right.
    destruct (convolve_same_length (x :: audio) (window 10 w))
      as (low & -> & Hl); [discriminate | discriminate |].
    rewrite window_length, Nat.max_r in Hl by lia.
    exists low. split; [reflexivity|]. split; [exact Hl|].
    intros f. apply broadcast2_raises; lia.
Qed.

Lemma low_shelf_short : band_short _apply_low_shelf.
Proof.
  intros audio gain Hn H1. unfold _apply_low_shelf.
  destruct (wide_window_short audio (1 / 10) Hn H1)
    as [[msg ->] | (low & -> & Hl & Hr)]; cbn [bind].
  - eexists; reflexivity.
  - apply broadcast2_raises; rewrite ?length_map; lia.
Qed.

Lemma high_shelf_short : band_short _apply_high_shelf.
Proof.
  intros audio gain Hn H1. unfold _apply_high_shelf.
  destruct (wide_window_short audio (1 / 10) Hn H1)
    as [[msg ->] | (low & -> & Hl & Hr)]; cbn [bind].
  - eexists; reflexivity.
  - destruct (Hr Rminus) as [msg ->]. eexists; reflexivity.
Qed.

Lemma mid_band_short : band_short _apply_mid_band.
Proof.
  intros audio gain Hn H1. unfold _apply_mid_band.
  destruct audio as [|x audio].
  - eexists; reflexivity.
  - destruct (convolve_same_length (x :: audio) (window 5 (1 / 5)))
      as (low & -> & _); [discriminate | discriminate |].
    cbn [bind].
    destruct (wide_window_short (x :: audio) (1 / 5 * 2) Hn H1)
      as [[msg Hm] | (wide & Hm & Hl & Hr)];
      change (window (5 * 2) (1 / 5 * 2)) with (window 10 (1 / 5 * 2));
      rewrite Hm; cbn [bind].
    + eexists; reflexivity.
    + destruct (Hr Rminus) as [msg ->]. eexists; reflexivity.
Qed.

Lemma assign_column_keeps : keeps_length assign_column.
Proof.
  intros channel filtered E. unfold assign_column.
  now rewrite E, Nat.eqb_refl.
Qed.

Lemma rebind_keeps : keeps_length (fun _ v => Ok v).
Proof. intros channel filtered _. reflexivity. Qed.

Lemma eq_band_sound (band : option R)
      (filter : list R -> R -> result (list R))
      (store : list R -> list R -> result (list R)) (channel : list R) :
  band_sound filter -> keeps_length store -> (10 <= length channel)%nat ->
  exists out, eq_band band filter store channel = Ok out
              /\ length out = length channel
              /\ (band = None \/ band = Some 0%R -> out = channel).
Proof.
  intros Hf Hs Hn. destruct band as [db|]; simpl.
  - destruct (Hf channel (db_to_gain db) Hn) as (out & -> & Hl & Hflat).
    cbn [bind]. rewrite (Hs channel out Hl).
    exists out. split; [reflexivity|]. split; [exact Hl|].
    intros [E | E]; [discriminate|]. injection E as ->. apply Hflat.
    unfold db_to_gain, Rpower.
    replace (0 / 20 * ln 10)%R with 0%R by (unfold Rdiv; ring).
    apply exp_0.
  - exists channel. auto.
Qed.

Lemma eq_band_short (db : R)
      (filter : list R -> R -> result (list R))
      (store : list R -> list R -> result (list R)) (channel : list R) :
  band_short filter -> (length channel < 10)%nat -> length channel <> 1%nat ->
  exists msg, eq_band (Some db) filter store channel = Raise (ValueError msg).
Proof.
  intros Hf Hn H1. simpl.
  destruct (Hf channel (db_to_gain db) Hn H1) as [msg ->].
  eexists; reflexivity.
Qed.

Lemma eq_channel_sound (eq : eq_config)
      (store : list R -> list R -> result (list R)) (channel : list R) :
  keeps_length store -> (10 <= length channel)%nat ->
  exists out, eq_channel eq store channel = Ok out
              /\ length out = length channel
              /\ ((eq_low eq = None \/ eq_low eq = Some 0%R) ->
                  (eq_mid eq = None \/ eq_mid eq = Some 0%R) ->
                  (eq_high eq = None \/ eq_high eq = Some 0%R) ->
                  out = channel).
Proof.
  intros Hs Hn. unfold eq_channel.
  destruct (eq_band_sound (eq_low eq) _ store channel low_shelf_sound Hs Hn)
    as (c1 & -> & L1 & F1). cbn [bind].
  destruct (eq_band_sound (eq_mid eq) _ store c1 mid_band_sound Hs)
    as (c2 & -> & L2 & F2); [lia|]. cbn [bind].
  destruct (eq_band_sound (eq_high eq) _ store c2 high_shelf_sound Hs)
    as (c3 & -> & L3 & F3); [lia|].
  exists c3. split; [reflexivity|]. split; [lia|].
  intros Hl Hm Hh. rewrite (F3 Hh), (F2 Hm), (F1 Hl). reflexivity.
Qed.

Lemma eq_channel_short (eq : eq_config)
      (store : list R -> list R -> result (list R)) (channel : list R) :
  (eq_low eq <> None \/ eq_mid eq <> None \/ eq_high eq <> None) ->
  (length channel < 10)%nat -> length channel <> 1%nat ->
  exists msg, eq_channel eq store channel = Raise (ValueError msg).
Proof.
  intros Hb Hn H1. unfold eq_channel.
  destruct (eq_low eq) as [lo|].
  { destruct (eq_band_short lo _ store channel low_shelf_short Hn H1)
      as [msg ->]. eexists; reflexivity. }
  cbn [eq_band bind].
  destruct (eq_mid eq) as [mi|].
  { destruct (eq_band_short mi _ store channel mid_band_short Hn H1)
      as [msg ->]. eexists; reflexivity. }
  cbn [eq_band bind].
  destruct (eq_high eq) as [hi|].
  { apply eq_band_short; [apply high_shelf_short | exact Hn | exact H1]. }
  exfalso. destruct Hb as [H | [H | H]]; now apply H.
Qed.

End Equaliser.

Section EqStage.

Lemma apply_eq_sound (eq : eq_config) (a : ndarray) :
  (10 <= len a)%nat ->
  exists r, apply_eq eq a = Ok r
            /\ len r = len a
            /\ (flat (eq_low eq) -> flat (eq_mid eq) -> flat (eq_high eq) ->
                r = a).
Proof.
  intros Hn. destruct a as [s|s]; cbn [apply_eq on_channels len] in *.
  - destruct (eq_channel_sound eq (fun _ v => Ok v) s rebind_keeps Hn)
      as (out & -> & Hl & Hflat). cbn [bind].
    eexists; split; [reflexivity|]. split; [exact Hl|].
    intros H1 H2 H3. now rewrite (Hflat H1 H2 H3).
  - destruct (eq_channel_sound eq assign_column (map fst s)
                assign_column_keeps)
      as (c0 & -> & L0 & F0); [now rewrite length_map|]. cbn [bind].
    destruct (eq_channel_sound eq assign_column (map snd s)
                assign_column_keeps)
      as (c1 & -> & L1 & F1); [now rewrite length_map|]. cbn [bind].
    rewrite length_map in L0, L1.
    eexists; split; [reflexivity|]. split.
    + cbn [len]. rewrite length_combine. lia.
    + intros H1 H2 H3. rewrite (F0 H1 H2 H3), (F1 H1 H2 H3).
      now rewrite combine_fst_snd.
Qed.

Lemma apply_eq_short (eq : eq_config) (a : ndarray) :
  (eq_low eq <> None \/ eq_mid eq <> None \/ eq_high eq <> None) ->
  (len a < 10)%nat -> len a <> 1%nat ->
  exists msg, apply_eq eq a = Raise (ValueError msg).
Proof.
  intros Hb Hn H1. destruct a as [s|s]; cbn [apply_eq len] in *;
    apply on_channels_raises; intros ch Hch; cbn [len] in Hch;
    apply eq_channel_short; auto; lia.
Qed.

End EqStage.

(** X18: on a buffer of ten frames or more the EQ of [apply_simple_effects]
    returns a buffer with the same number of frames, and an EQ whose bands
    are absent or set to 0 dB returns the buffer as it is. *)
Theorem eq_stage_long_buffer
        (noise : nat -> R) (a : ndarray) (eq : eq_config) :
  (10 <= len a)%nat ->
  exists r,
    apply_simple_effects noise a (mk_effects (Some eq) None None None) = Ok r
    /\ len r = len a
    /\ (flat (eq_low eq) -> flat (eq_mid eq) -> flat (eq_high eq) -> r = a).
Proof.
  intros Hn. unfold apply_simple_effects, reverb_stage, delay_stage.
  cbn [fx_eq fx_reverb fx_delay fx_normalize].
  destruct (apply_eq_sound eq a Hn) as (r & -> & Hl & Hflat).
  cbn [bind]. exists r. auto.
Qed.

Lemma eq_stage_long_buffer_witness :
  exists r,
    apply_simple_effects Session.noise_flat
      (Mono (repeat 1%R 12))
      (mk_effects (Some (mk_eq (Some 0%R) None (Some 0%R))) None None None)
    = Ok r
    /\ r = Mono (repeat 1%R 12).
Proof.
  destruct (eq_stage_long_buffer Session.noise_flat (Mono (repeat 1%R 12))
              (mk_eq (Some 0%R) None (Some 0%R)))
    as (r & Hr & _ & Hflat); [simpl; lia|].
  exists r. split; [exact Hr|].
  apply Hflat; [now right | now left | now right].
Defined.

(** X19: on a buffer of fewer than ten frames, a single frame apart, an EQ
    with at least one band makes [apply_simple_effects] raise numpy's
    [ValueError], whatever the other effects are: the moving average over ten
    samples is longer than the buffer. *)
Theorem eq_stage_short_buffer
        (noise : nat -> R) (a : ndarray) (eq : eq_config)
        (reverb : option reverb_config) (delay : option delay_config)
        (normalize : option bool) :
  (eq_low eq <> None \/ eq_mid eq <> None \/ eq_high eq <> None) ->
  (len a < 10)%nat -> len a <> 1%nat ->
  exists msg,
    apply_simple_effects noise a (mk_effects (Some eq) reverb delay normalize)
    = Raise (ValueError msg).
Proof.
  intros Hb Hn H1. unfold apply_simple_effects. cbn [fx_eq].
  destruct (apply_eq_short eq a Hb Hn H1) as [msg ->].
  exists msg. reflexivity.
Qed.

Lemma eq_stage_short_buffer_witness :
  exists msg,
    apply_simple_effects Session.noise_flat (Stereo [(1, 1); (1, 1); (1, 1)]%R)
      (mk_effects (Some (mk_eq None (Some 3%R) None)) None None (Some true))
    = Raise (ValueError msg).
Proof.
  apply (eq_stage_short_buffer Session.noise_flat
           (Stereo [(1, 1); (1, 1); (1, 1)]%R) (mk_eq None (Some 3%R) None)).
  - right; left. discriminate.
  - simpl. lia.
  - simpl. lia.
Defined.

(* ------------------------------------------------------------------ *)
(** ** Reverb and delay: when they fail, and the shape of the result *)

Section ReverbShape.

Lemma int_nonneg (q : Q) : (0 <= q)%Q -> 0 <= int q.
Proof.
  intros H. rewrite int_Qfloor by exact H.
  change 0 with (Qfloor 0). now apply Qfloor_resp_le.
Qed.

Lemma impulse_length_nonneg (decay : Q) :
  (0 < decay)%Q -> 0 <= int (decay * 48000).
Proof. intros H. apply int_nonneg. lra. Qed.

(** The impulse response has [impulse_length] taps. *)
Lemma impulse_taps (noise : nat -> R) (n : Z) :
  0 <= n ->
  exists drawn grid,
    random_random noise n = Ok drawn /\ linspace 0 10 n = Ok grid
    /\ length drawn = Z.to_nat n /\ length grid = Z.to_nat n.
Proof.
  intros Hn. unfold random_random, linspace.
  destruct (Z.ltb_spec n 0); [lia|].
  do 2 eexists. split; [reflexivity|]. split; [reflexivity|].
  now rewrite !length_map, !length_seq.
Qed.

Lemma reverb_channel_ok (impulse channel : list R) (n : nat) (wet : R) :
  impulse <> [] -> channel <> [] -> length channel = n ->
  exists out,
    (full <- convolve_full channel impulse ;;
     broadcast2 Rplus (map (Rmult (1 - wet)) channel)
                (map (Rmult wet) (firstn n full))) = Ok out
    /\ length out = n.
Proof.
  intros Hi Hc Hn. unfold convolve_full.
  destruct channel as [|x ch]; [congruence|].
  destruct impulse as [|y im]; [congruence|]. cbn [bind].
  assert (Hf : length (firstn n (conv_full (x :: ch) (y :: im))) = n).
  { rewrite length_firstn, conv_full_length by discriminate.
    simpl in *. lia. }
  rewrite broadcast2_same by (rewrite !length_map; congruence).
  eexists; split; [reflexivity|].
  rewrite zip_with_length, !length_map. lia.
Qed.

Lemma reverb_channel_raises (channel : list R) (n : nat) (wet : R) :
  exists msg,
    (full <- convolve_full channel [] ;;
     broadcast2 Rplus (map (Rmult (1 - wet)) channel)
                (map (Rmult wet) (firstn n full))) = Raise (ValueError msg).
Proof. destruct channel; eexists; reflexivity. Qed.

Lemma simple_reverb_cases
      (noise : nat -> R) (a : ndarray) (decay : Q) (wet : R) :
  (0 < decay)%Q ->
  (int (decay * 48000) = 0 \/ len a = 0%nat ->
   exists msg,
     _apply_simple_reverb noise a decay wet = Raise (ValueError msg))
  /\ (1 <= int (decay * 48000) -> (0 < len a)%nat ->
      exists r, _apply_simple_reverb noise a decay wet = Ok r
                /\ len r = len a).
Proof.
  intros Hd. pose proof (impulse_length_nonneg decay Hd) as Hn.
  unfold _apply_simple_reverb.
  destruct (impulse_taps noise (int (decay * 48000)) Hn)
    as (drawn & grid & -> & -> & Ld & Lg). cbn [bind].
  set (impulse := map _ (zip_with Rmult drawn _)).
  assert (Li : length impulse = Z.to_nat (int (decay * 48000))).
  { unfold impulse. rewrite length_map, zip_with_length, length_map. lia. }
  split.
  - intros [Hz | Hz].
    + rewrite Hz in Li. destruct impulse; [|discriminate].
      apply on_channels_raises. intros ch _. apply reverb_channel_raises.
    + clearbody impulse.
      destruct a as [[|x s]|[|p s]]; try discriminate; cbn [on_channels map];
        destruct impulse; eexists; reflexivity.
  - intros H1 Hlen.
    assert (Hi : impulse <> []) by (intros E; rewrite E in Li; simpl in Li; lia).
    destruct a as [s|s]; cbn [on_channels len] in *.
    + destruct (reverb_channel_ok impulse s (length s) wet Hi)
        as (out & -> & Lo); [intros ->; simpl in Hlen; lia | reflexivity |].
      cbn [bind]. eexists; split; [reflexivity | exact Lo].
    + destruct (reverb_channel_ok impulse (map fst s) (length s) wet Hi)
        as (c0 & -> & L0);
        [destruct s; [simpl in Hlen; lia | discriminate]
        | apply length_map |].
      cbn [bind].
      destruct (reverb_channel_ok impulse (map snd s) (length s) wet Hi)
        as (c1 & -> & L1);
        [destruct s; [simpl in Hlen; lia | discriminate]
        | apply length_map |].
      cbn [bind]. eexists; split; [reflexivity|].
      cbn [len]. rewrite length_combine. lia.
Qed.

End ReverbShape.

(** X20: when the reverb of [apply_simple_effects] fails.  With a positive
    decay and a positive wet level the reverb raises numpy's [ValueError] when
    the decay is so short that the impulse response has no sample
    ([int(decay * 48000)] is 0, a decay below 1/48000) and when the buffer is
    empty; in every other case it returns a buffer with the same number of
    frames. *)
Theorem reverb_stage_defined
        (noise : nat -> R) (a : ndarray) (decay : Q) (wet : R)
        (delay : option delay_config) (normalize : option bool) :
  (0 < decay)%Q -> (0 < wet)%R ->
  let fx := mk_effects None (Some (mk_reverb (Some decay) (Some wet)))
                       delay normalize in
  (int (decay * 48000) = 0 \/ len a = 0%nat ->
   exists msg, apply_simple_effects noise a fx = Raise (ValueError msg))
  /\ (1 <= int (decay * 48000) -> (0 < len a)%nat ->
      exists r, reverb_stage noise fx a = Ok r /\ len r = len a).
Proof.
  intros Hd Hw fx. unfold apply_simple_effects, reverb_stage.
  cbn [fx fx_eq fx_reverb reverb_decay reverb_wet bind].
  destruct (Qlt_le_dec 0 decay) as [_|Hc]; [|lra].
  destruct (Rlt_dec 0 wet) as [_|Hc]; [|contradiction].
  destruct (simple_reverb_cases noise a decay wet Hd) as [Hraise Hok].
  split.
  - intros H. destruct (Hraise H) as [msg ->]. eexists; reflexivity.
  - exact Hok.
Qed.

Lemma reverb_stage_defined_witness :
  (exists msg,
      apply_simple_effects Session.noise_flat (Mono [1; 1]%R)
        (mk_effects None (Some (mk_reverb (Some (1 # 50000)) (Some 1%R)))
                    None None)
      = Raise (ValueError msg))
  /\ (exists r,
         reverb_stage Session.noise_flat
           (mk_effects None (Some (mk_reverb (Some (1 # 16384)) (Some 1%R)))
                       None None)
           (Mono [1; 1]%R) = Ok r
         /\ len r = 2%nat).
Proof.
  split.
  - apply (reverb_stage_defined Session.noise_flat (Mono [1; 1]%R)
             (1 # 50000) 1 None None); [reflexivity | lra |].
    left. reflexivity.
  - apply (reverb_stage_defined Session.noise_flat (Mono [1; 1]%R)
             (1 # 16384) 1 None None); [reflexivity | lra | |].
    + vm_compute. discriminate.
    + simpl. lia.
Defined.

Section DelayShape.

Lemma feedback_loop_idle (d : nat) (feedback : R) (audio : list R) :
  forall remaining i delayed,
    (length delayed <= d)%nat ->
    feedback_loop remaining i d feedback audio delayed = delayed.
Proof.
  induction remaining as [|rem IH]; intros i delayed H; cbn [feedback_loop];
    [reflexivity|].
  destruct (Rlt_dec (feedback ^ (i + 1)) (1 / 100)); [reflexivity|].
  destruct (Nat.ltb_spec (d * (i + 2)) (length delayed)) as [Hlt|Hge];
    [nia|].
  now apply IH.
Qed.

Lemma delay_channel_ok (d : nat) (feedback wet : R) (channel : list R) :
  exists out,
    broadcast2 Rplus (map (Rmult (1 - wet)) channel)
               (map (Rmult wet) (delay_line d feedback channel)) = Ok out
    /\ length out = length channel
    /\ ((length channel <= d)%nat ->
        out = map (fun x => x * (1 - wet))%R channel).
Proof.
  rewrite broadcast2_same by (now rewrite !length_map, delay_line_length).
  eexists; split; [reflexivity|]. split.
  - rewrite zip_with_length, !length_map, delay_line_length. lia.
  - intros Hd. unfold delay_line.
    rewrite feedback_loop_idle
      by (rewrite length_app, repeat_length, length_firstn; lia).
    replace (length channel - d)%nat with 0%nat by lia.
    rewrite Nat.min_r by lia. cbn [firstn]. rewrite app_nil_r.
    induction channel as [|x ch IH]; simpl in *; [reflexivity|].
    destruct d as [|d]; [lia|].
    rewrite IH by lia. f_equal. ring.
Qed.

End DelayShape.

(** X21: the delay effect never fails and keeps the number of frames and the
    channel layout, for mono and for stereo buffers.  A delay that is at
    least as long as the buffer adds no echo: it only turns the buffer down
    by the factor [1 - wet]. *)
Theorem simple_delay_shape (a : ndarray) (time_ms : Q) (feedback wet : R) :
  exists r,
    _apply_simple_delay a time_ms feedback wet = Ok r
    /\ len r = len a
    /\ match a, r with
       | Mono _, Mono _ | Stereo _, Stereo _ => True
       | _, _ => False
       end
    /\ (0 < delay_samples time_ms ->
        Z.of_nat (len a) <= delay_samples time_ms ->
        r = scale a (1 - wet)).
Proof.
  unfold _apply_simple_delay.
  destruct (Z.leb_spec (delay_samples time_ms) 0) as [Hd|Hd].
  - exists a. split; [reflexivity|]. split; [reflexivity|].
    split; [now destruct a | lia].
  - set (d := Z.to_nat (delay_samples time_ms)).
    destruct a as [s|s]; cbn [on_channels len scale].
    + destruct (delay_channel_ok d feedback wet s) as (out & -> & Hl & Hlong).
      cbn [bind]. eexists; split; [reflexivity|].
      split; [exact Hl|]. split; [exact I|].
      intros _ Hn. rewrite Hlong by (unfold d; lia). reflexivity.
    + destruct (delay_channel_ok d feedback wet (map fst s))
        as (c0 & -> & L0 & H0). cbn [bind].
      destruct (delay_channel_ok d feedback wet (map snd s))
        as (c1 & -> & L1 & H1). cbn [bind].
      rewrite length_map in L0, L1, H0, H1.
      eexists; split; [reflexivity|]. split.
      { cbn [len]. rewrite length_combine. lia. }
      split; [exact I|].
      intros _ Hn. rewrite H0, H1 by (unfold d; lia). f_equal.
      clear. induction s as [|[l r] s IH]; simpl; [reflexivity|].
      now rewrite IH.
Qed.

Lemma simple_delay_shape_witness :
  exists r,
    _apply_simple_delay (Stereo [(1, 2); (3, 4)]%R) 250 (1 / 2) (1 / 4) = Ok r
    /\ r = scale (Stereo [(1, 2); (3, 4)]%R) (1 - 1 / 4).
Proof.
  destruct (simple_delay_shape (Stereo [(1, 2); (3, 4)]%R) 250 (1 / 2) (1 / 4))
    as (r & Hr & _ & _ & Hlong).
  exists r. split; [exact Hr|].
  apply Hlong; vm_compute; [reflexivity | discriminate].
Defined.

(* ------------------------------------------------------------------ *)
(** ** [ExportService]: the mix-down and the stems *)

Section ExportMix.





End ExportMix.




Section StemPan.



End StemPan.

(** X23: the volume and pan step of the stem export fails on one kind of
    track only.  For a mono file with a pan other than 0 it stops with
    [NameError]: the branch that builds the stereo stem refers to [np], which
    the module does not import.  For every other track it returns a buffer
    with the number of frames and the channel layout of the file. *)
Theorem stem_audio_outcome (t : track) (audio : ndarray) :
  (forall s p, audio = Mono s -> pan t = Some p -> p <> 0%R ->
               ExportService.stem_audio t audio
               = ExportService.Failed
                   (ExportService.NameError "name 'np' is not defined"))
  /\ ((exists s, audio = Stereo s) \/ pan t = None \/ pan t = Some 0%R ->
      exists r, ExportService.stem_audio t audio = ExportService.Done r
                /\ len r = len audio
                /\ match audio, r with
                   | Mono _, Mono _ | Stereo _, Stereo _ => True
                   | _, _ => False
                   end).
Proof.
  unfold ExportService.stem_audio. split.
  - intros s p -> Hp Hne. rewrite Hp.
    destruct (volume t) as [v|]; destruct (Req_dec_T p 0) as [E|_];
      try contradiction; reflexivity.
  - intros H.
    destruct (pan t) as [p|] eqn:Hp.
    + destruct (Req_dec_T p 0) as [E|Hne].
      * destruct (volume t) as [v|];
          (eexists; split; [reflexivity|]);
          (split; [now rewrite ?len_scale | now destruct audio]).
      * destruct H as [[s ->] | [H | H]]; try discriminate.
        -- destruct (volume t) as [v|]; cbn [scale];
             (eexists; split; [reflexivity|]); cbn [len];
             unfold channel_gains; rewrite ?length_map; auto.
        -- injection H as ->. contradiction.
    + destruct (volume t) as [v|];
        (eexists; split; [reflexivity|]);
        (split; [now rewrite ?len_scale | now destruct audio]).
Qed.

Lemma stem_audio_outcome_witness :
  ExportService.stem_audio
    (mk_track false (Some "lead.wav"%string) (Some 80%R) (Some 30%R) false)
    (Mono [1; 1]%R)
  = ExportService.Failed (ExportService.NameError "name 'np' is not defined")
  /\ exists r,
       ExportService.stem_audio
         (mk_track false (Some "lead.wav"%string) (Some 80%R) (Some 30%R) false)
         (Stereo [(1, 1)]%R)
       = ExportService.Done r
       /\ len r = 1%nat.
Proof.
  split.
  - apply (proj1 (stem_audio_outcome
                    (mk_track false (Some "lead.wav"%string) (Some 80%R)
                              (Some 30%R) false) (Mono [1; 1]%R))
             [1; 1]%R 30%R); [reflexivity | reflexivity | lra].
  - destruct (proj2 (stem_audio_outcome
                       (mk_track false (Some "lead.wav"%string) (Some 80%R)
                                 (Some 30%R) false) (Stereo [(1, 1)]%R)))
      as (r & Hr & Hl & _).
    + left. now exists [(1, 1)]%R.
    + exists r. split; [exact Hr | exact Hl].
Defined.



(* ------------------------------------------------------------------ *)
(** ** The mixer: a common factor on all volumes *)

Section MasterVolume.

Variable c : R.

Lemma first_pass_scaled (fs : filesystem) (tracks : list track) (st : pass1) :
  first_pass fs (map (with_volume_scaled c) tracks) (pass1_volume_scaled c st)
  = (st' <- first_pass fs tracks st ;; Ok (pass1_volume_scaled c st')).
Proof.
  revert st. induction tracks as [|t rest IH]; intros st; [reflexivity|].
  cbn [map first_pass with_volume_scaled muted file_path volume pan solo].
  destruct (muted t); [apply IH|].
  destruct (file_path t) as [path|]; [|apply IH].
  destruct ((path =? "")%string || negb (path_exists fs path)); [apply IH|].
  destruct (read_audio_file fs path) as [[audio sr]|e]; cbn [bind];
    [|reflexivity].
  destruct (truediv (Z.of_nat (len audio)) sr) as [seconds|e]; cbn [bind];
    [|reflexivity].
  rewrite <- IH. f_equal.
  unfold pass1_volume_scaled.
  cbn [max_sample_rate max_length track_audio_data]. f_equal.
  rewrite map_app. f_equal. cbn [map]. f_equal.
  unfold entry_volume_scaled.
  cbn [td_audio td_sample_rate td_volume td_pan td_solo].
  f_equal. unfold Rdiv. ring.
Qed.

Lemma apply_volume_scaled (v : R) (audio : list (R * R)) :
  apply_volume (c * v) audio = channel_gains c c (apply_volume v audio).
Proof.
  unfold apply_volume, channel_gains. rewrite map_map.
  apply map_ext. intros [l r]. cbn [fst snd]. apply f_equal2; ring.
Qed.

Lemma track_contribution_scaled (max_sr : Z) (n : nat) (td : track_data) :
  track_contribution max_sr n (entry_volume_scaled c td)
  = (audio <- track_contribution max_sr n td ;; Ok (channel_gains c c audio)).
Proof.
  unfold track_contribution, entry_volume_scaled.
  cbn [td_audio td_sample_rate td_volume td_pan td_solo].
  destruct (if td_sample_rate td =? max_sr then Ok (td_audio td)
            else resample_audio (td_audio td) (td_sample_rate td) max_sr)
    as [audio|e]; cbn [bind]; [|reflexivity].
  now rewrite apply_volume_scaled, channel_gains_fit_length.
Qed.

Lemma add_frames_gains (mixed audio : list (R * R)) :
  add_frames (channel_gains c c mixed) (channel_gains c c audio)
  = channel_gains c c (add_frames mixed audio).
Proof.
  revert audio. induction mixed as [|[l r] m IH]; intros [|[l' r'] a];
    try reflexivity.
  cbn [channel_gains map add_frames fst snd].
  fold (channel_gains c c m). fold (channel_gains c c a).
  rewrite IH. unfold channel_gains. f_equal. apply f_equal2; ring.
Qed.

Lemma second_pass_scaled (solo_active : bool) (max_sr : Z) (n : nat)
      (tds : list track_data) (mixed : list (R * R)) :
  second_pass solo_active max_sr n (map (entry_volume_scaled c) tds)
              (channel_gains c c mixed)
  = (out <- second_pass solo_active max_sr n tds mixed ;;
     Ok (channel_gains c c out)).
Proof.
  revert mixed. induction tds as [|td rest IH]; intros mixed; [reflexivity|].
  cbn [map second_pass].
  change (td_solo (entry_volume_scaled c td)) with (td_solo td).
  destruct (solo_active && negb (td_solo td)); [apply IH|].
  rewrite track_contribution_scaled.
  destruct (track_contribution max_sr n td) as [audio|e]; cbn [bind];
    [|reflexivity].
  rewrite add_frames_gains. apply IH.
Qed.

Lemma zeros_gains (n : nat) :
  channel_gains c c (repeat (0, 0)%R n) = repeat (0, 0)%R n.
Proof.
  unfold channel_gains. rewrite map_repeat. cbn [fst snd].
  now rewrite Rmult_0_l.
Qed.

Lemma existsb_solo_scaled (tds : list track_data) :
  existsb td_solo (map (entry_volume_scaled c) tds) = existsb td_solo tds.
Proof.
  induction tds as [|td rest IH]; [reflexivity|].
  cbn [map existsb]. now rewrite IH.
Qed.

Lemma mix_accumulate_scaled (fs : filesystem) (tracks : list track) :
  mix_accumulate fs (map (with_volume_scaled c) tracks)
  = ('(out, rate) <- mix_accumulate fs tracks ;;
     Ok (channel_gains c c out, rate)).
Proof.
  unfold mix_accumulate. destruct tracks as [|t rest]; [reflexivity|].
  change (map (with_volume_scaled c) (t :: rest))
    with (with_volume_scaled c t :: map (with_volume_scaled c) rest) at 1.
  cbv iota beta.
  change (with_volume_scaled c t :: map (with_volume_scaled c) rest)
    with (map (with_volume_scaled c) (t :: rest)).
  change pass1_init with (pass1_volume_scaled c pass1_init) at 1.
  rewrite first_pass_scaled.
  destruct (first_pass fs (t :: rest) pass1_init) as [st|e]; cbn [bind];
    [|reflexivity].
  unfold pass1_volume_scaled.
  cbn [max_sample_rate max_length track_audio_data].
  rewrite existsb_solo_scaled.
  destruct (track_audio_data st) as [|td tds] eqn:E; [reflexivity|].
  cbn [map]. cbv iota beta.
  change (entry_volume_scaled c td :: map (entry_volume_scaled c) tds)
    with (map (entry_volume_scaled c) (td :: tds)).
  unfold zeros2.
  destruct (int (max_length st * inject_Z (max_sample_rate st)) <? 0);
    [reflexivity|].
  cbn [bind].
  rewrite <- (zeros_gains (Z.to_nat _)) at 1.
  rewrite second_pass_scaled.
  destruct (second_pass _ _ _ (td :: tds) _) as [out|e]; reflexivity.
Qed.

End MasterVolume.

(** X25: only the proportions of the track volumes matter to a mix.
    Multiplying the volume of every track by one positive factor (an absent
    volume counts as 100) changes nothing: [mix_tracks] returns the same
    buffer and rate, or raises the same error. *)
Theorem mix_tracks_master_volume
        (fs : filesystem) (tracks : list track) (c : R) :
  (0 < c)%R ->
  mix_tracks fs (map (with_volume_scaled c) tracks) = mix_tracks fs tracks.
Proof.
  intros Hc. unfold mix_tracks. rewrite mix_accumulate_scaled.
  destruct (mix_accumulate fs tracks) as [[out rate]|e]; cbn [bind];
    [|reflexivity].
  change (Stereo (channel_gains c c out)) with (scale (Stereo out) c).
  now rewrite normalize_scale.
Qed.

Lemma mix_tracks_master_volume_witness :
  mix_tracks Session.disk
    (map (with_volume_scaled (1 / 2)) [Session.solo_short; Session.plain_long])
  = mix_tracks Session.disk [Session.solo_short; Session.plain_long].
Proof.
  apply mix_tracks_master_volume. lra.
Defined.

(* ------------------------------------------------------------------ *)
(** ** The mixer: the order of the tracks *)

Section TrackOrder.

Variable fs : filesystem.

(** A first loop that ends has read or passed over every track. *)
Lemma first_pass_inv (tracks : list track) :
  forall st st',
    first_pass fs tracks st = Ok st' -> exists tds, survivors fs tracks tds.
Proof.
  induction tracks as [|t rest IH]; intros st st' H.
  - exists []. constructor.
  - cbn [first_pass] in H.
    destruct (muted t) eqn:Hm.
    { destruct (IH _ _ H) as [tds Hs]. exists tds.
      apply survivors_skip; [now left | exact Hs]. }
    destruct (file_path t) as [path|] eqn:Hp.
    2:{ destruct (IH _ _ H) as [tds Hs]. exists tds.
        apply survivors_skip; [right; now left | exact Hs]. }
    destruct ((path =? "")%string) eqn:He; cbn [orb] in H.
    { destruct (IH _ _ H) as [tds Hs]. exists tds.
      apply survivors_skip; [|exact Hs].
      right; right. exists path. auto. }
    destruct (path_exists fs path) eqn:Hx; cbn [negb] in H.
    2:{ destruct (IH _ _ H) as [tds Hs]. exists tds.
        apply survivors_skip; [|exact Hs].
        right; right. exists path. auto. }
    unfold read_audio_file in H.
    destruct (sf_read fs path) as [[audio sr]|e] eqn:Hr; cbn [bind] in H;
      [|discriminate].
    unfold truediv in H at 1.
    destruct (Z.eqb_spec sr 0) as [E0|Hsr]; cbn [bind] in H; [discriminate|].
    destruct (IH _ _ H) as [tds Hs].
    exists (mk_track_data audio sr
              (match volume t with Some v => v | None => 100 end / 100)%R
              (match pan t with Some p => p | None => 0 end)%R
              (solo t) :: tds).
    apply survivors_read; [|exact Hs].
    split; [exact Hm|]. split.
    { exists path. auto. }
    cbn [td_sample_rate td_volume td_pan td_solo]. auto.
Qed.

Lemma survivors_perm (tracks tracks' : list track) :
  Permutation tracks tracks' ->
  forall tds, survivors fs tracks tds ->
              exists tds', survivors fs tracks' tds' /\ Permutation tds tds'.
Proof.
  induction 1 as [|x l l' Hp IH|x y l|l l' l'' H1 IH1 H2 IH2]; intros tds Hs.
  - inversion Hs; subst. exists []. split; constructor.
  - inversion Hs as [|? ? ? Hsk Hr|? ? td tds0 Hld Hr]; subst.
    + destruct (IH _ Hr) as (tds' & Hs' & Hp').
      exists tds'. split; [now apply survivors_skip | exact Hp'].
    + destruct (IH _ Hr) as (tds' & Hs' & Hp').
      exists (td :: tds'). split; [now apply survivors_read|].
      now constructor.
  - inversion Hs as [|? ? ? Hy Hr|? ? tdy tds0 Hy Hr]; subst;
      inversion Hr as [|? ? ? Hx Hr'|? ? tdx tds1 Hx Hr']; subst.
    + exists tds. split; [|apply Permutation_refl].
      apply survivors_skip; [exact Hx|]. now apply survivors_skip.
    + exists (tdx :: tds1). split; [|apply Permutation_refl].
      apply survivors_read; [exact Hx|]. now apply survivors_skip.
    + exists (tdy :: tds0). split; [|apply Permutation_refl].
      apply survivors_skip; [exact Hx|]. now apply survivors_read.
    + exists (tdx :: tdy :: tds1). split; [|apply perm_swap].
      apply survivors_read; [exact Hx|]. now apply survivors_read.
  - destruct (IH1 _ Hs) as (tds' & Hs' & Hp').
    destruct (IH2 _ Hs') as (tds'' & Hs'' & Hp'').
    exists tds''. split; [exact Hs'' | eapply Permutation_trans; eauto].
Qed.

Lemma fold_maxZ_perm (l l' : list Z) (a : Z) :
  Permutation l l' -> fold_left maxZ l a = fold_left maxZ l' a.
Proof.
  intros Hp. apply Z.le_antisymm; apply fold_maxZ_lub;
    try apply fold_maxZ_ge_init; intros x Hx; apply fold_maxZ_upper.
  - now apply (Permutation_in _ Hp).
  - now apply (Permutation_in _ (Permutation_sym Hp)).
Qed.

Lemma fold_maxQ_perm (l l' : list Q) (a : Q) :
  Permutation l l' -> (fold_left maxQ l a == fold_left maxQ l' a)%Q.
Proof.
  intros Hp. apply Qle_antisym; apply fold_maxQ_lub;
    try apply fold_maxQ_ge_init; intros x Hx; apply fold_maxQ_upper.
  - now apply (Permutation_in _ Hp).
  - now apply (Permutation_in _ (Permutation_sym Hp)).
Qed.

Lemma existsb_perm {A : Type} (f : A -> bool) (l l' : list A) :
  Permutation l l' -> existsb f l = existsb f l'.
Proof.
  induction 1 as [| x l l' _ IH | x y l | l l' l'' _ IH1 _ IH2]; simpl.
  - reflexivity.
  - now rewrite IH.
  - destruct (f x), (f y); reflexivity.
  - congruence.
Qed.

Lemma add_frames_swap (mixed a b : list (R * R)) :
  add_frames (add_frames mixed a) b = add_frames (add_frames mixed b) a.
Proof.
  revert a b. induction mixed as [|[l r] m IH]; intros a b.
  - destruct a as [|[? ?] ?], b as [|[? ?] ?]; reflexivity.
  - destruct a as [|[la ra] a], b as [|[lb rb] b]; try reflexivity.
    cbn [add_frames]. rewrite IH. f_equal. apply f_equal2; ring.
Qed.

Lemma second_pass_perm (solo_active : bool) (max_sr : Z) (n : nat)
      (tds tds' : list track_data) :
  Permutation tds tds' ->
  forall mixed out,
    second_pass solo_active max_sr n tds mixed = Ok out ->
    second_pass solo_active max_sr n tds' mixed = Ok out.
Proof.
  induction 1 as [| x l l' _ IH | x y l | l l' l'' _ IH1 _ IH2];
    intros mixed out H.
  - exact H.
  - cbn [second_pass] in *.
    destruct (solo_active && negb (td_solo x)); [now apply IH|].
    destruct (track_contribution max_sr n x) as [audio|e]; cbn [bind] in *;
      [now apply IH | discriminate].
  - cbn [second_pass] in *.
    destruct (solo_active && negb (td_solo x));
      destruct (solo_active && negb (td_solo y)); try exact H.
    + destruct (track_contribution max_sr n y) as [ay|e]; cbn [bind] in *;
        [|discriminate].
      destruct (track_contribution max_sr n x) as [ax|e]; cbn [bind] in *;
        [|discriminate].
      now rewrite add_frames_swap.
  - apply IH2. now apply IH1.
Qed.

(** What [mix_tracks] accumulates depends on the tracks it reads only. *)
Lemma mix_accumulate_entries (tracks : list track) (tds : list track_data) :
  tracks <> [] -> survivors fs tracks tds ->
  mix_accumulate fs tracks = mix_entries tds.
Proof.
  intros Hne Hs. unfold mix_accumulate, mix_entries.
  destruct tracks as [|t rest]; [contradiction|].
  rewrite (first_pass_survivors fs _ _ Hs). cbn [bind].
  cbn [pass1_init max_sample_rate max_length track_audio_data app].
  destruct tds; reflexivity.
Qed.

Lemma survivors_rates (tracks : list track) (tds : list track_data) :
  survivors fs tracks tds -> forall td, In td tds -> td_sample_rate td <> 0.
Proof.
  induction 1 as [|t rest tds _ _ IH|t rest td tds Hl _ IH]; intros x Hx.
  - contradiction.
  - now apply IH.
  - destruct Hx as [<- | Hx]; [apply Hl | now apply IH].
Qed.

Lemma mix_entries_perm (tds tds' : list track_data) (r : list (R * R) * Z) :
  Permutation tds tds' -> mix_entries tds = Ok r -> mix_entries tds' = Ok r.
Proof.
  intros Hp. unfold mix_entries.
  destruct tds as [|td0 tds0]; [discriminate|].
  destruct tds' as [|td1 tds1];
    [apply Permutation_sym, Permutation_nil in Hp; discriminate|].
  set (tds := td0 :: tds0) in *. set (tds' := td1 :: tds1) in *.
  rewrite <- (existsb_perm td_solo tds tds' Hp).
  rewrite <- (fold_maxZ_perm (map td_sample_rate tds)
                (map td_sample_rate tds') 0) by (now apply Permutation_map).
  set (rate := fold_left maxZ (map td_sample_rate tds) 0).
  assert (Hr : 0 <= rate) by apply fold_maxZ_ge_init.
  assert (Hlen : int (fold_left maxQ (map duration tds') 0%Q * inject_Z rate)
                 = int (fold_left maxQ (map duration tds) 0%Q * inject_Z rate)).
  { apply int_Qeq.
    - apply Qmult_le_0_compat; [apply fold_maxQ_ge_init|].
      change 0%Q with (inject_Z 0). now rewrite <- Zle_Qle.
    - rewrite (fold_maxQ_perm (map duration tds') (map duration tds) 0%Q);
        [reflexivity|].
      apply Permutation_map. now apply Permutation_sym. }
  rewrite Hlen.
  destruct (zeros2 _) as [zeros|e]; cbn [bind]; [|discriminate].
  destruct (second_pass _ rate _ tds zeros) as [out|e] eqn:E; cbn [bind];
    [|discriminate].
  intros [= <-]. now rewrite (second_pass_perm _ _ _ _ _ Hp _ _ E).
Qed.

End TrackOrder.

(** X26: the order of the tracks does not matter to a mix.  When
    [mix_tracks] returns a mix for a list of tracks, it returns the same
    buffer and the same rate for every reordering of the list. *)
Theorem mix_tracks_order
        (fs : filesystem) (tracks tracks' : list track) (mix : ndarray)
        (rate : Z) :
  Permutation tracks tracks' ->
  mix_tracks fs tracks = Ok (mix, rate) ->
  mix_tracks fs tracks' = Ok (mix, rate).
Proof.
  intros Hp H. unfold mix_tracks in *.
  destruct (mix_accumulate fs tracks) as [[out r]|e] eqn:Ha; cbn [bind] in H;
    [|discriminate].
  assert (Hne : tracks <> []).
  { intros ->. discriminate Ha. }
  assert (Hne' : tracks' <> []).
  { intros ->. apply Permutation_sym, Permutation_nil in Hp. contradiction. }
  assert (Hs : exists tds, survivors fs tracks tds).
  { unfold mix_accumulate in Ha. destruct tracks as [|t rest]; [contradiction|].
    destruct (first_pass fs (t :: rest) pass1_init) as [st|e] eqn:E;
      [|discriminate].
    eapply first_pass_inv; eauto. }
  destruct Hs as [tds Hs].
  destruct (survivors_perm fs _ _ Hp _ Hs) as (tds' & Hs' & Hp').
  rewrite (mix_accumulate_entries fs _ _ Hne Hs) in Ha.
  rewrite (mix_accumulate_entries fs _ _ Hne' Hs').
  rewrite (mix_entries_perm _ _ _ Hp' Ha). cbn [bind]. exact H.
Qed.

Lemma mix_tracks_order_witness :
  exists mix,
    mix_tracks Session.disk [Session.solo_short; Session.plain_long]
    = Ok (mix, 44100)
    /\ mix_tracks Session.disk [Session.plain_long; Session.solo_short]
       = Ok (mix, 44100).
Proof.
  destruct mix_short_long as [mix [Hm _]].
  exists mix. split; [exact Hm|].
  apply (mix_tracks_order Session.disk
           [Session.solo_short; Session.plain_long]
           [Session.plain_long; Session.solo_short] mix 44100);
    [apply perm_swap | exact Hm].
Defined.

(* ------------------------------------------------------------------ *)
(** ** [trim_silence] applied again *)

Section TrimAgain.

Lemma frame_levels_window (a : ndarray) (s q : nat) :
  frame_levels (take q (drop s a)) = firstn q (skipn s (frame_levels a)).
Proof.
  unfold frame_levels.
  destruct a as [l|l]; cbn [take drop mono_mean];
    now rewrite ?skipn_map, ?firstn_map.
Qed.

Lemma len_window (a : ndarray) (s q : nat) :
  len (take q (drop s a)) = Nat.min q (len a - s).
Proof.
  destruct a as [l|l]; cbn [take drop len];
    now rewrite length_firstn, length_skipn.
Qed.

(** A loud frame inside the window is a loud frame of the window. *)
Lemma loud_window (threshold : R) (a : ndarray) (s e k : nat) :
  (s <= k < e)%nat -> (e <= len a)%nat ->
  loud threshold a k ->
  loud threshold (take (e - s) (drop s a)) (k - s).
Proof.
  intros Hk He [_ Hl]. split.
  - rewrite len_window. lia.
  - rewrite frame_levels_window, nth_firstn_lt by lia.
    rewrite nth_skipn. now replace (s + (k - s))%nat with k by lia.
Qed.

Lemma trim_silence_again (a r : ndarray) (threshold : R)
      (min_silence_duration : Q) (sample_rate : Z) :
  1 <= int (min_silence_duration * inject_Z sample_rate) ->
  trim_silence a threshold min_silence_duration sample_rate = Ok r ->
  trim_silence r threshold min_silence_duration sample_rate = Ok r.
Proof.
  intros Hm Hr.
  set (m := int (min_silence_duration * inject_Z sample_rate)) in *.
  destruct (first_above threshold (frame_levels a) 0) as [i0|] eqn:Ef0.
  2:{ assert (Hnone : forall k, ~ loud threshold a k).
      { apply loud_none. exact (proj1 (first_above_none _ _ _) Ef0). }
      rewrite (trim_silence_no_loud a _ _ _ Hnone) in Hr.
      injection Hr as <-. now apply trim_silence_no_loud. }
  destruct (loud_first _ _ _ Ef0) as (_ & Hk & _). clear Ef0.
  destruct (loud_scans a threshold _ Hk)
    as (i & j & Ef & El & Hij & Hj & Li & Lj & _ & _).
  set (s := Z.to_nat (Z.max 0 (Z.of_nat i - m))).
  set (e := Z.to_nat (Z.min (Z.of_nat (len a)) (Z.of_nat j + m))).
  assert (Ea : trim_silence a threshold min_silence_duration sample_rate
               = Ok (take (e - s) (drop s a))).
  { unfold s, e. apply trim_silence_slice; try lia.
    - now rewrite Ef.
    - now rewrite El. }
  rewrite Ea in Hr. injection Hr as <-.
  set (r := take (e - s) (drop s a)).
  assert (Hlen : len r = (e - s)%nat).
  { unfold r. rewrite len_window. unfold s, e. lia. }
  assert (Lri : loud threshold r (i - s))
    by (apply loud_window; [unfold s, e; lia | unfold e; lia | exact Li]).
  assert (Lrj : loud threshold r (j - s))
    by (apply loud_window; [unfold s, e; lia | unfold e; lia | exact Lj]).
  destruct (loud_scans r threshold _ Lri)
    as (i' & j' & Ef' & El' & Hij' & Hj' & _ & _ & _ & Bj').
  assert (Hjj : (j - s <= j')%nat).
  { destruct (Nat.le_gt_cases (j - s) j') as [H|H]; [exact H|].
    exfalso. now apply (Bj' (j - s)%nat). }
  rewrite (trim_silence_slice r threshold min_silence_duration sample_rate
             0 (Z.of_nat (len r))); try lia.
  - rewrite Nat2Z.id, Nat.sub_0_r.
    destruct r as [l|l]; cbn [take drop len skipn]; now rewrite firstn_all.
  - rewrite Ef'. fold m. unfold s in Hij'. lia.
  - rewrite El'. fold m. rewrite Hlen. unfold s, e in *. lia.
Qed.

End TrimAgain.

(** X27: with a margin of at least one sample [trim_silence] is idempotent:
    trimming what it returned, with the same arguments, removes nothing
    more. *)
Theorem trim_silence_idempotent (a r : ndarray) (threshold : R)
        (min_silence_duration : Q) (sample_rate : Z) :
  1 <= int (min_silence_duration * inject_Z sample_rate) ->
  trim_silence a threshold min_silence_duration sample_rate = Ok r ->
  trim_silence r threshold min_silence_duration sample_rate = Ok r.
Proof.
  exact (trim_silence_again a r threshold min_silence_duration sample_rate).
Qed.

Lemma trim_silence_idempotent_witness :
  exists r,
    trim_silence (Mono [0; 1; 0]%R) (1 / 2) 1 1 = Ok r
    /\ trim_silence r (1 / 2) 1 1 = Ok r.
Proof.
  destruct (trim_silence (Mono [0; 1; 0]%R) (1 / 2) 1 1) as [r|e] eqn:H.
  - exists r. split; [reflexivity|].
    apply (trim_silence_idempotent (Mono [0; 1; 0]%R)); [|exact H].
    vm_compute. discriminate.
  - discriminate H.
Defined.

(* ------------------------------------------------------------------ *)
(** ** [apply_fade]: the two ends of the buffer *)

Section FadeEnds.

Lemma on_channels_inv (f : list R -> result (list R)) (a r : ndarray) :
  on_channels f a = Ok r ->
  (exists s out, a = Mono s /\ f s = Ok out /\ r = Mono out)
  \/ (exists s c0 c1, a = Stereo s /\ f (map fst s) = Ok c0
                      /\ f (map snd s) = Ok c1
                      /\ r = Stereo (combine c0 c1)).
Proof.
  destruct a as [s|s]; cbn [on_channels].
  - destruct (f s) as [out|] eqn:E; [|discriminate].
    intros [= <-]. left. eauto.
  - destruct (f (map fst s)) as [c0|] eqn:E0; [|discriminate].
    destruct (f (map snd s)) as [c1|] eqn:E1; [|discriminate].
    intros [= <-]. right. exists s, c0, c1. auto.
Qed.

(** A property of the first sample of every channel is a property of the
    first frame. *)
Lemma first_frame_channels (P : R -> Prop) (c0 c1 : list R) :
  (forall x, In x (firstn 1 c0) -> P x) ->
  (forall x, In x (firstn 1 c1) -> P x) ->
  forall x, In x (samples (take 1 (Stereo (combine c0 c1)))) -> P x.
Proof.
  intros H0 H1 x. destruct c0 as [|y0 c0], c1 as [|y1 c1]; simpl;
    try contradiction.
  intros [<- | [<- | []]]; [apply H0 | apply H1]; now left.
Qed.

Lemma first_frame_split (P : R -> Prop) (s : list (R * R)) :
  (forall x, In x (samples (take 1 (Stereo s))) -> P x) ->
  (forall x, In x (firstn 1 (map fst s)) -> P x)
  /\ (forall x, In x (firstn 1 (map snd s)) -> P x).
Proof.
  intros H. destruct s as [|[l r] s]; simpl in *.
  - split; intros x [].
  - split; intros x [<- | []]; apply H; auto.
Qed.

(** The same for the last sample and the last frame. *)
Lemma last_frame_channels (P : R -> Prop) (c0 c1 : list R) :
  length c0 = length c1 ->
  (forall x, In x (skipn (length c0 - 1) c0) -> P x) ->
  (forall x, In x (skipn (length c1 - 1) c1) -> P x) ->
  forall x,
    In x (samples (drop (len (Stereo (combine c0 c1)) - 1)
                        (Stereo (combine c0 c1)))) -> P x.
Proof.
  intros E H0 H1 x. cbn [len drop samples].
  rewrite length_combine, <- E, Nat.min_id, skipn_combine.
  rewrite <- E in H1.
  set (k := (length c0 - 1)%nat) in *.
  assert (El : length (skipn k c0) = length (skipn k c1))
    by (rewrite !length_skipn; lia).
  revert El H0 H1. generalize (skipn k c0) (skipn k c1).
  intros l0. induction l0 as [|y0 l0 IH]; intros [|y1 l1] El H0 H1 Hx;
    simpl in *; try contradiction; try discriminate.
  destruct Hx as [<- | [<- | Hx]].
  - apply H0. now left.
  - apply H1. now left.
  - apply IH with (l := l1); auto.
Qed.

Lemma attenuated_head_silent (ch out : list R) :
  Forall2 attenuated ch out ->
  (forall x, In x (firstn 1 ch) -> x = 0%R) ->
  forall x, In x (firstn 1 out) -> x = 0%R.
Proof.
  intros H Hz x. destruct H as [|a b ch' out' (g & _ & ->) _];
    simpl; [contradiction|].
  intros [<- | []]. rewrite (Hz a) by now left. ring.
Qed.

Lemma linspace_up_head (num : Z) (curve : list R) :
  1 <= num -> linspace 0 1 num = Ok curve ->
  exists rest, curve = 0%R :: rest /\ length curve = Z.to_nat num.
Proof.
  intros Hn. unfold linspace. destruct (Z.ltb_spec num 0); [lia|].
  intros [= <-]. rewrite length_map, length_seq.
  destruct (Z.to_nat num) as [|k] eqn:E; [lia|].
  cbn [seq map]. eexists. split; [|reflexivity]. f_equal.
  destruct (num =? 1); [reflexivity|]. cbn [INR]. ring.
Qed.

Lemma fade_in_1d_head (k : nat) (curve rest ch out : list R) :
  (1 <= k)%nat -> curve = 0%R :: rest ->
  fade_in_1d k curve ch = Ok out ->
  forall x, In x (firstn 1 out) -> x = 0%R.
Proof.
  intros Hk -> H x. unfold fade_in_1d in H.
  destruct (imul (firstn k ch) (0%R :: rest)) as [faded|] eqn:E;
    [|discriminate].
  cbn [bind] in H. injection H as <-.
  destruct k as [|k]; [lia|]. unfold imul in E.
  destruct ch as [|y ch]; cbn [firstn] in E.
  - assert (Hf : faded = []).
    { destruct (_ =? _)%nat; [now injection E as <-|].
      destruct (_ =? _)%nat; [now injection E as <-|discriminate]. }
    subst faded. cbn. intros [].
  - assert (Hf : exists tl, faded = (y * 0)%R :: tl).
    { destruct (_ =? _)%nat; [injection E as <-; cbn; eauto|].
      destruct (_ =? _)%nat; [injection E as <-; cbn; eauto|discriminate]. }
    destruct Hf as [tl ->]. cbn. intros [<- | []]. ring.
Qed.

Lemma linspace_down_last (num : Z) (curve : list R) :
  2 <= num -> linspace 1 0 num = Ok curve ->
  length curve = Z.to_nat num /\ last curve 1%R = 0%R.
Proof.
  intros Hn. unfold linspace. destruct (Z.ltb_spec num 0); [lia|].
  intros [= <-]. rewrite length_map, length_seq. split; [reflexivity|].
  replace (Z.to_nat num) with (S (Z.to_nat (num - 1))) by lia.
  rewrite seq_S, map_app. cbn [map]. rewrite last_last.
  destruct (Z.eqb_spec num 1); [lia|].
  rewrite Nat.add_0_l, INR_IZR_INZ, Z2Nat.id by lia.
  assert (IZR (num - 1) <> 0%R) by (apply not_0_IZR; lia).
  field. assumption.
Qed.

Lemma zip_with_last_zero (target curve : list R) :
  length curve = length target -> last curve 1%R = 0%R -> curve <> [] ->
  forall x, In x (skipn (length target - 1) (zip_with Rmult target curve)) ->
            x = 0%R.
Proof.
  revert curve. induction target as [|y t IH]; intros [|g c] El Hl Hne x;
    try discriminate; try congruence.
  destruct t as [|y' t].
  - destruct c; [|discriminate]. cbn in *. intros [<- | []].
    rewrite Hl. ring.
  - destruct c as [|g' c]; [discriminate|].
    replace (length (y :: y' :: t) - 1)%nat with (S (length (y' :: t) - 1))
      by (simpl; lia).
    change (zip_with Rmult (y :: y' :: t) (g :: g' :: c))
      with ((y * g)%R :: zip_with Rmult (y' :: t) (g' :: c)).
    rewrite skipn_cons. apply (IH (g' :: c)).
    + simpl in *. lia.
    + exact Hl.
    + discriminate.
Qed.

Lemma fade_out_1d_last (k : nat) (curve ch out : list R) :
  (2 <= k)%nat -> length curve = k -> last curve 1%R = 0%R ->
  fade_out_1d k curve ch = Ok out ->
  length out = length ch
  /\ forall x, In x (skipn (length out - 1) out) -> x = 0%R.
Proof.
  intros Hk El Hl H. unfold fade_out_1d, imul in H.
  rewrite length_skipn in H.
  destruct (Nat.eqb_spec (length curve)
                         (length ch - (length ch - k))) as [E|_].
  2:{ destruct (Nat.eqb_spec (length curve) 1); [lia | discriminate]. }
  cbn [bind] in H. injection H as <-.
  assert (Hn : (k <= length ch)%nat) by lia.
  set (start := (length ch - k)%nat) in *.
  assert (Ht : length (skipn start ch) = k)
    by (rewrite length_skipn; unfold start; lia).
  assert (Hz : length (zip_with Rmult (skipn start ch) curve) = k)
    by (rewrite zip_with_length; lia).
  assert (Hf : length (firstn start ch) = start)
    by (rewrite length_firstn; unfold start; lia).
  split.
  - rewrite length_app, Hz, Hf. unfold start. lia.
  - intros x. rewrite length_app, Hz, Hf.
    rewrite skipn_app, Hf.
    rewrite (skipn_all2 (firstn start ch)) by lia. cbn [app].
    replace (start + k - 1 - start)%nat
      with (length (skipn start ch) - 1)%nat by lia.
    apply zip_with_last_zero; [lia | exact Hl |].
    intros ->. simpl in El. lia.
Qed.

Lemma fade_out_1d_single (ch : list R) :
  fade_out_1d 1 [1%R] ch = Ok ch.
Proof.
  unfold fade_out_1d, imul.
  remember (skipn (length ch - 1) ch) as tail eqn:Et.
  assert (Hch : firstn (length ch - 1) ch ++ tail = ch)
    by (rewrite Et; apply firstn_skipn).
  assert (Hl : length tail = (length ch - (length ch - 1))%nat)
    by (rewrite Et; apply length_skipn).
  destruct tail as [|y [|y' tail]].
  - cbn. now rewrite Hch.
  - cbn. rewrite Rmult_1_r. now rewrite Hch.
  - simpl in Hl. lia.
Qed.

End FadeEnds.

Section FadeEndStages.

Lemma fade_in_stage_head (a r : ndarray) (ki : Z) :
  1 <= ki ->
  (fade_in_curve <- linspace 0 1 ki ;;
   on_channels (fade_in_1d (Z.to_nat ki) fade_in_curve) a) = Ok r ->
  forall x, In x (samples (take 1 r)) -> x = 0%R.
Proof.
  intros Hk H.
  destruct (linspace 0 1 ki) as [curve|] eqn:Ec; [|discriminate].
  cbn [bind] in H.
  destruct (linspace_up_head ki curve Hk Ec) as (rest & Hc & _).
  assert (Hch : forall ch out,
             fade_in_1d (Z.to_nat ki) curve ch = Ok out ->
             forall x, In x (firstn 1 out) -> x = 0%R).
  { intros ch out. apply (fade_in_1d_head _ curve rest); [lia | exact Hc]. }
  destruct (on_channels_inv _ _ _ H)
    as [(s & out & -> & Ho & ->) | (s & c0 & c1 & -> & H0 & H1 & ->)].
  - cbn [take samples]. now apply (Hch s).
  - apply first_frame_channels; [now apply (Hch (map fst s))
                                | now apply (Hch (map snd s))].
Qed.

Lemma fade_out_stage_head (a r : ndarray) (ko : Z) :
  (if 0 <? ko
   then fade_out_curve <- linspace 1 0 ko ;;
        on_channels (fade_out_1d (Z.to_nat ko) fade_out_curve) a
   else Ok a) = Ok r ->
  (forall x, In x (samples (take 1 a)) -> x = 0%R) ->
  forall x, In x (samples (take 1 r)) -> x = 0%R.
Proof.
  intros H Hz. destruct (0 <? ko); [|now injection H as <-].
  destruct (linspace 1 0 ko) as [curve|] eqn:Ec; [|discriminate].
  cbn [bind] in H.
  assert (Hch : forall ch out,
             fade_out_1d (Z.to_nat ko) curve ch = Ok out ->
             Forall2 attenuated ch out).
  { intros ch out. apply fade_out_1d_attenuated.
    now apply (linspace_down_unit ko). }
  destruct (on_channels_inv _ _ _ H)
    as [(s & out & -> & Ho & ->) | (s & c0 & c1 & -> & H0 & H1 & ->)].
  - cbn [take samples] in *.
    now apply (attenuated_head_silent s out (Hch _ _ Ho)).
  - destruct (first_frame_split _ s Hz) as [Hz0 Hz1].
    apply first_frame_channels.
    + now apply (attenuated_head_silent _ _ (Hch _ _ H0)).
    + now apply (attenuated_head_silent _ _ (Hch _ _ H1)).
Qed.

Lemma fade_out_stage_last (a r : ndarray) (ko : Z) :
  2 <= ko ->
  (fade_out_curve <- linspace 1 0 ko ;;
   on_channels (fade_out_1d (Z.to_nat ko) fade_out_curve) a) = Ok r ->
  forall x, In x (samples (drop (len r - 1) r)) -> x = 0%R.
Proof.
  intros Hk H.
  destruct (linspace 1 0 ko) as [curve|] eqn:Ec; [|discriminate].
  cbn [bind] in H.
  destruct (linspace_down_last ko curve Hk Ec) as [Hl Hlast].
  assert (Hch : forall ch out,
             fade_out_1d (Z.to_nat ko) curve ch = Ok out ->
             length out = length ch
             /\ forall x, In x (skipn (length out - 1) out) -> x = 0%R).
  { intros ch out. apply fade_out_1d_last; [lia | exact Hl | exact Hlast]. }
  destruct (on_channels_inv _ _ _ H)
    as [(s & out & -> & Ho & ->) | (s & c0 & c1 & -> & H0 & H1 & ->)].
  - cbn [drop samples len]. now apply (Hch s).
  - destruct (Hch _ _ H0) as [L0 Z0]. destruct (Hch _ _ H1) as [L1 Z1].
    rewrite length_map in L0, L1.
    apply last_frame_channels; [congruence | exact Z0 | exact Z1].
Qed.

Lemma fade_out_stage_single (a : ndarray) :
  (fade_out_curve <- linspace 1 0 1 ;;
   on_channels (fade_out_1d (Z.to_nat 1) fade_out_curve) a) = Ok a.
Proof.
  change (linspace 1 0 1) with (Ok [1%R]). cbn [bind].
  change (Z.to_nat 1) with 1%nat.
  destruct a as [s|s]; cbn [on_channels]; rewrite !fade_out_1d_single;
    cbn [bind]; [reflexivity|].
  now rewrite combine_fst_snd.
Qed.

End FadeEndStages.

(** X28: the two ends of a faded buffer.  A fade-in of one sample or more
    silences the first frame, and a fade-out of two samples or more silences
    the last frame; a fade-out of exactly one sample, without a fade-in,
    returns the buffer as it is, because its curve is the single gain 1. *)
Theorem apply_fade_ends
        (a : ndarray) (fade_in_duration fade_out_duration : Q)
        (sample_rate : Z) :
  let ki := int (fade_in_duration * inject_Z sample_rate) in
  let ko := int (fade_out_duration * inject_Z sample_rate) in
  (ki <= 0 -> ko = 1 ->
   apply_fade a fade_in_duration fade_out_duration sample_rate = Ok a)
  /\ (forall r,
         apply_fade a fade_in_duration fade_out_duration sample_rate = Ok r ->
         (1 <= ki -> forall x, In x (samples (take 1 r)) -> x = 0%R)
         /\ (2 <= ko ->
             forall x, In x (samples (drop (len r - 1) r)) -> x = 0%R)).
Proof.
  intros ki ko. unfold apply_fade. fold ki ko. split.
  - intros Hi Ho. destruct (Z.ltb_spec 0 ki); [lia|]. cbn [bind].
    rewrite Ho. cbn [Z.ltb Z.compare]. now rewrite fade_out_stage_single.
  - intros r H.
    destruct (if 0 <? ki
              then fade_in_curve <- linspace 0 1 ki ;;
                   on_channels (fade_in_1d (Z.to_nat ki) fade_in_curve) a
              else Ok a) as [r1|] eqn:E1; [|discriminate].
    cbn [bind] in H.
    destruct (if 0 <? ko
              then fade_out_curve <- linspace 1 0 ko ;;
                   on_channels (fade_out_1d (Z.to_nat ko) fade_out_curve) r1
              else Ok r1) as [r2|] eqn:E2; [|discriminate].
    cbn [bind] in H. injection H as <-. split.
    + intros Hi. apply (fade_out_stage_head r1 r2 ko E2).
      destruct (Z.ltb_spec 0 ki); [|lia].
      now apply (fade_in_stage_head a r1 ki).
    + intros Ho. destruct (Z.ltb_spec 0 ko); [|lia].
      now apply (fade_out_stage_last r1 r2 ko).
Qed.

Lemma apply_fade_ends_witness :
  apply_fade (Stereo [(1, 2); (3, 4)]%R) 0 (1 # 2) 2
  = Ok (Stereo [(1, 2); (3, 4)]%R)
  /\ exists r,
       apply_fade (Mono [1; 1; 1; 1]%R) (1 # 2) 1 2 = Ok r
       /\ (forall x, In x (samples (take 1 r)) -> x = 0%R)
       /\ (forall x, In x (samples (drop (len r - 1) r)) -> x = 0%R).
Proof.
  split.
  - apply (proj1 (apply_fade_ends (Stereo [(1, 2); (3, 4)]%R) 0 (1 # 2) 2));
      [vm_compute; discriminate | reflexivity].
  - destruct (apply_fade (Mono [1; 1; 1; 1]%R) (1 # 2) 1 2) as [r|e] eqn:H.
    + exists r. split; [reflexivity|].
      destruct (proj2 (apply_fade_ends (Mono [1; 1; 1; 1]%R) (1 # 2) 1 2)
                  r H) as [Hhead Hlast].
      split; [apply Hhead | apply Hlast]; vm_compute; discriminate.
    + discriminate H.
Defined.

(* ------------------------------------------------------------------ *)
(** ** The exported mix at any rate *)

Section ExportLevel.



End ExportLevel.



(* ------------------------------------------------------------------ *)
(** ** [analyze_audio]: the dominant frequency *)

Section DominantFrequency.









End DominantFrequency.


